(** * tmj: the map-merge engine and the colour engine

    A shallow embedding of [src/utils/tmjMerge.ts] and
    [src/utils/colorTools.ts], and the properties the specification
    states about them; then of the code around them, [src/utils/pathUtils.ts],
    the tileset lookup of the map renderer and two state updates of the
    editor, with properties read off the code.

    Conventions of the embedding.
    - A JavaScript [number] that the code only ever reads as an integer
      (offsets, GIDs, tile counts, pixel bytes) is a [Z].  A [number] that
      the code can set to a non-finite value (the accumulators and the
      result of [computeBounds], and what is copied from them) is a [num]:
      an integer, [Infinity], [-Infinity] or [NaN].  Floating-point
      rounding is outside the model: the integers are those JavaScript
      computes exactly and prints with all their digits, below [2^53] in
      magnitude.
    - A [throw] is a [Throw] in the [result] monad; loops are folds over the
      index ranges they enumerate; loops whose step is a parameter take
      fuel.
    - Objects used as dictionaries are stdpp finite maps, or association
      lists where the code observes insertion order.
    - Typed-array buffers live in a store of buffers indexed by location,
      so that allocation and in-place writes are visible.
    - A [string] is the sequence of the code units of a JavaScript string,
      each below 256. *)

From Stdlib Require Import ZArith Lia Ascii String.
From stdpp Require Import base tactics option list gmap strings pretty
  sorting.

Local Open Scope Z_scope.
Set Warnings "-register-all".

(** ** JavaScript values shared by both engines *)

(** The exceptions the code can raise: [Error] is thrown by the code itself,
    [RangeError] by [new Array(n)] on an invalid length, [TypeError] by a
    property read on [undefined]. *)
Inductive exn : Type :=
  | Error (message : string)
  | RangeError (message : string)
  | TypeError (message : string).

Inductive result (A : Type) : Type :=
  | Ok (a : A)
  | Throw (e : exn).
Arguments Ok {A} a.
Arguments Throw {A} e.

Definition bind {A B} (m : result A) (k : A -> result B) : result B :=
  match m with
  | Ok a => k a
  | Throw e => Throw e
  end.

(** [foldM body xs s]: a loop over [xs] whose body may throw. *)
Fixpoint foldM {S X} (body : S -> X -> result S) (xs : list X) (s : S)
  : result S :=
  match xs with
  | [] => Ok s
  | x :: xs' => bind (body s x) (foldM body xs')
  end.

(** The indices [0, 1, ..., n-1] of [for (let i = 0; i < n; i++)]; empty
    when [n <= 0]. *)
Definition upto (n : Z) : list Z := seqZ 0 n.

Module Js.

(** Integer-valued numbers extended with the non-finite values. *)
Inductive num : Type :=
  | Fin (z : Z)
  | PosInf
  | NegInf
  | NaN.

Definition isFin (a : num) : bool :=
  match a with Fin _ => true | _ => false end.

(** The integer a finite number stands for ([0] on the others; only read
    under a finiteness hypothesis). *)
Definition toZ (a : num) : Z :=
  match a with Fin z => z | _ => 0 end.

(** [Math.min(a, b)] *)
Definition min (a b : num) : num :=
  match a, b with
  | NaN, _ | _, NaN => NaN
  | NegInf, _ | _, NegInf => NegInf
  | PosInf, c | c, PosInf => c
  | Fin x, Fin y => Fin (Z.min x y)
  end.

(** [Math.max(a, b)] *)
Definition max (a b : num) : num :=
  match a, b with
  | NaN, _ | _, NaN => NaN
  | PosInf, _ | _, PosInf => PosInf
  | NegInf, c | c, NegInf => c
  | Fin x, Fin y => Fin (Z.max x y)
  end.

(** [a + b] *)
Definition add (a b : num) : num :=
  match a, b with
  | NaN, _ | _, NaN => NaN
  | PosInf, NegInf | NegInf, PosInf => NaN
  | PosInf, _ | _, PosInf => PosInf
  | NegInf, _ | _, NegInf => NegInf
  | Fin x, Fin y => Fin (x + y)
  end.

(** [-a] *)
Definition neg (a : num) : num :=
  match a with
  | Fin x => Fin (- x)
  | PosInf => NegInf
  | NegInf => PosInf
  | NaN => NaN
  end.

(** [a - b] *)
Definition sub (a b : num) : num := add a (neg b).

(** The sign of a number that is not [NaN]. *)
Definition sgn (a : num) : Z :=
  match a with
  | Fin x => Z.sgn x
  | PosInf => 1
  | NegInf => -1
  | NaN => 0
  end.

(** [a * b]: infinity times zero is [NaN]. *)
Definition mul (a b : num) : num :=
  match a, b with
  | NaN, _ | _, NaN => NaN
  | Fin x, Fin y => Fin (x * y)
  | _, _ =>
      match sgn a * sgn b with
      | Z0 => NaN
      | Zpos _ => PosInf
      | Zneg _ => NegInf
      end
  end.

(** [a < b]: false as soon as one side is [NaN]. *)
Definition ltb (a b : num) : bool :=
  match a, b with
  | NaN, _ | _, NaN => false
  | Fin x, Fin y => x <? y
  | NegInf, NegInf => false
  | NegInf, _ => true
  | _, PosInf => match a with PosInf => false | _ => true end
  | _, _ => false
  end.

(** [a >= b]: false as soon as one side is [NaN]. *)
Definition geb (a b : num) : bool :=
  match a, b with
  | NaN, _ | _, NaN => false
  | _, _ => negb (ltb a b)
  end.

End Js.

Abbreviation num := Js.num.
Abbreviation Fin := Js.Fin.
Abbreviation PosInf := Js.PosInf.
Abbreviation NegInf := Js.NegInf.
Abbreviation NaN := Js.NaN.

(** [result] with stdpp's monad notation [x ← m; k]. *)
Global Instance result_ret : MRet result := @Ok.
Global Instance result_bind : MBind result := fun A B k m => bind m k.

(** ** The map document ([src/types/tmj.ts]) *)

Record RawProperty : Type := mkRawProperty {
  prop_name : string;
  prop_type : string;
  prop_value : string;
}.

(** The fields every layer has ([RawLayerBase]); the [type] tag is the
    constructor of [RawLayer]. *)
Record RawLayerBase : Type := mkRawLayerBase {
  id : Z;
  name : string;
  opacity : option Z;
  visible : option bool;
  x : option Z;
  y : option Z;
  properties : option (list RawProperty);
}.

Record RawTileLayer : Type := mkRawTileLayer {
  tl_base : RawLayerBase;
  tl_width : Z;
  tl_height : Z;
  tl_data : list Z;
}.

Record RawObject : Type := mkRawObject {
  obj_id : Z;
  obj_name : string;
  obj_type : string;
  obj_x : num;
  obj_y : num;
  obj_width : option Z;
  obj_height : option Z;
  obj_rotation : option Z;
  obj_properties : option (list RawProperty);
  obj_gid : option Z;
}.

Record RawObjectGroup : Type := mkRawObjectGroup {
  og_base : RawLayerBase;
  og_objects : list RawObject;
}.

Inductive RawLayer : Type :=
  | TileLayer (l : RawTileLayer)
  | ObjectGroup (g : RawObjectGroup)
  | ImageLayer (b : RawLayerBase) (image : option string)
  | GroupLayer (b : RawLayerBase) (layers : list RawLayer).

Record RawTilesetRef : Type := mkRawTilesetRef {
  firstgid : Z;
  source : option string;
  ts_name : option string;
  tilewidth : option Z;
  tileheight : option Z;
  tilecount : option Z;
  columns : option Z;
  image : option string;
}.

Record RawTmj : Type := mkRawTmj {
  tmj_height : num;
  tmj_width : num;
  tmj_tileheight : Z;
  tmj_tilewidth : Z;
  tmj_layers : list RawLayer;
  tmj_tilesets : list RawTilesetRef;
  orientation : string;
  renderorder : string;
  infinite : option bool;
  tmj_properties : option (list RawProperty);
}.

Record MapChunk : Type := mkMapChunk {
  chunk_id : string;
  tmj : RawTmj;
  offsetX : Z;
  offsetY : Z;
}.

(** [Record<number, number>] *)
Abbreviation GidRemap := (gmap Z Z).

Global Instance RawTilesetRef_inhabited : Inhabited RawTilesetRef :=
  populate (mkRawTilesetRef 0 None None None None None None None).

(** ** The merge engine ([src/utils/tmjMerge.ts]) *)

Module TmjMerge.

Record Bounds : Type := mkBounds {
  minX : num;
  minY : num;
  maxX : num;
  maxY : num;
  width : num;
  height : num;
}.

(** The four accumulators of [computeBounds] after one more chunk. *)
Definition boundsStep (acc : num * num * num * num) (chunk : MapChunk)
  : num * num * num * num :=
  let '(minX, minY, maxX, maxY) := acc in
  let w := tmj_width (tmj chunk) in
  let h := tmj_height (tmj chunk) in
  let x0 := Fin (offsetX chunk) in
  let y0 := Fin (offsetY chunk) in
  let x1 := Js.add x0 w in
  let y1 := Js.add y0 h in
  (Js.min minX x0, Js.min minY y0, Js.max maxX x1, Js.max maxY y1).

Definition computeBounds (chunks : list MapChunk) : Bounds :=
  let '(minX, minY, maxX, maxY) :=
    foldl boundsStep (PosInf, PosInf, NegInf, NegInf) chunks in
  {| minX := minX; minY := minY; maxX := maxX; maxY := maxY;
     width := Js.sub maxX minX; height := Js.sub maxY minY |}.

(** *** mergeTilesets *)

(** The object that [mergeTilesets] serialises into its deduplication key.
    [JSON.stringify] writes the seven fields in this fixed order, escapes
    strings, prints integers canonically and leaves out a field that is
    [undefined], so two keys are the same string exactly when these records
    are equal; the record stands for the string. *)
Record TilesetKey : Type := mkTilesetKey {
  key_source : option string;
  key_name : option string;
  key_image : option string;
  key_tilewidth : option Z;
  key_tileheight : option Z;
  key_tilecount : option Z;
  key_columns : option Z;
}.

Global Instance TilesetKey_eq_dec : EqDecision TilesetKey.
Proof. solve_decision. Defined.

Global Instance TilesetKey_countable : Countable TilesetKey.
Proof.
  refine (inj_countable'
    (fun k => (key_source k, key_name k, key_image k, key_tilewidth k,
               key_tileheight k, key_tilecount k, key_columns k))
    (fun t => let '(a, b, c, d, e, f, g) := t in mkTilesetKey a b c d e f g)
    _).
  by intros [].
Defined.

(** [s || null] on an optional string: the empty string is falsy. *)
Definition orNull (s : option string) : option string :=
  match s with
  | Some EmptyString => None
  | _ => s
  end.

Definition tilesetKey (ts : RawTilesetRef) : TilesetKey :=
  {| key_source := orNull (source ts);
     key_name := orNull (ts_name ts);
     key_image := orNull (image ts);
     key_tilewidth := tilewidth ts;
     key_tileheight := tileheight ts;
     key_tilecount := tilecount ts;
     key_columns := columns ts |}.

(** [{ ...ts, firstgid: g }] *)
Definition withFirstgid (ts : RawTilesetRef) (g : Z) : RawTilesetRef :=
  {| firstgid := g; source := source ts; ts_name := ts_name ts;
     tilewidth := tilewidth ts; tileheight := tileheight ts;
     tilecount := tilecount ts; columns := columns ts; image := image ts |}.

(** The variables [mergeTilesets] closes over. *)
Record TilesetsState : Type := mkTilesetsState {
  st_globalTilesets : list RawTilesetRef;
  st_gidRemaps : list GidRemap;
  st_tilesetKeyToGlobalIndex : gmap TilesetKey nat;
  st_nextFirstGid : Z;
}.

(** [gidRemaps[mapIndex][oldGid] = newGid].  [mapIndex] is always an index
    of [gidRemaps], which has one entry per chunk. *)
Definition setRemap (mapIndex : nat) (oldGid newGid : Z)
    (gidRemaps : list GidRemap) : list GidRemap :=
  alter (insert oldGid newGid) mapIndex gidRemaps.

(** The body of [for (const ts of chunk.tmj.tilesets)]. *)
Definition tilesetStep (mapIndex : nat) (st : TilesetsState)
    (ts : RawTilesetRef) : TilesetsState :=
  let key := tilesetKey ts in
  let '(globalIndex, st) :=
    match st_tilesetKeyToGlobalIndex st !! key with
    | Some globalIndex => (globalIndex, st)
    | None =>
        let newTs := withFirstgid ts (st_nextFirstGid st) in
        let globalIndex := length (st_globalTilesets st) in
        (globalIndex,
         {| st_globalTilesets := st_globalTilesets st ++ [newTs];
            st_gidRemaps := st_gidRemaps st;
            st_tilesetKeyToGlobalIndex :=
              <[key := globalIndex]> (st_tilesetKeyToGlobalIndex st);
            st_nextFirstGid :=
              st_nextFirstGid st + default 0 (tilecount ts) |})
    end in
  let globalTs := st_globalTilesets st !!! globalIndex in
  let oldFirstGid := firstgid ts in
  let newFirstGid := firstgid globalTs in
  let tileCount := default 0 (tilecount ts) in
  {| st_globalTilesets := st_globalTilesets st;
     st_gidRemaps :=
       foldl (fun remaps local =>
                setRemap mapIndex (oldFirstGid + local) (newFirstGid + local)
                  remaps)
             (st_gidRemaps st) (upto tileCount);
     st_tilesetKeyToGlobalIndex := st_tilesetKeyToGlobalIndex st;
     st_nextFirstGid := st_nextFirstGid st |}.

(** The body of [chunks.forEach((chunk, mapIndex) => ...)]. *)
Definition chunkStep (st : TilesetsState) (entry : nat * MapChunk)
  : TilesetsState :=
  foldl (tilesetStep entry.1) st (tmj_tilesets (tmj entry.2)).

Record MergeTilesetsResult : Type := mkMergeTilesetsResult {
  globalTilesets : list RawTilesetRef;
  gidRemaps : list GidRemap;
}.

(** [chunks] paired with their indices, as [forEach] and the indexed [for]
    loops see them. *)
Definition indexed {A} (l : list A) : list (nat * A) :=
  zip (seq 0 (length l)) l.

Definition mergeTilesetsLoop (chunks : list MapChunk) : TilesetsState :=
  foldl chunkStep
    {| st_globalTilesets := [];
       st_gidRemaps := (fun _ => ∅) <$> chunks;
       st_tilesetKeyToGlobalIndex := ∅;
       st_nextFirstGid := 1 |}
    (indexed chunks).

Definition mergeTilesets (chunks : list MapChunk) : MergeTilesetsResult :=
  let st := mergeTilesetsLoop chunks in
  {| globalTilesets := st_globalTilesets st; gidRemaps := st_gidRemaps st |}.

(** *** mergeTileLayers *)

(** [new Array(n).fill(0)]: a [RangeError] unless [n] is an integer in
    [[0, 2^32 - 1]]. *)
Definition newArrayFill0 (n : num) : result (list Z) :=
  match n with
  | Fin n =>
      if bool_decide (0 <= n < 2 ^ 32)
      then Ok (replicate (Z.to_nat n) 0)
      else Throw (RangeError "Invalid array length")
  | _ => Throw (RangeError "Invalid array length")
  end.

(** [remap[gid] ?? gid], where [remap = gidRemaps[idx]] is [undefined] when
    [gidRemaps] is shorter than [chunks]; the message of the [TypeError]
    names the property that was read. *)
Definition remapGid (remap : option GidRemap) (gid : Z) : result Z :=
  match remap with
  | Some m => Ok (default gid (m !! gid))
  | None =>
      Throw (TypeError ("Cannot read properties of undefined (reading '"
                        +:+ pretty gid +:+ "')"))
  end.

(** [data[destIndex] = newGid].  The bounds test before the write keeps a
    finite [destIndex] inside the allocated grid, so the array never grows;
    a non-finite index would set a property of the array object and leave
    its elements alone. *)
Definition arraySet (data : list Z) (destIndex : num) (newGid : Z)
  : list Z :=
  match destIndex with
  | Fin i => if bool_decide (0 <= i) then <[Z.to_nat i := newGid]> data
             else data
  | _ => data
  end.

(** The body of the two loops over [localY] and [localX]. *)
Definition cellStep (src : RawTileLayer) (remap : option GidRemap)
    (offsetX offsetY : num) (bounds : Bounds)
    (localY : Z) (data : list Z) (localX : Z) : result (list Z) :=
  let srcIndex := localY * tl_width src + localX in
  let oldGid := default 0 (tl_data src !! Z.to_nat srcIndex) in
  if bool_decide (oldGid = 0) then Ok data
  else
    newGid ← remapGid remap oldGid;
    let globalX := Js.add offsetX (Fin localX) in
    let globalY := Js.add offsetY (Fin localY) in
    if Js.ltb globalX (Fin 0) || Js.ltb globalY (Fin 0)
       || Js.geb globalX (width bounds) || Js.geb globalY (height bounds)
    then Ok data
    else
      let destIndex := Js.add (Js.mul globalY (width bounds)) globalX in
      Ok (arraySet data destIndex newGid).

(** The grid written for one source layer, starting from [zeros]. *)
Definition fillLayer (src : RawTileLayer) (remap : option GidRemap)
    (offsetX offsetY : num) (bounds : Bounds) (zeros : list Z)
  : result (list Z) :=
  foldM (fun data localY =>
           foldM (cellStep src remap offsetX offsetY bounds localY)
                 (upto (tl_width src)) data)
        (upto (tl_height src)) zeros.

(** The body of [for (const layer of tmj.layers)] in [mergeTileLayers]; the
    state is [(mergedLayers, nextLayerId)].  [width] and [height] of the
    destination are [bounds.width] and [bounds.height], which are finite
    once the allocation has succeeded. *)
Definition tileLayerStep (bounds : Bounds) (remap : option GidRemap)
    (offsetX offsetY : num) (st : list RawTileLayer * Z) (layer : RawLayer)
  : result (list RawTileLayer * Z) :=
  match layer with
  | TileLayer src =>
      let '(mergedLayers, nextLayerId) := st in
      let rest := tl_base src in
      zeros ← newArrayFill0 (Js.mul (width bounds) (height bounds));
      data ← fillLayer src remap offsetX offsetY bounds zeros;
      let dest :=
        {| tl_base :=
             {| id := nextLayerId; name := name rest;
                opacity := opacity rest; visible := visible rest;
                x := Some 0; y := Some 0; properties := properties rest |};
           tl_width := Js.toZ (width bounds);
           tl_height := Js.toZ (height bounds);
           tl_data := data |} in
      Ok (mergedLayers ++ [dest], nextLayerId + 1)
  | _ => Ok st
  end.

(** The body of [for (let idx = 0; idx < chunks.length; idx++)]. *)
Definition tileChunkStep (bounds : Bounds) (gidRemaps : list GidRemap)
    (st : list RawTileLayer * Z) (entry : nat * MapChunk)
  : result (list RawTileLayer * Z) :=
  let '(idx, chunk) := entry in
  let remap := gidRemaps !! idx in
  let offsetX := Js.sub (Fin (offsetX chunk)) (minX bounds) in
  let offsetY := Js.sub (Fin (offsetY chunk)) (minY bounds) in
  foldM (tileLayerStep bounds remap offsetX offsetY)
        (tmj_layers (tmj chunk)) st.

Definition mergeTileLayers (chunks : list MapChunk) (bounds : Bounds)
    (gidRemaps : list GidRemap) : result (list RawTileLayer) :=
  st ← foldM (tileChunkStep bounds gidRemaps) (indexed chunks) ([], 1);
  Ok st.1.

(** *** mergeObjectGroups *)

(** The body of [for (const obj of src.objects)]; the state is
    [(dest.objects, nextObjectId)]. *)
Definition objectStep (remap : option GidRemap)
    (offsetPixelsX offsetPixelsY : num) (st : list RawObject * Z)
    (obj : RawObject) : result (list RawObject * Z) :=
  let '(objects, nextObjectId) := st in
  gid ← match obj_gid obj with
        | Some g => g' ← remapGid remap g; Ok (Some g')
        | None => Ok None
        end;
  let newObj :=
    {| obj_id := nextObjectId; obj_name := obj_name obj;
       obj_type := obj_type obj;
       obj_x := Js.add (obj_x obj) offsetPixelsX;
       obj_y := Js.add (obj_y obj) offsetPixelsY;
       obj_width := obj_width obj; obj_height := obj_height obj;
       obj_rotation := obj_rotation obj;
       obj_properties := obj_properties obj; obj_gid := gid |} in
  Ok (objects ++ [newObj], nextObjectId + 1).

(** The body of [for (const layer of tmj.layers)] in [mergeObjectGroups];
    the state is [(mergedGroups, nextGroupId, nextObjectId)]. *)
Definition objectGroupStep (remap : option GidRemap)
    (offsetPixelsX offsetPixelsY : num)
    (st : list RawObjectGroup * Z * Z) (layer : RawLayer)
  : result (list RawObjectGroup * Z * Z) :=
  match layer with
  | ObjectGroup src =>
      let '(mergedGroups, nextGroupId, nextObjectId) := st in
      let rest := og_base src in
      '(objects, nextObjectId) ←
        foldM (objectStep remap offsetPixelsX offsetPixelsY)
              (og_objects src) ([], nextObjectId);
      let dest :=
        {| og_base :=
             {| id := nextGroupId; name := name rest;
                opacity := opacity rest; visible := visible rest;
                x := x rest; y := y rest; properties := properties rest |};
           og_objects := objects |} in
      Ok (mergedGroups ++ [dest], nextGroupId + 1, nextObjectId)
  | _ => Ok st
  end.

Definition objectChunkStep (bounds : Bounds) (gidRemaps : list GidRemap)
    (tilewidth tileheight : Z) (st : list RawObjectGroup * Z * Z)
    (entry : nat * MapChunk) : result (list RawObjectGroup * Z * Z) :=
  let '(idx, chunk) := entry in
  let remap := gidRemaps !! idx in
  let offsetTilesX := Js.sub (Fin (offsetX chunk)) (minX bounds) in
  let offsetTilesY := Js.sub (Fin (offsetY chunk)) (minY bounds) in
  let offsetPixelsX := Js.mul offsetTilesX (Fin tilewidth) in
  let offsetPixelsY := Js.mul offsetTilesY (Fin tileheight) in
  foldM (objectGroupStep remap offsetPixelsX offsetPixelsY)
        (tmj_layers (tmj chunk)) st.

Definition mergeObjectGroups (chunks : list MapChunk) (bounds : Bounds)
    (gidRemaps : list GidRemap) (tilewidth tileheight : Z)
  : result (list RawObjectGroup) :=
  st ← foldM (objectChunkStep bounds gidRemaps tilewidth tileheight)
             (indexed chunks) ([], 1, 1);
  Ok st.1.1.

(** *** mergeTmjMaps *)

Definition msgNoMaps : string := "No maps to merge".
Definition msgDimensions : string :=
  "All maps must use same tilewidth/tileheight".
Definition msgInfinite : string :=
  "Infinite maps are not supported in this merger".

(** [c.tmj.infinite] as a condition: [undefined] and [false] are falsy. *)
Definition declaresInfinite (c : MapChunk) : bool :=
  default false (infinite (tmj c)).

(** [c.tmj.tilewidth !== tilewidth || c.tmj.tileheight !== tileheight] *)
Definition dimensionsDiffer (tilewidth tileheight : Z) (c : MapChunk)
  : bool :=
  negb (bool_decide (tmj_tilewidth (tmj c) = tilewidth))
  || negb (bool_decide (tmj_tileheight (tmj c) = tileheight)).

(** The body of the validation loop [for (const c of chunks)]. *)
Definition validateStep (tilewidth tileheight : Z) (_ : unit)
    (c : MapChunk) : result unit :=
  if dimensionsDiffer tilewidth tileheight c
  then Throw (Error msgDimensions)
  else if declaresInfinite c
  then Throw (Error msgInfinite)
  else Ok ().

Definition mergeTmjMaps (chunks : list MapChunk) : result RawTmj :=
  match chunks with
  | [] => Throw (Error msgNoMaps)
  | first :: _ =>
      let tilewidth := tmj_tilewidth (tmj first) in
      let tileheight := tmj_tileheight (tmj first) in
      _ ← foldM (validateStep tilewidth tileheight) chunks ();
      let bounds := computeBounds chunks in
      let merged := mergeTilesets chunks in
      tileLayers ← mergeTileLayers chunks bounds (gidRemaps merged);
      objectGroups ←
        mergeObjectGroups chunks bounds (gidRemaps merged)
          tilewidth tileheight;
      let template := tmj first in
      Ok {| tmj_height := height bounds;
            tmj_width := width bounds;
            tmj_tileheight := tmj_tileheight template;
            tmj_tilewidth := tmj_tilewidth template;
            tmj_layers :=
              (TileLayer <$> tileLayers) ++ (ObjectGroup <$> objectGroups);
            tmj_tilesets := globalTilesets merged;
            orientation := orientation template;
            renderorder := renderorder template;
            infinite := infinite template;
            tmj_properties := tmj_properties template |}
  end.

End TmjMerge.

(** ** The colour engine ([src/utils/colorTools.ts]) *)

Module ColorTools.

Record Color : Type := mkColor {
  r : Z;
  g : Z;
  b : Z;
  a : Z;
}.

Record PaletteChange : Type := mkPaletteChange {
  from : Color;
  to : Color;
}.

Global Instance Color_eq_dec : EqDecision Color.
Proof. solve_decision. Defined.

(** Buffers of [Uint8ClampedArray]s, by location. *)
Abbreviation Store := (gmap positive (list Z)).

Record ImageData : Type := mkImageData {
  data : positive;
  width : Z;
  height : Z;
}.

(** The bytes of an image ([[]] for a location that holds nothing). *)
Definition buffer (σ : Store) (img : ImageData) : list Z :=
  default [] (σ !! data img).

(** [`${c.r},${c.g},${c.b},${c.a}`]: each channel printed with all its
    digits, as JavaScript prints an integer below [2^53] in magnitude (from
    [10^21] on it prints an exponent). *)
Definition colorToKey (c : Color) : string :=
  pretty (r c) +:+ "," +:+ pretty (g c) +:+ "," +:+ pretty (b c)
    +:+ "," +:+ pretty (a c).

(** [ToInt32] on an integer. *)
Definition toInt32 (v : Z) : Z := (v + 2 ^ 31) `mod` 2 ^ 32 - 2 ^ 31.

(** [(v >> 4) & 0x0f] *)
Definition high4 (v : Z) : Z := Z.land (Z.shiftr (toInt32 v) 4) 15.

(** A channel read from the pixel buffer is [undefined] past its end;
    [ToInt32(undefined)] is [0]. *)
Definition quantizeColor (r g b a : option Z) : string :=
  let qr := high4 (default 0 r) in
  let qg := high4 (default 0 g) in
  let qb := high4 (default 0 b) in
  let qa := high4 (default 0 a) in
  pretty qr +:+ "," +:+ pretty qg +:+ "," +:+ pretty qb +:+ "," +:+ pretty qa.

(** [key.split(",")] *)
Fixpoint splitComma (s : string) : list string :=
  match s with
  | EmptyString => [EmptyString]
  | String c s' =>
      if bool_decide (c = ","%char) then EmptyString :: splitComma s'
      else match splitComma s' with
           | [] => [String c EmptyString]
           | w :: ws => String c w :: ws
           end
  end.

Definition digitValue (c : Ascii.ascii) : option Z :=
  let n := Z.of_N (Ascii.N_of_ascii c) in
  if bool_decide (48 <= n <= 57) then Some (n - 48) else None.

(** The longest prefix of decimal digits, read as a number, and whether
    there was a digit at all. *)
Fixpoint parseDigits (s : string) (seen : bool) (acc : Z) : option Z :=
  match s with
  | EmptyString => if seen then Some acc else None
  | String c s' =>
      match digitValue c with
      | Some d => parseDigits s' true (10 * acc + d)
      | None => if seen then Some acc else None
      end
  end.

Definition isSpace (c : Ascii.ascii) : bool :=
  let n := Ascii.N_of_ascii c in
  bool_decide (n = 32 \/ 9 <= n <= 13)%N.

Fixpoint skipSpaces (s : string) : string :=
  match s with
  | String c s' => if isSpace c then skipSpaces s' else s
  | EmptyString => s
  end.

(** [parseInt(v, 10)]; [None] is [NaN]. *)
Definition parseInt10 (v : string) : option Z :=
  match skipSpaces v with
  | String "-" s => Z.opp <$> parseDigits s false 0
  | String "+" s => parseDigits s false 0
  | s => parseDigits s false 0
  end.

(** [(v << 4) | (v & 0x0f)], on what [parseInt] returned for a part of the
    key, or on [undefined] when the key has fewer than four parts; both
    [NaN] and [undefined] convert to [0]. *)
Definition expand (v : option (option Z)) : Z :=
  let v := toInt32 (default 0 (mjoin v)) in
  toInt32 (Z.lor (toInt32 (Z.shiftl v 4)) (Z.land v 15)).

Definition dequantizeColor (key : string) : Color :=
  let parts := parseInt10 <$> splitComma key in
  {| r := expand (parts !! 0%nat);
     g := expand (parts !! 1%nat);
     b := expand (parts !! 2%nat);
     a := expand (parts !! 3%nat) |}.

(** [for (let v = 0; v < limit; v += step) body]: [None] when the fuel runs
    out, which it does for every amount of fuel when [step <= 0 < limit]. *)
Fixpoint forStep {S} (fuel : nat) (v limit step : Z)
    (body : S -> Z -> option S) (s : S) : option S :=
  match fuel with
  | O => None
  | Datatypes.S fuel' =>
      if bool_decide (v < limit)
      then s' ← body s v; forStep fuel' (v + step) limit step body s'
      else Some s
  end.

(** [counts[key] = (counts[key] || 0) + 1] on an object whose keys keep
    their insertion order (none of the keys is an array index). *)
Fixpoint bump (key : string) (counts : list (string * Z))
  : list (string * Z) :=
  match counts with
  | [] => [(key, 0 + 1)]
  | (k, n) :: rest =>
      if bool_decide (k = key) then (k, n + 1) :: rest
      else (k, n) :: bump key rest
  end.

(** The body of the loop over [x]. *)
Definition sampleStepBody (buf : list Z) (width y : Z)
    (counts : list (string * Z)) (x : Z) : option (list (string * Z)) :=
  let idx := (y * width + x) * 4 in
  let r := buf !! Z.to_nat idx in
  let g := buf !! Z.to_nat (idx + 1) in
  let b := buf !! Z.to_nat (idx + 2) in
  let a := buf !! Z.to_nat (idx + 3) in
  if bool_decide (a = Some 0) then Some counts
  else Some (bump (quantizeColor r g b a) counts).

(** [entries.sort((a, b) => b[1] - a[1])].  [Array.prototype.sort] is
    stable, and a stable sort has one result: the one insertion from the
    right computes. *)
Fixpoint insertDesc (e : string * Z) (sorted : list (string * Z))
  : list (string * Z) :=
  match sorted with
  | [] => [e]
  | e' :: rest =>
      if bool_decide (e.2 < e'.2) then e' :: insertDesc e rest
      else e :: e' :: rest
  end.

Definition sortDesc (entries : list (string * Z)) : list (string * Z) :=
  foldr insertDesc [] entries.

(** [entries.slice(0, end)]: a negative [end] counts from the back. *)
Definition slice0 {A} (end_ : Z) (entries : list A) : list A :=
  let len := Z.of_nat (length entries) in
  let stop := if bool_decide (end_ < 0) then Z.max 0 (len + end_)
              else end_ in
  take (Z.to_nat stop) entries.

Definition extractDominantColors (fuel : nat) (σ : Store)
    (imageData : ImageData) (maxColors sampleStep : Z)
  : option (list Color) :=
  let buf := buffer σ imageData in
  let width := width imageData in
  let height := height imageData in
  counts ←
    forStep fuel 0 height sampleStep
      (fun counts y =>
         forStep fuel 0 width sampleStep (sampleStepBody buf width y) counts)
      [];
  let entries := sortDesc counts in
  let topKeys := (slice0 maxColors entries).*1 in
  Some (dequantizeColor <$> topKeys).

Definition colorDistanceSq (c1 c2 : Color) : Z :=
  let dr := r c1 - r c2 in
  let dg := g c1 - g c2 in
  let db := b c1 - b c2 in
  let da := a c1 - a c2 in
  dr * dr + dg * dg + db * db + da * da.

(** What a [Uint8ClampedArray] stores when an integer is written to it. *)
Definition clamp8 (v : Z) : Z := Z.max 0 (Z.min 255 v).

(** [fromKeys.indexOf(key)]; [None] is [-1]. *)
Fixpoint indexOf (key : string) (keys : list string) : option nat :=
  match keys with
  | [] => None
  | k :: keys' =>
      if bool_decide (k = key) then Some 0%nat
      else Datatypes.S <$> indexOf key keys'
  end.

(** The loop over [j] in tolerance mode; the state is
    [(bestIdx, bestDist)], with [None] for the initial [-1]. *)
Definition nearestStep (pixelColor : Color)
    (st : option nat * num) (entry : nat * PaletteChange)
  : option nat * num :=
  let '(j, change) := entry in
  let dist := colorDistanceSq pixelColor (from change) in
  if Js.ltb (Fin dist) st.2 then (Some j, Fin dist) else st.

Definition indexed {A} (l : list A) : list (nat * A) :=
  zip (seq 0 (length l)) l.

(** The value of [replacement] for one non-transparent pixel. *)
Definition findReplacement (changes : list PaletteChange)
    (fromKeys : list string) (useTolerance : bool) (toleranceSq : Z)
    (pixelColor : Color) : option Color :=
  if useTolerance then
    let '(bestIdx, bestDist) :=
      foldl (nearestStep pixelColor) (None, PosInf) (indexed changes) in
    match bestIdx with
    | Some bestIdx =>
        if Js.geb (Fin toleranceSq) bestDist
        then to <$> changes !! bestIdx
        else None
    | None => None
    end
  else
    let key := colorToKey pixelColor in
    match indexOf key fromKeys with
    | Some idx => to <$> changes !! idx
    | None => None
    end.

(** The body of [for (let i = 0; i < data.length; i += 4)], on the store:
    it reads and writes the buffer at location [data].  A last pixel cut
    short by the end of the buffer has [a === undefined] and matches no
    change. *)
Definition pixelStep (data : positive) (changes : list PaletteChange)
    (fromKeys : list string) (useTolerance : bool) (toleranceSq : Z)
    (σ : Store) (i : Z) : Store :=
  let buf := default [] (σ !! data) in
  let i := Z.to_nat i in
  match buf !! i, buf !! (i + 1)%nat, buf !! (i + 2)%nat,
        buf !! (i + 3)%nat with
  | Some r, Some g, Some b, Some a =>
      if bool_decide (a = 0) then σ
      else
        let pixelColor := {| r := r; g := g; b := b; a := a |} in
        match findReplacement changes fromKeys useTolerance toleranceSq
                pixelColor with
        | Some replacement =>
            <[data :=
                <[(i + 3)%nat := clamp8 (ColorTools.a replacement)]>
                 (<[(i + 2)%nat := clamp8 (ColorTools.b replacement)]>
                  (<[(i + 1)%nat := clamp8 (ColorTools.g replacement)]>
                   (<[i := clamp8 (ColorTools.r replacement)]> buf)))]> σ
        | None => σ
        end
  | _, _, _, _ => σ
  end.

(** The offsets [0, 4, 8, ...] below [len]. *)
Definition pixelOffsets (len : nat) : list Z :=
  (fun k => 4 * k) <$> upto ((Z.of_nat len + 3) `div` 4).

(** Returns the store after the call and the image it allocated.
    [new Uint8ClampedArray(baseImageData.data)] copies the bytes to a
    location the store does not use yet. *)
Definition applyColorMappingsToImageData (σ : Store)
    (baseImageData : ImageData) (changes : list PaletteChange)
    (useTolerance : bool) (toleranceSq : Z) : Store * ImageData :=
  let copy := fresh (dom σ) in
  let σ := <[copy := buffer σ baseImageData]> σ in
  let out := {| data := copy; width := width baseImageData;
                height := height baseImageData |} in
  let data := data out in
  let fromKeys := (fun c => colorToKey (from c)) <$> changes in
  let σ :=
    foldl (pixelStep data changes fromKeys useTolerance toleranceSq) σ
          (pixelOffsets (length (buffer σ out))) in
  (σ, out).

(** *** colorToHex and hexToColor *)

(** In these two functions a [string] is the sequence of the UTF-16 code
    units of the JavaScript string, each below 256: all that [colorToHex]
    writes and a colour input sends. *)

Definition hexDigit (d : Z) : Ascii.ascii :=
  Ascii.ascii_of_N (Z.to_N (if bool_decide (d < 10) then 48 + d else 87 + d)).

(** The digits of [n > 0] in base 16, most significant first, in front of
    [acc]. *)
Fixpoint hexDigits (fuel : nat) (n : Z) (acc : string) : string :=
  match fuel with
  | O => acc
  | Datatypes.S fuel' =>
      let acc' := String (hexDigit (n `mod` 16)) acc in
      if bool_decide (n `div` 16 = 0) then acc'
      else hexDigits fuel' (n `div` 16) acc'
  end.

(** [n.toString(16)] on an integer; [Z.log2 n + 1] bounds the number of
    digits. *)
Definition toString16 (n : Z) : string :=
  let digits m := hexDigits (Datatypes.S (Z.to_nat (Z.log2 m))) m "" in
  if bool_decide (n < 0) then String "-" (digits (- n)) else digits n.

Fixpoint repeatChar (n : nat) (c : Ascii.ascii) : string :=
  match n with
  | O => ""
  | Datatypes.S n' => String c (repeatChar n' c)
  end.

(** [s.padStart(targetLength, fill)] for a [fill] of one code unit. *)
Definition padStart (targetLength : nat) (fill : Ascii.ascii) (s : string)
  : string :=
  repeatChar (targetLength - String.length s) fill +:+ s.

Definition toHex (n : Z) : string := padStart 2 "0" (toString16 n).

Definition colorToHex (c : Color) : string :=
  "#" +:+ toHex (r c) +:+ toHex (g c) +:+ toHex (b c).

(** The code units below 256 that [trim] and [parseInt] skip: tab, line
    feed, vertical tab, form feed, carriage return, space and no-break
    space. *)
Definition isWhiteSpace (c : Ascii.ascii) : bool :=
  let n := Ascii.N_of_ascii c in
  bool_decide (9 <= n <= 13 \/ n = 32 \/ n = 160)%N.

Fixpoint trimStart (s : string) : string :=
  match s with
  | String c s' => if isWhiteSpace c then trimStart s' else s
  | EmptyString => s
  end.

Fixpoint trimEnd (s : string) : string :=
  match s with
  | EmptyString => EmptyString
  | String c s' =>
      match trimEnd s' with
      | EmptyString => if isWhiteSpace c then EmptyString
                       else String c EmptyString
      | t => String c t
      end
  end.

Definition trim (s : string) : string := trimEnd (trimStart s).

Definition hexValue (c : Ascii.ascii) : option Z :=
  let n := Z.of_N (Ascii.N_of_ascii c) in
  if bool_decide (48 <= n <= 57) then Some (n - 48)
  else if bool_decide (97 <= n <= 102) then Some (n - 87)
  else if bool_decide (65 <= n <= 70) then Some (n - 55)
  else None.

(** The longest prefix of hexadecimal digits, read as a number; [None]
    when there is no digit. *)
Fixpoint parseHexDigits (s : string) (seen : bool) (acc : Z) : option Z :=
  match s with
  | EmptyString => if seen then Some acc else None
  | String c s' =>
      match hexValue c with
      | Some d => parseHexDigits s' true (16 * acc + d)
      | None => if seen then Some acc else None
      end
  end.

(** [parseInt(v, 16)]: white space, a sign, [0x] or [0X], then digits;
    [None] is [NaN]. *)
Definition parseInt16 (v : string) : option Z :=
  let s := trimStart v in
  let '(sign, s) :=
    match s with
    | String "-" s' => (-1, s')
    | String "+" s' => (1, s')
    | _ => (1, s)
    end in
  let s :=
    match s with
    | String "0" (String "x" s') | String "0" (String "X" s') => s'
    | _ => s
    end in
  (fun n => sign * n) <$> parseHexDigits s false 0.

(** The [Color] that [hexToColor] returns: a channel is [None] when
    [parseInt] gave [NaN]. *)
Record HexColor : Type := mkHexColor {
  hex_r : option Z;
  hex_g : option Z;
  hex_b : option Z;
  hex_a : Z;
}.

(** [hexToColor(hex, alpha = 255)]; [alpha] is [None] when the caller
    leaves it out. *)
Definition hexToColor (hex : string) (alpha : option Z) : HexColor :=
  let alpha := default 255 alpha in
  let h := trim hex in
  let h := match h with String "#" h' => h' | _ => h end in
  match h with
  | String h0 (String h1 (String h2 EmptyString)) =>
      {| hex_r := parseInt16 (String h0 (String h0 EmptyString));
         hex_g := parseInt16 (String h1 (String h1 EmptyString));
         hex_b := parseInt16 (String h2 (String h2 EmptyString));
         hex_a := alpha |}
  | _ =>
      if bool_decide (6 <= String.length h)%nat then
        {| hex_r := parseInt16 (substring 0 2 h);
           hex_g := parseInt16 (substring 2 2 h);
           hex_b := parseInt16 (substring 4 2 h);
           hex_a := alpha |}
      else {| hex_r := Some 0; hex_g := Some 0; hex_b := Some 0;
              hex_a := alpha |}
  end.

End ColorTools.

(** * Lists without repetition, in first-seen order *)

Module FirstSeen.
Section FirstSeen.
Context {A K : Type} `{EqDecision K} (key : A -> K).

(** The elements whose key is not in [seen] and has not come before
    them. *)
Fixpoint firstSeen (seen : list K) (l : list A) : list A :=
  match l with
  | [] => []
  | x :: l' =>
      if decide (key x ∈ seen) then firstSeen seen l'
      else x :: firstSeen (key x :: seen) l'
  end.

Lemma firstSeen_keys seen l k :
  k ∈ key <$> firstSeen seen l
  <-> k ∈ key <$> l /\ k ∉ seen.
Proof.
  revert seen. induction l as [|x l IH]; intros seen; cbn.
  - rewrite elem_of_nil. tauto.
  - case_decide as Hseen; cbn; rewrite ?elem_of_cons, IH, ?elem_of_cons.
    + split; [tauto|]. intros [[->|?] ?]; tauto.
    + destruct (decide (k = key x)) as [->|]; tauto.
Qed.

Lemma firstSeen_snoc seen l x :
  firstSeen seen (l ++ [x])
  = firstSeen seen l
    ++ (if decide (key x ∈ seen ++ (key <$> l)) then []
        else [x]).
Proof.
  revert seen. induction l as [|t l IH]; intros seen; cbn.
  - rewrite app_nil_r. by case_decide.
  - case_decide as Hseen; rewrite IH; cbn.
    + f_equal. apply decide_ext. rewrite !elem_of_app, elem_of_cons.
      split; [tauto|]. intros [?|[->|?]]; tauto.
    + f_equal. f_equal. apply decide_ext.
      repeat (rewrite elem_of_cons || rewrite elem_of_app). tauto.
Qed.

Lemma firstSeen_NoDup seen l :
  NoDup (key <$> firstSeen seen l).
Proof.
  revert seen. induction l as [|x l IH]; intros seen; cbn.
  - constructor.
  - case_decide; [apply IH|]. cbn. constructor; [|apply IH].
    rewrite firstSeen_keys, elem_of_cons. tauto.
Qed.

(** An element of [firstSeen] is the first of its key. *)
Lemma firstSeen_lookup seen l i t :
  firstSeen seen l !! i = Some t ->
  (key t ∉ seen)
  /\ exists a, list_find (fun x => key x = key t) l = Some (a, t).
Proof.
  revert seen i. induction l as [|h l IH]; intros seen i; cbn; [done|].
  case_decide as Hh.
  - intros (Ht & a & Ha)%IH. split; [done|]. exists (Datatypes.S a).
    rewrite decide_False by (intros E; by rewrite E in Hh). by rewrite Ha.
  - destruct i as [|i]; cbn.
    + intros [= <-]. split; [done|]. exists 0%nat. by rewrite decide_True.
    + intros (Ht & a & Ha)%IH. apply not_elem_of_cons in Ht as [Hne Ht].
      split; [done|]. exists (Datatypes.S a).
      rewrite decide_False by done. by rewrite Ha.
Qed.

(** [firstSeen] lists the keys in the order of their first
    occurrences. *)
Lemma firstSeen_order seen l i j ti tj :
  (i < j)%nat ->
  firstSeen seen l !! i = Some ti ->
  firstSeen seen l !! j = Some tj ->
  exists a b, (a < b)%nat
    /\ list_find (fun x => key x = key ti) l = Some (a, ti)
    /\ list_find (fun x => key x = key tj) l = Some (b, tj).
Proof.
  revert seen i j. induction l as [|h l IH]; intros seen i j Hij; cbn;
    [done|].
  case_decide as Hh.
  - intros Hi Hj. destruct (IH _ _ _ Hij Hi Hj) as (a & b & Hab & Ha & Hb).
    apply firstSeen_lookup in Hi as [Hti _].
    apply firstSeen_lookup in Hj as [Htj _].
    exists (Datatypes.S a), (Datatypes.S b). split; [lia|].
    rewrite !decide_False by (intros E; by rewrite E in Hh).
    by rewrite Ha, Hb.
  - destruct j as [|j]; [lia|]. cbn. destruct i as [|i]; cbn.
    + intros [= <-] (Htj & b & Hb)%firstSeen_lookup.
      apply not_elem_of_cons in Htj as [Hne _].
      exists 0%nat, (Datatypes.S b). split; [lia|].
      rewrite decide_True by done. rewrite decide_False by done.
      by rewrite Hb.
    + intros Hi Hj.
      destruct (IH _ i j ltac:(lia) Hi Hj) as (a & b & Hab & Ha & Hb).
      apply firstSeen_lookup in Hi as [[Hti _]%not_elem_of_cons _].
      apply firstSeen_lookup in Hj as [[Htj _]%not_elem_of_cons _].
      exists (Datatypes.S a), (Datatypes.S b). split; [lia|].
      rewrite !decide_False by done. by rewrite Ha, Hb.
Qed.

End FirstSeen.
End FirstSeen.

(** * Sample documents *)

Module Samples.
Import TmjMerge.

Definition layerBase (i : Z) (n : string) : RawLayerBase :=
  {| id := i; name := n; opacity := Some 1; visible := Some true;
     x := Some 0; y := Some 0; properties := None |}.

Definition terrain (first : Z) : RawTilesetRef :=
  {| firstgid := first; source := None; ts_name := Some "terrain";
     tilewidth := Some 16; tileheight := Some 16; tilecount := Some 4;
     columns := Some 2; image := Some "terrain.png" |}.

Definition props (first : Z) : RawTilesetRef :=
  {| firstgid := first; source := None; ts_name := Some "props";
     tilewidth := Some 16; tileheight := Some 16; tilecount := Some 2;
     columns := Some 2; image := Some "props.png" |}.

Definition ground (cells : list Z) : RawTileLayer :=
  {| tl_base := layerBase 7 "ground"; tl_width := 4; tl_height := 4;
     tl_data := cells |}.

Definition marker (gid : option Z) : RawObject :=
  {| obj_id := 9; obj_name := "spawn"; obj_type := "";
     obj_x := Fin 8; obj_y := Fin 24; obj_width := None; obj_height := None;
     obj_rotation := None; obj_properties := None; obj_gid := gid |}.

Definition document (layers : list RawLayer) (tilesets : list RawTilesetRef)
    (tile : Z) (inf : option bool) : RawTmj :=
  {| tmj_height := Fin 4; tmj_width := Fin 4; tmj_tileheight := tile;
     tmj_tilewidth := tile; tmj_layers := layers; tmj_tilesets := tilesets;
     orientation := "orthogonal"; renderorder := "right-down";
     infinite := inf; tmj_properties := None |}.

(** A 4x4 map at the origin with one tileset, one tile layer and one object
    group. *)
Definition chunkA : MapChunk :=
  {| chunk_id := "a";
     tmj := document
              [TileLayer (ground [1; 2; 0; 0; 3; 4; 0; 0;
                                  0; 0; 0; 0; 0; 0; 0; 1]);
               ObjectGroup {| og_base := layerBase 8 "objects";
                              og_objects := [marker None; marker (Some 2)] |}]
              [terrain 1] 16 None;
     offsetX := 0; offsetY := 0 |}.

(** A 4x4 map four tiles to the right, overlapping nothing, whose copy of
    the terrain tileset comes after another tileset. *)
Definition chunkB : MapChunk :=
  {| chunk_id := "b";
     tmj := document
              [ImageLayer (layerBase 3 "backdrop") (Some "sky.png");
               TileLayer (ground [3; 4; 0; 0; 5; 6; 0; 0;
                                  1; 0; 0; 0; 0; 0; 0; 2]);
               ObjectGroup {| og_base := layerBase 5 "objects";
                              og_objects := [marker (Some 3)] |}]
              [props 1; terrain 3] 16 (Some false);
     offsetX := 4; offsetY := 0 |}.

(** A map with another tile size that also declares [infinite]. *)
Definition chunkWide : MapChunk :=
  {| chunk_id := "wide"; tmj := document [] [] 32 (Some true);
     offsetX := 0; offsetY := 4 |}.

(** A map of the common tile size that declares [infinite]. *)
Definition chunkInfinite : MapChunk :=
  {| chunk_id := "inf"; tmj := document [] [] 16 (Some true);
     offsetX := 0; offsetY := 4 |}.

(** A tileset without a name, and the same tileset with an empty name. *)
Definition unnamed (first : Z) : RawTilesetRef :=
  {| firstgid := first; source := None; ts_name := None;
     tilewidth := Some 16; tileheight := Some 16; tilecount := Some 4;
     columns := Some 2; image := Some "terrain.png" |}.

Definition blankName (first : Z) : RawTilesetRef :=
  {| firstgid := first; source := None; ts_name := Some "";
     tilewidth := Some 16; tileheight := Some 16; tilecount := Some 4;
     columns := Some 2; image := Some "terrain.png" |}.

Definition chunkUnnamed : MapChunk :=
  {| chunk_id := "u"; tmj := document [] [unnamed 1] 16 None;
     offsetX := 0; offsetY := 0 |}.

Definition chunkBlankName : MapChunk :=
  {| chunk_id := "v"; tmj := document [] [blankName 1] 16 None;
     offsetX := 4; offsetY := 0 |}.

(** A map whose first tileset declares a negative [tilecount], so that the
    counter is 0 when the second tileset is registered. *)
Definition shrinking : RawTilesetRef :=
  {| firstgid := 1; source := None; ts_name := Some "shrinking";
     tilewidth := Some 16; tileheight := Some 16; tilecount := Some (-1);
     columns := Some 2; image := Some "shrinking.png" |}.

Definition chunkShrunk : MapChunk :=
  {| chunk_id := "s";
     tmj := document
              [TileLayer (ground [1; 2; 0; 0; 0; 0; 0; 0;
                                  0; 0; 0; 0; 0; 0; 0; 0])]
              [shrinking; terrain 1] 16 None;
     offsetX := 0; offsetY := 0 |}.

(** A map whose two tilesets both claim the GIDs 3 and 4. *)
Definition chunkOverlap : MapChunk :=
  {| chunk_id := "o";
     tmj := document
              [TileLayer (ground [3; 0; 0; 0; 0; 0; 0; 0;
                                  0; 0; 0; 0; 0; 0; 0; 0])]
              [terrain 1; props 3] 16 None;
     offsetX := 0; offsetY := 0 |}.

End Samples.

(** * Properties of the merge engine *)

Module TmjMergeSpec.
Import TmjMerge.

(** ** Bounds *)

(** A chunk whose document has integer [width] and [height]. *)
Definition finiteChunk (c : MapChunk) : bool :=
  Js.isFin (tmj_width (tmj c)) && Js.isFin (tmj_height (tmj c)).

Definition chunkWidth (c : MapChunk) : Z := Js.toZ (tmj_width (tmj c)).
Definition chunkHeight (c : MapChunk) : Z := Js.toZ (tmj_height (tmj c)).

(** [lo] is the least and [hi] the greatest value [f] takes on [chunks]. *)
Definition isMinOf (f : MapChunk -> Z) (chunks : list MapChunk) (lo : Z)
  : Prop :=
  (forall c, c ∈ chunks -> lo <= f c) /\ (exists c, c ∈ chunks /\ lo = f c).

Definition isMaxOf (f : MapChunk -> Z) (chunks : list MapChunk) (hi : Z)
  : Prop :=
  (forall c, c ∈ chunks -> f c <= hi) /\ (exists c, c ∈ chunks /\ hi = f c).

Definition chunkX1 (c : MapChunk) : Z := offsetX c + chunkWidth c.
Definition chunkY1 (c : MapChunk) : Z := offsetY c + chunkHeight c.

Lemma boundsStep_finite a b c d chunk :
  finiteChunk chunk = true ->
  boundsStep (Fin a, Fin b, Fin c, Fin d) chunk
  = (Fin (Z.min a (offsetX chunk)), Fin (Z.min b (offsetY chunk)),
     Fin (Z.max c (chunkX1 chunk)), Fin (Z.max d (chunkY1 chunk))).
Proof.
  unfold finiteChunk, chunkX1, chunkY1, chunkWidth, chunkHeight, boundsStep.
  destruct (tmj_width (tmj chunk)), (tmj_height (tmj chunk)); try done.
Qed.

Lemma isMinOf_cons f c cs lo :
  isMinOf f cs lo -> isMinOf f (c :: cs) (Z.min (f c) lo).
Proof.
  intros [Hle [c' [Hin Heq]]]. split.
  - intros d [->|Hd]%elem_of_cons; [lia|]. specialize (Hle d Hd). lia.
  - destruct (Z.min_spec (f c) lo) as [[_ ->]|[_ ->]].
    + exists c. split; [left|done].
    + exists c'. split; [by right|done].
Qed.

Lemma isMaxOf_cons f c cs hi :
  isMaxOf f cs hi -> isMaxOf f (c :: cs) (Z.max (f c) hi).
Proof.
  intros [Hle [c' [Hin Heq]]]. split.
  - intros d [->|Hd]%elem_of_cons; [lia|]. specialize (Hle d Hd). lia.
  - destruct (Z.max_spec (f c) hi) as [[_ ->]|[_ ->]].
    + exists c'. split; [by right|done].
    + exists c. split; [left|done].
Qed.

Lemma isMinOf_singleton f c : isMinOf f [c] (f c).
Proof.
  split.
  - intros d ->%list_elem_of_singleton. lia.
  - exists c. split; [left|done].
Qed.

Lemma isMaxOf_singleton f c : isMaxOf f [c] (f c).
Proof.
  split.
  - intros d ->%list_elem_of_singleton. lia.
  - exists c. split; [left|done].
Qed.

(** The accumulators after a non-empty prefix, extended by more chunks. *)
Lemma boundsLoop_finite done_ rest a b c d :
  Forall (fun ch => finiteChunk ch = true) rest ->
  isMinOf offsetX done_ a -> isMinOf offsetY done_ b ->
  isMaxOf chunkX1 done_ c -> isMaxOf chunkY1 done_ d ->
  exists a' b' c' d',
    foldl boundsStep (Fin a, Fin b, Fin c, Fin d) rest
    = (Fin a', Fin b', Fin c', Fin d')
    /\ isMinOf offsetX (reverse rest ++ done_) a'
    /\ isMinOf offsetY (reverse rest ++ done_) b'
    /\ isMaxOf chunkX1 (reverse rest ++ done_) c'
    /\ isMaxOf chunkY1 (reverse rest ++ done_) d'.
Proof.
  intros Hfin. revert done_ a b c d.
  induction Hfin as [|ch rest Hch _ IH]; intros done_ a b c d Ha Hb Hc Hd.
  - by exists a, b, c, d.
  - cbn [foldl]. rewrite boundsStep_finite by done.
    destruct (IH (ch :: done_) (Z.min a (offsetX ch)) (Z.min b (offsetY ch))
                (Z.max c (chunkX1 ch)) (Z.max d (chunkY1 ch)))
      as (a' & b' & c' & d' & Heq & Ha' & Hb' & Hc' & Hd').
    + rewrite Z.min_comm. by apply isMinOf_cons.
    + rewrite Z.min_comm. by apply isMinOf_cons.
    + rewrite Z.max_comm. by apply isMaxOf_cons.
    + rewrite Z.max_comm. by apply isMaxOf_cons.
    + exists a', b', c', d'. rewrite reverse_cons, <- !app_assoc. done.
Qed.

Lemma isMinOf_perm f l1 l2 lo :
  (forall c, c ∈ l1 <-> c ∈ l2) -> isMinOf f l1 lo -> isMinOf f l2 lo.
Proof.
  intros Hp [Hle [c [Hin Heq]]]. split.
  - intros d Hd. apply Hle, Hp, Hd.
  - exists c. split; [by apply Hp|done].
Qed.

Lemma isMaxOf_perm f l1 l2 hi :
  (forall c, c ∈ l1 <-> c ∈ l2) -> isMaxOf f l1 hi -> isMaxOf f l2 hi.
Proof.
  intros Hp [Hle [c [Hin Heq]]]. split.
  - intros d Hd. apply Hle, Hp, Hd.
  - exists c. split; [by apply Hp|done].
Qed.

(** The bounds of a non-empty list of chunks with integer dimensions. *)
Lemma computeBounds_finite chunks :
  chunks <> [] ->
  Forall (fun c => finiteChunk c = true) chunks ->
  exists x0 y0 x1 y1,
    computeBounds chunks
    = {| minX := Fin x0; minY := Fin y0; maxX := Fin x1; maxY := Fin y1;
         width := Fin (x1 - x0); height := Fin (y1 - y0) |}
    /\ isMinOf offsetX chunks x0 /\ isMinOf offsetY chunks y0
    /\ isMaxOf chunkX1 chunks x1 /\ isMaxOf chunkY1 chunks y1.
Proof.
  destruct chunks as [|c rest]; [done|]. intros _ Hfin.
  apply Forall_cons in Hfin as [Hc Hrest].
  destruct (boundsLoop_finite [c] rest (offsetX c) (offsetY c)
              (chunkX1 c) (chunkY1 c) Hrest)
    as (x0 & y0 & x1 & y1 & Heq & H0 & H1 & H2 & H3);
    try apply isMinOf_singleton; try apply isMaxOf_singleton.
  exists x0, y0, x1, y1.
  assert (Hperm : forall d, d ∈ reverse rest ++ [c] <-> d ∈ c :: rest).
  { intros d. rewrite elem_of_app, !elem_of_cons, elem_of_reverse.
    pose proof (not_elem_of_nil d). tauto. }
  split; [|by eauto 10 using isMinOf_perm, isMaxOf_perm].
  unfold computeBounds. cbn [foldl].
  assert (Hfirst : boundsStep (PosInf, PosInf, NegInf, NegInf) c
                   = (Fin (offsetX c), Fin (offsetY c),
                      Fin (chunkX1 c), Fin (chunkY1 c))).
  { revert Hc.
    unfold finiteChunk, chunkX1, chunkY1, chunkWidth, chunkHeight, boundsStep.
    by destruct (tmj_width (tmj c)), (tmj_height (tmj c)). }
  rewrite Hfirst, Heq. cbn. do 2 f_equal; f_equal; lia.
Qed.

(** ** The tileset registry *)

(** Every tileset occurrence, chunk after chunk, in listed order. *)
Definition allTilesets (chunks : list MapChunk) : list RawTilesetRef :=
  chunks ≫= fun c => tmj_tilesets (tmj c).

(** The occurrences whose identity has not been seen before them. *)
Definition firstOccurrences : list TilesetKey -> list RawTilesetRef ->
    list RawTilesetRef :=
  FirstSeen.firstSeen tilesetKey.

(** A counter that starts at [g] and advances by each tileset's
    [tilecount] labels the tilesets with their [firstgid]. *)
Fixpoint assignFirstGids (g : Z) (l : list RawTilesetRef)
  : list RawTilesetRef :=
  match l with
  | [] => []
  | ts :: l' =>
      withFirstgid ts g :: assignFirstGids (g + default 0 (tilecount ts)) l'
  end.

Fixpoint sumTilecounts (l : list RawTilesetRef) : Z :=
  match l with
  | [] => 0
  | ts :: l' => default 0 (tilecount ts) + sumTilecounts l'
  end.

(** The global tileset registered for an identity, with its index. *)
Definition findGlobal (globals : list RawTilesetRef) (k : TilesetKey)
  : option (nat * RawTilesetRef) :=
  list_find (fun G => tilesetKey G = k) globals.

(** [gid] lies in the GID range [[firstgid, firstgid + tilecount)]. *)
Definition covers (gid : Z) (ts : RawTilesetRef) : Prop :=
  firstgid ts <= gid < firstgid ts + default 0 (tilecount ts).

Global Instance covers_dec gid ts : Decision (covers gid ts).
Proof. unfold covers. apply _. Defined.

(** The tileset of a document a GID belongs to: the one whose range holds
    it (the last listed one, should several ranges hold it; ranges of a
    well-formed document are disjoint). *)
Definition sourceTileset (tilesets : list RawTilesetRef) (gid : Z)
  : option RawTilesetRef :=
  last (filter (covers gid) tilesets).

(** What the remap of a chunk with these tilesets holds for [gid]. *)
Definition remapEntry (globals tilesets : list RawTilesetRef) (gid : Z)
  : option Z :=
  ts ← sourceTileset tilesets gid;
  G ← findGlobal globals (tilesetKey ts);
  Some (firstgid G.2 + (gid - firstgid ts)).

(** [for (local ...)] on one remap. *)
Definition writeRange (oldFirstGid newFirstGid : Z) (locals : list Z)
    (m : GidRemap) : GidRemap :=
  foldl (fun m local => <[oldFirstGid + local := newFirstGid + local]> m)
        m locals.

Lemma tilesetKey_withFirstgid ts g :
  tilesetKey (withFirstgid ts g) = tilesetKey ts.
Proof. done. Qed.

Lemma tilecount_withFirstgid ts g :
  tilecount (withFirstgid ts g) = tilecount ts.
Proof. done. Qed.

Lemma assignFirstGids_keys g l :
  tilesetKey <$> assignFirstGids g l = tilesetKey <$> l.
Proof. revert g. induction l as [|ts l IH]; intros g; [done|]. cbn. by rewrite IH. Qed.

Lemma assignFirstGids_app g l1 l2 :
  assignFirstGids g (l1 ++ l2)
  = assignFirstGids g l1 ++ assignFirstGids (g + sumTilecounts l1) l2.
Proof.
  revert g. induction l1 as [|ts l1 IH]; intros g; cbn.
  - by rewrite Z.add_0_r.
  - rewrite IH. do 3 f_equal. lia.
Qed.

Lemma sumTilecounts_assign g l :
  sumTilecounts (assignFirstGids g l) = sumTilecounts l.
Proof. revert g. induction l as [|ts l IH]; intros g; [done|]. cbn. by rewrite IH. Qed.

Lemma sumTilecounts_app l1 l2 :
  sumTilecounts (l1 ++ l2) = sumTilecounts l1 + sumTilecounts l2.
Proof. induction l1 as [|ts l1 IH]; cbn; lia. Qed.

Lemma firstOccurrences_keys seen l k :
  k ∈ tilesetKey <$> firstOccurrences seen l
  <-> k ∈ tilesetKey <$> l /\ k ∉ seen.
Proof. apply FirstSeen.firstSeen_keys. Qed.

Lemma firstOccurrences_snoc seen l ts :
  firstOccurrences seen (l ++ [ts])
  = firstOccurrences seen l
    ++ (if decide (tilesetKey ts ∈ seen ++ (tilesetKey <$> l)) then []
        else [ts]).
Proof. apply FirstSeen.firstSeen_snoc. Qed.

Lemma firstOccurrences_NoDup seen l :
  NoDup (tilesetKey <$> firstOccurrences seen l).
Proof. apply FirstSeen.firstSeen_NoDup. Qed.

(** An element of [firstOccurrences] is the first of its identity. *)
Lemma firstOccurrences_lookup seen l i t :
  firstOccurrences seen l !! i = Some t ->
  (tilesetKey t ∉ seen)
  /\ exists a, list_find (fun x => tilesetKey x = tilesetKey t) l = Some (a, t).
Proof. apply FirstSeen.firstSeen_lookup. Qed.

(** [firstOccurrences] lists the identities in the order of their first
    occurrences. *)
Lemma firstOccurrences_order seen l i j ti tj :
  (i < j)%nat ->
  firstOccurrences seen l !! i = Some ti ->
  firstOccurrences seen l !! j = Some tj ->
  exists a b, (a < b)%nat
    /\ list_find (fun x => tilesetKey x = tilesetKey ti) l = Some (a, ti)
    /\ list_find (fun x => tilesetKey x = tilesetKey tj) l = Some (b, tj).
Proof. apply FirstSeen.firstSeen_order. Qed.

Lemma setRemap_loop i o n locals remaps :
  foldl (fun remaps local => setRemap i (o + local) (n + local) remaps)
        remaps locals
  = alter (writeRange o n locals) i remaps.
Proof.
  revert remaps. induction locals as [|l locals IH]; intros remaps; cbn.
  - symmetry. by apply list_alter_id.
  - rewrite IH. unfold setRemap. by rewrite list_alter_alter_eq.
Qed.

Lemma lookup_writeRange o n locals m gid :
  writeRange o n locals m !! gid
  = if decide (gid - o ∈ locals) then Some (n + (gid - o)) else m !! gid.
Proof.
  revert m. induction locals as [|l locals IH]; intros m; cbn.
  - by rewrite decide_False by apply not_elem_of_nil.
  - fold (writeRange o n locals (<[o + l := n + l]> m)). rewrite IH.
    destruct (decide (gid - o ∈ locals)) as [Hin|Hin].
    + rewrite decide_True; [done|by right].
    + destruct (decide (gid = o + l)) as [->|Hne].
      * rewrite lookup_insert_eq, decide_True; [f_equal; lia|].
        replace (o + l - o) with l by lia. left.
      * rewrite lookup_insert_ne by done. rewrite decide_False; [done|].
        intros [?|?]%elem_of_cons; [lia|done].
Qed.

Lemma lookup_writeRange_upto o n tc m gid :
  writeRange o n (upto tc) m !! gid
  = if decide (o <= gid < o + tc) then Some (n + (gid - o)) else m !! gid.
Proof.
  rewrite lookup_writeRange. apply decide_ext.
  unfold upto. rewrite elem_of_seqZ. lia.
Qed.

(** What the loop of [mergeTilesets] maintains, [seen] being the tileset
    occurrences processed so far. *)
Record registryInv (seen : list RawTilesetRef) (st : TilesetsState)
  : Prop := mkRegistryInv {
  inv_globals :
    st_globalTilesets st = assignFirstGids 1 (firstOccurrences [] seen);
  inv_index : forall k,
    st_tilesetKeyToGlobalIndex st !! k
    = fst <$> findGlobal (st_globalTilesets st) k;
  inv_next :
    st_nextFirstGid st = 1 + sumTilecounts (st_globalTilesets st);
}.

Lemma registryInv_known seen st k :
  registryInv seen st ->
  (k ∈ tilesetKey <$> seen <-> is_Some (findGlobal (st_globalTilesets st) k)).
Proof.
  intros [Hg _ _]. rewrite Hg. unfold findGlobal.
  transitivity (k ∈ tilesetKey <$> firstOccurrences [] seen).
  { rewrite firstOccurrences_keys. pose proof (not_elem_of_nil k). tauto. }
  rewrite <- (assignFirstGids_keys 1), list_elem_of_fmap. split.
  - intros (G & -> & HG). by eapply list_find_elem_of.
  - intros [[i G] (HG%list_elem_of_lookup_2 & <- & _)%list_find_Some]. eauto.
Qed.

Lemma tilesetStep_spec i seen st ts :
  registryInv seen st ->
  registryInv (seen ++ [ts]) (tilesetStep i st ts)
  /\ (exists ext,
        st_globalTilesets (tilesetStep i st ts) = st_globalTilesets st ++ ext)
  /\ exists G,
       findGlobal (st_globalTilesets (tilesetStep i st ts)) (tilesetKey ts)
       = Some G
       /\ st_gidRemaps (tilesetStep i st ts)
          = alter (writeRange (firstgid ts) (firstgid G.2)
                     (upto (default 0 (tilecount ts))))
                  i (st_gidRemaps st).
Proof.
  intros Hinv. pose proof (registryInv_known seen st (tilesetKey ts) Hinv) as Hknown.
  destruct Hinv as [Hg Hidx Hnext].
  unfold tilesetStep. pose proof (Hidx (tilesetKey ts)) as Hk.
  destruct (findGlobal (st_globalTilesets st) (tilesetKey ts))
    as [[gi G]|] eqn:Hfind; rewrite Hk; cbn [fmap option_fmap option_map fst].
  - cbn. split; [|split].
    + split; cbn; [|done..].
      rewrite firstOccurrences_snoc, decide_True, app_nil_r; [done|].
      cbn. apply Hknown. eauto.
    + exists []. by rewrite app_nil_r.
    + exists (gi, G). split; [done|]. rewrite setRemap_loop.
      apply list_find_Some in Hfind as (HG & _ & _).
      by rewrite (list_lookup_total_correct _ _ _ HG).
  - cbn. assert (Hnew : tilesetKey ts ∉ tilesetKey <$> seen).
    { intros [x Hx]%Hknown. done. }
    set (newTs := withFirstgid ts (st_nextFirstGid st)).
    assert (Hlook : (st_globalTilesets st ++ [newTs])
                    !!! length (st_globalTilesets st) = newTs).
    { apply list_lookup_total_correct.
      by rewrite lookup_app_r, Nat.sub_diag by lia. }
    rewrite Hlook. split; [|split].
    + split; cbn.
      * rewrite firstOccurrences_snoc, decide_False by done.
        rewrite assignFirstGids_app, <- Hg. cbn. do 2 f_equal.
        unfold newTs. f_equal. rewrite Hnext, Hg, sumTilecounts_assign. done.
      * intros k. unfold findGlobal in *.
        destruct (decide (k = tilesetKey ts)) as [->|Hne].
        -- rewrite lookup_insert_eq, (list_find_app_r _ _ [newTs] Hfind).
           cbn. by rewrite decide_True.
        -- rewrite lookup_insert_ne by done. rewrite Hidx.
           destruct (list_find (fun G => tilesetKey G = k)
                       (st_globalTilesets st)) as [[j H]|] eqn:Hj.
           ++ by rewrite (list_find_app_l _ _ [newTs] _ _ Hj).
           ++ rewrite (list_find_app_r _ _ [newTs] Hj). cbn.
              by rewrite decide_False.
      * rewrite sumTilecounts_app. cbn. lia.
    + by eexists.
    + exists (length (st_globalTilesets st), newTs). split.
      * unfold findGlobal in *. rewrite (list_find_app_r _ _ [newTs] Hfind).
        cbn. by rewrite decide_True.
      * by rewrite setRemap_loop.
Qed.

(** Every one of [tilesets] has its global tileset. *)
Definition allKnown (globals tilesets : list RawTilesetRef) : Prop :=
  forall ts, ts ∈ tilesets ->
    is_Some (findGlobal globals (tilesetKey ts)).

Lemma findGlobal_extend globals ext k G :
  findGlobal globals k = Some G -> findGlobal (globals ++ ext) k = Some G.
Proof. destruct G. apply list_find_app_l. Qed.

Lemma allKnown_extend globals ext tilesets :
  allKnown globals tilesets -> allKnown (globals ++ ext) tilesets.
Proof.
  intros Hk ts Hts. destruct (Hk ts Hts) as [G HG].
  exists G. by apply findGlobal_extend.
Qed.

Lemma sourceTileset_elem tilesets gid ts :
  sourceTileset tilesets gid = Some ts -> ts ∈ tilesets /\ covers gid ts.
Proof.
  unfold sourceTileset. intros H%last_Some_elem_of.
  apply list_elem_of_filter in H. tauto.
Qed.

Lemma sourceTileset_snoc tilesets ts gid :
  sourceTileset (tilesets ++ [ts]) gid
  = if decide (covers gid ts) then Some ts else sourceTileset tilesets gid.
Proof.
  unfold sourceTileset. rewrite filter_app, filter_cons, filter_nil.
  case_decide; [apply last_snoc|by rewrite app_nil_r].
Qed.

Lemma remapEntry_extend globals ext tilesets gid :
  allKnown globals tilesets ->
  remapEntry (globals ++ ext) tilesets gid = remapEntry globals tilesets gid.
Proof.
  intros Hk. unfold remapEntry.
  destruct (sourceTileset tilesets gid) as [ts|] eqn:Hsrc; [|done]. cbn.
  apply sourceTileset_elem in Hsrc as [Hts _].
  destruct (Hk ts Hts) as [G HG].
  by rewrite HG, (findGlobal_extend _ ext _ _ HG).
Qed.

(** The loop over the tilesets of chunk [i], [P] being those of its
    tilesets that came before. *)
Lemma tilesetsLoop_spec i tilesets : forall seen P st m,
  registryInv seen st ->
  allKnown (st_globalTilesets st) P ->
  st_gidRemaps st !! i = Some m ->
  (forall gid, m !! gid = remapEntry (st_globalTilesets st) P gid) ->
  let st' := foldl (tilesetStep i) st tilesets in
  registryInv (seen ++ tilesets) st'
  /\ allKnown (st_globalTilesets st') (P ++ tilesets)
  /\ (exists ext, st_globalTilesets st' = st_globalTilesets st ++ ext)
  /\ (exists m', st_gidRemaps st' !! i = Some m'
       /\ forall gid,
            m' !! gid = remapEntry (st_globalTilesets st') (P ++ tilesets) gid)
  /\ (forall j, j <> i -> st_gidRemaps st' !! j = st_gidRemaps st !! j)
  /\ length (st_gidRemaps st') = length (st_gidRemaps st).
Proof.
  induction tilesets as [|ts tilesets IH]; intros seen P st m Hinv Hk Hm Hent.
  - cbn. rewrite !app_nil_r. split_and!; eauto.
    exists []. by rewrite app_nil_r.
  - cbn [foldl].
    destruct (tilesetStep_spec i seen st ts Hinv)
      as (Hinv' & [ext Hext] & G & HG & Hremaps).
    set (st1 := tilesetStep i st ts) in *.
    assert (Hk1 : allKnown (st_globalTilesets st1) (P ++ [ts])).
    { intros t [Ht| ->%list_elem_of_singleton]%elem_of_app; [|by eexists].
      rewrite Hext. by apply (allKnown_extend _ _ P). }
    set (m1 := writeRange (firstgid ts) (firstgid G.2)
                 (upto (default 0 (tilecount ts))) m).
    assert (Hm1 : st_gidRemaps st1 !! i = Some m1).
    { by rewrite Hremaps, list_lookup_alter_eq, Hm. }
    assert (Hent1 : forall gid,
      m1 !! gid = remapEntry (st_globalTilesets st1) (P ++ [ts]) gid).
    { intros gid. unfold m1. rewrite lookup_writeRange_upto.
      unfold remapEntry. rewrite sourceTileset_snoc.
      destruct (decide (covers gid ts)) as [Hc|Hc].
      - rewrite !decide_True by done. cbn. by rewrite HG.
      - rewrite !decide_False by done. fold (remapEntry (st_globalTilesets st1) P gid).
        rewrite Hent, Hext. symmetry. by apply remapEntry_extend. }
    destruct (IH (seen ++ [ts]) (P ++ [ts]) st1 m1 Hinv' Hk1 Hm1 Hent1)
      as (Hinv2 & Hk2 & [ext2 Hext2] & Hcur & Hframe & Hlen).
    rewrite <- !app_assoc in *. cbn [app] in *.
    split_and!; try done.
    + exists (ext ++ ext2). by rewrite Hext2, Hext, app_assoc.
    + intros j Hj. rewrite (Hframe j Hj), Hremaps.
      by apply list_lookup_alter_ne.
    + by rewrite Hlen, Hremaps, length_alter.
Qed.

(** What the loop over the chunks maintains, [pre] being the chunks
    processed so far out of [n]. *)
Definition chunksInv (n : nat) (pre : list MapChunk) (st : TilesetsState)
  : Prop :=
  registryInv (allTilesets pre) st
  /\ length (st_gidRemaps st) = n
  /\ (forall j c, pre !! j = Some c ->
        allKnown (st_globalTilesets st) (tmj_tilesets (tmj c))
        /\ exists m, st_gidRemaps st !! j = Some m
             /\ forall gid,
                  m !! gid
                  = remapEntry (st_globalTilesets st)
                      (tmj_tilesets (tmj c)) gid)
  /\ (forall j, (length pre <= j < n)%nat -> st_gidRemaps st !! j = Some ∅).

Lemma allTilesets_snoc pre c :
  allTilesets (pre ++ [c]) = allTilesets pre ++ tmj_tilesets (tmj c).
Proof. unfold allTilesets. rewrite bind_app. cbn. by rewrite app_nil_r. Qed.

Lemma chunksLoop_spec n rest : forall pre st,
  (length pre + length rest = n)%nat ->
  chunksInv n pre st ->
  chunksInv n (pre ++ rest)
    (foldl chunkStep st (zip (seq (length pre) (length rest)) rest)).
Proof.
  induction rest as [|c rest IH]; intros pre st Hn Hinv.
  - by rewrite app_nil_r.
  - cbn [length seq zip zip_with foldl]. cbn [length] in Hn.
    destruct Hinv as (Hreg & Hlen & Hpre & Hpost).
    unfold chunkStep at 2. cbn [fst snd].
    destruct (tilesetsLoop_spec (length pre) (tmj_tilesets (tmj c))
                (allTilesets pre) [] st ∅ Hreg)
      as (Hreg' & Hk' & [ext Hext] & (m' & Hm' & Hent') & Hframe & Hlen').
    { intros ts Hts. by apply elem_of_nil in Hts. }
    { apply Hpost. lia. }
    { intros gid. by rewrite lookup_empty. }
    set (st' := foldl (tilesetStep (length pre)) st (tmj_tilesets (tmj c)))
      in *.
    replace (pre ++ c :: rest) with ((pre ++ [c]) ++ rest)
      by by rewrite <- app_assoc.
    replace (Datatypes.S (length pre)) with (length (pre ++ [c]))
      by (rewrite length_app; cbn; lia).
    apply IH; [rewrite length_app; cbn; lia|].
    split_and!.
    + by rewrite allTilesets_snoc.
    + by rewrite Hlen'.
    + intros j d [[Hj Hd]|[-> Hd]]%lookup_snoc_Some.
      * destruct (Hpre j d Hd) as (Hkd & m & Hm & Hent).
        rewrite Hext. split; [by apply allKnown_extend|].
        exists m. split.
        -- rewrite Hframe by lia. done.
        -- intros gid. rewrite Hent. symmetry. by apply remapEntry_extend.
      * subst d. split; [done|]. by exists m'.
    + intros j Hj. rewrite length_app in Hj. cbn in Hj.
      rewrite Hframe by lia. apply Hpost. lia.
Qed.

(** The registry and the remaps [mergeTilesets] returns. *)
Lemma mergeTilesets_inv chunks :
  chunksInv (length chunks) chunks (mergeTilesetsLoop chunks).
Proof.
  unfold mergeTilesetsLoop, indexed.
  apply (chunksLoop_spec (length chunks) chunks []); [done|].
  split_and!; cbn.
  - by split.
  - by rewrite length_fmap.
  - intros j c Hj. by rewrite lookup_nil in Hj.
  - intros j [_ Hj]. rewrite list_lookup_fmap.
    destruct (lookup_lt_is_Some_2 chunks j Hj) as [c ->]. done.
Qed.

Lemma mergeTilesets_globals chunks :
  globalTilesets (mergeTilesets chunks)
  = assignFirstGids 1 (firstOccurrences [] (allTilesets chunks)).
Proof. by destruct (mergeTilesets_inv chunks) as ([? _ _] & _). Qed.

Lemma mergeTilesets_length chunks :
  length (gidRemaps (mergeTilesets chunks)) = length chunks.
Proof. by destruct (mergeTilesets_inv chunks) as (_ & ? & _). Qed.

Lemma mergeTilesets_remap chunks i c :
  chunks !! i = Some c ->
  allKnown (globalTilesets (mergeTilesets chunks)) (tmj_tilesets (tmj c))
  /\ exists m, gidRemaps (mergeTilesets chunks) !! i = Some m
       /\ forall gid,
            m !! gid
            = remapEntry (globalTilesets (mergeTilesets chunks))
                (tmj_tilesets (tmj c)) gid.
Proof.
  intros Hc. destruct (mergeTilesets_inv chunks) as (_ & _ & H & _).
  by apply H.
Qed.

Lemma assignFirstGids_lookup g l i G :
  assignFirstGids g l !! i = Some G ->
  exists ts, l !! i = Some ts
    /\ G = withFirstgid ts (g + sumTilecounts (take i l)).
Proof.
  revert g i. induction l as [|t l IH]; intros g [|i]; cbn; try done.
  - intros [= <-]. exists t. by rewrite Z.add_0_r.
  - intros (ts & Hts & ->)%IH. exists ts. split; [done|]. f_equal. lia.
Qed.

Lemma assignFirstGids_take g l i :
  take i (assignFirstGids g l) = assignFirstGids g (take i l).
Proof.
  revert g i. induction l as [|t l IH]; intros g [|i]; cbn; try done.
  by rewrite IH.
Qed.

Lemma assignFirstGids_length g l :
  length (assignFirstGids g l) = length l.
Proof. revert g. induction l as [|t l IH]; intros g; cbn; [done|]. by rewrite IH. Qed.

Lemma sumTilecounts_take_assign g l i :
  sumTilecounts (take i (assignFirstGids g l)) = sumTilecounts (take i l).
Proof. by rewrite assignFirstGids_take, sumTilecounts_assign. Qed.

(** ** The identity of a tileset *)

(** The tuple the specification names as the identity of a tileset. *)
Definition identityTuple (ts : RawTilesetRef)
  : option string * option string * option string
    * option Z * option Z * option Z * option Z :=
  (source ts, ts_name ts, image ts, tilewidth ts, tileheight ts,
   tilecount ts, columns ts).

(** Two optional strings that agree once a missing string is read as the
    empty one. *)
Definition sameText (s1 s2 : option string) : Prop :=
  default "" s1 = default "" s2.

(** Two tilesets that differ at most in [firstgid] and in whether an empty
    [source], [name] or [image] is written out. *)
Definition sameIdentity (t1 t2 : RawTilesetRef) : Prop :=
  sameText (source t1) (source t2) /\ sameText (ts_name t1) (ts_name t2)
  /\ sameText (image t1) (image t2)
  /\ tilewidth t1 = tilewidth t2 /\ tileheight t1 = tileheight t2
  /\ tilecount t1 = tilecount t2 /\ columns t1 = columns t2.

(** [all !! a] is the first tileset of its identity in [all]. *)
Definition isFirstOccurrence (all : list RawTilesetRef) (a : nat)
    (ts : RawTilesetRef) : Prop :=
  all !! a = Some ts
  /\ forall b t, (b < a)%nat -> all !! b = Some t -> ~ sameIdentity t ts.

Lemma orNull_sameText s1 s2 : orNull s1 = orNull s2 <-> sameText s1 s2.
Proof.
  unfold sameText.
  destruct s1 as [[|c1 s1]|], s2 as [[|c2 s2]|]; cbn; split; congruence.
Qed.

Lemma tilesetKey_sameIdentity t1 t2 :
  tilesetKey t1 = tilesetKey t2 <-> sameIdentity t1 t2.
Proof.
  unfold sameIdentity. rewrite <- !orNull_sameText. unfold tilesetKey. split.
  - intros [=]. done.
  - intros (-> & -> & -> & -> & -> & -> & ->). done.
Qed.

Lemma sameIdentity_withFirstgid ts g : sameIdentity (withFirstgid ts g) ts.
Proof. by apply tilesetKey_sameIdentity. Qed.

Lemma list_find_first_occurrence all G a ts :
  list_find (fun t => tilesetKey t = tilesetKey G) all = Some (a, ts) ->
  isFirstOccurrence all a ts /\ sameIdentity ts G.
Proof.
  intros (Ha & Hk & Hfirst)%list_find_Some. split; [split; [done|]|].
  - intros b t Hb Ht Hsame. apply (Hfirst b t Ht Hb).
    rewrite <- Hk. by apply tilesetKey_sameIdentity.
  - by apply tilesetKey_sameIdentity.
Qed.

Lemma mergeTilesets_globals_of_key chunks i j Gi Gj :
  globalTilesets (mergeTilesets chunks) !! i = Some Gi ->
  globalTilesets (mergeTilesets chunks) !! j = Some Gj ->
  tilesetKey Gi = tilesetKey Gj -> i = j.
Proof.
  intros Hi Hj Hk.
  assert (Hnd : NoDup (tilesetKey <$> globalTilesets (mergeTilesets chunks))).
  { rewrite mergeTilesets_globals, assignFirstGids_keys.
    apply firstOccurrences_NoDup. }
  eapply NoDup_lookup; [exact Hnd| |].
  - by rewrite list_lookup_fmap, Hi.
  - by rewrite list_lookup_fmap, Hj, Hk.
Qed.

Lemma mergeTilesets_global_of chunks ts :
  ts ∈ allTilesets chunks ->
  exists i G, globalTilesets (mergeTilesets chunks) !! i = Some G
    /\ tilesetKey G = tilesetKey ts.
Proof.
  intros Hts.
  assert (Hk : tilesetKey ts
               ∈ tilesetKey <$> globalTilesets (mergeTilesets chunks)).
  { rewrite mergeTilesets_globals, assignFirstGids_keys.
    apply firstOccurrences_keys. split; [by apply list_elem_of_fmap_2|].
    apply not_elem_of_nil. }
  apply list_elem_of_fmap in Hk as (G & HG & [i Hi]%list_elem_of_lookup).
  eauto.
Qed.

Lemma mergeTilesets_global_first chunks i G :
  globalTilesets (mergeTilesets chunks) !! i = Some G ->
  firstgid G = 1 + sumTilecounts (take i (globalTilesets (mergeTilesets chunks)))
  /\ exists a ts,
       list_find (fun t => tilesetKey t = tilesetKey G) (allTilesets chunks)
       = Some (a, ts)
       /\ G = withFirstgid ts (firstgid G).
Proof.
  rewrite mergeTilesets_globals. intros HG.
  destruct (assignFirstGids_lookup _ _ _ _ HG) as (ts & Hts & ->).
  rewrite sumTilecounts_take_assign. split; [done|].
  apply firstOccurrences_lookup in Hts as (_ & a & Ha). eauto.
Qed.

Lemma mergeTilesets_global_order chunks i j Gi Gj :
  (i < j)%nat ->
  globalTilesets (mergeTilesets chunks) !! i = Some Gi ->
  globalTilesets (mergeTilesets chunks) !! j = Some Gj ->
  exists a b ti tj, (a < b)%nat
    /\ list_find (fun t => tilesetKey t = tilesetKey Gi) (allTilesets chunks)
       = Some (a, ti)
    /\ Gi = withFirstgid ti (firstgid Gi)
    /\ list_find (fun t => tilesetKey t = tilesetKey Gj) (allTilesets chunks)
       = Some (b, tj)
    /\ Gj = withFirstgid tj (firstgid Gj).
Proof.
  rewrite mergeTilesets_globals. intros Hij Hi Hj.
  destruct (assignFirstGids_lookup _ _ _ _ Hi) as (ti & Hti & ->).
  destruct (assignFirstGids_lookup _ _ _ _ Hj) as (tj & Htj & ->).
  destruct (firstOccurrences_order _ _ _ _ _ _ Hij Hti Htj)
    as (a & b & Hab & Ha & Hb).
  exists a, b, ti, tj. by rewrite !tilesetKey_withFirstgid.
Qed.

(** ** Validation in mergeTmjMaps *)

(** A chunk the validation loop stops at. *)
Definition offends (tilewidth tileheight : Z) (c : MapChunk) : bool :=
  dimensionsDiffer tilewidth tileheight c || declaresInfinite c.

Lemma validate_pass tw th chunks :
  Forall (fun c => offends tw th c = false) chunks ->
  foldM (validateStep tw th) chunks () = Ok ().
Proof.
  induction 1 as [|c chunks Hc _ IH]; [done|]. cbn.
  unfold validateStep at 1. apply orb_false_elim in Hc as [-> ->]. done.
Qed.

Lemma validate_stop tw th pre c post :
  Forall (fun c => offends tw th c = false) pre ->
  offends tw th c = true ->
  foldM (validateStep tw th) (pre ++ c :: post) ()
  = Throw (Error (if dimensionsDiffer tw th c then msgDimensions
                  else msgInfinite)).
Proof.
  induction 1 as [|d pre Hd _ IH]; intros Hc; cbn.
  - unfold validateStep at 1. unfold offends in Hc.
    destruct (dimensionsDiffer tw th c); [done|]. cbn in Hc. by rewrite Hc.
  - unfold validateStep at 1. apply orb_false_elim in Hd as [-> ->]. cbn.
    by apply IH.
Qed.

(** The first offending chunk of a list, if any. *)
Lemma first_offender tw th chunks :
  Exists (fun c => offends tw th c = true) chunks ->
  exists pre c post, chunks = pre ++ c :: post
    /\ Forall (fun c => offends tw th c = false) pre
    /\ offends tw th c = true.
Proof.
  induction 1 as [c chunks Hc|d chunks _ IH].
  - by exists [], c, chunks.
  - destruct (offends tw th d) eqn:Hd.
    + by exists [], d, chunks.
    + destruct IH as (pre & c & post & -> & Hpre & Hc).
      exists (d :: pre), c, post. split_and!; [done| |done].
      by constructor.
Qed.

Lemma mergeTmjMaps_stop first rest pre c post :
  first :: rest = pre ++ c :: post ->
  let tw := tmj_tilewidth (tmj first) in
  let th := tmj_tileheight (tmj first) in
  Forall (fun c => offends tw th c = false) pre ->
  offends tw th c = true ->
  mergeTmjMaps (first :: rest)
  = Throw (Error (if dimensionsDiffer tw th c then msgDimensions
                  else msgInfinite)).
Proof.
  intros Heq tw th Hpre Hc. unfold mergeTmjMaps. fold tw th.
  by rewrite Heq, (validate_stop tw th pre c post Hpre Hc).
Qed.

(** ** Statements about bounds, validation and the registry *)

Section Statements.
Import Samples.

(** C10.  On an empty chunk list [computeBounds] raises nothing: it returns
    the sentinel with [minX = minY = +Infinity], [maxX = maxY = -Infinity]
    and [width = height = -Infinity]; [mergeTmjMaps] guards against the
    empty list itself, before it would call [computeBounds]. *)
Theorem computeBounds_empty_sentinel :
  computeBounds []
  = {| minX := PosInf; minY := PosInf; maxX := NegInf; maxY := NegInf;
       width := NegInf; height := NegInf |}
  /\ mergeTmjMaps [] = Throw (Error msgNoMaps).
Proof. split; reflexivity. Qed.

(** C7.  For a non-empty list of chunks (with integer dimensions),
    [computeBounds] returns the least [offsetX] and [offsetY] and the
    greatest [offsetX + width] and [offsetY + height] over the chunks, with
    [width = maxX - minX] and [height = maxY - minY]; so the bounds hold
    every chunk's rectangle and are at least as wide and as high as every
    chunk. *)
Theorem computeBounds_min_max (chunks : list MapChunk) :
  chunks <> [] ->
  Forall (fun c => finiteChunk c = true) chunks ->
  exists x0 y0 x1 y1,
    computeBounds chunks
    = {| minX := Fin x0; minY := Fin y0; maxX := Fin x1; maxY := Fin y1;
         width := Fin (x1 - x0); height := Fin (y1 - y0) |}
    /\ isMinOf offsetX chunks x0 /\ isMinOf offsetY chunks y0
    /\ isMaxOf chunkX1 chunks x1 /\ isMaxOf chunkY1 chunks y1
    /\ (forall c, c ∈ chunks ->
          x0 <= offsetX c /\ offsetX c + chunkWidth c <= x1
          /\ y0 <= offsetY c /\ offsetY c + chunkHeight c <= y1)
    /\ (forall c, c ∈ chunks ->
          chunkWidth c <= x1 - x0 /\ chunkHeight c <= y1 - y0).
Proof.
  intros Hne Hfin.
  destruct (computeBounds_finite chunks Hne Hfin)
    as (x0 & y0 & x1 & y1 & Heq & Hx0 & Hy0 & Hx1 & Hy1).
  exists x0, y0, x1, y1. split_and!; try done.
  - intros c Hc. pose proof (proj1 Hx0 c Hc). pose proof (proj1 Hy0 c Hc).
    pose proof (proj1 Hx1 c Hc). pose proof (proj1 Hy1 c Hc).
    unfold chunkX1, chunkY1 in *. lia.
  - intros c Hc. pose proof (proj1 Hx0 c Hc). pose proof (proj1 Hy0 c Hc).
    pose proof (proj1 Hx1 c Hc). pose proof (proj1 Hy1 c Hc).
    unfold chunkX1, chunkY1 in *. lia.
Qed.

Lemma computeBounds_min_max_sample :
  exists x0 y0 x1 y1,
    computeBounds [chunkB; chunkA]
    = {| minX := Fin x0; minY := Fin y0; maxX := Fin x1; maxY := Fin y1;
         width := Fin (x1 - x0); height := Fin (y1 - y0) |}
    /\ isMinOf offsetX [chunkB; chunkA] x0
    /\ isMinOf offsetY [chunkB; chunkA] y0
    /\ isMaxOf chunkX1 [chunkB; chunkA] x1
    /\ isMaxOf chunkY1 [chunkB; chunkA] y1
    /\ (forall c, c ∈ [chunkB; chunkA] ->
          x0 <= offsetX c /\ offsetX c + chunkWidth c <= x1
          /\ y0 <= offsetY c /\ offsetY c + chunkHeight c <= y1)
    /\ (forall c, c ∈ [chunkB; chunkA] ->
          chunkWidth c <= x1 - x0 /\ chunkHeight c <= y1 - y0).
Proof.
  apply (computeBounds_min_max [chunkB; chunkA]).
  - discriminate.
  - repeat constructor.
Defined.

(** C1, as the code has it.  An empty chunk list fails with
    [Error "No maps to merge"].  Otherwise the chunks are checked in input
    order and the first chunk that offends decides the failure: the
    dimension error if its tile size differs from the first chunk's, else
    the infinite-map error.  So whenever some chunk has another tile size or
    declares [infinite], the merge fails with one of these two errors and
    returns no document, and the three messages differ from one another. *)
Theorem mergeTmjMaps_validation_failures :
  mergeTmjMaps [] = Throw (Error msgNoMaps)
  /\ (forall first rest pre c post,
        first :: rest = pre ++ c :: post ->
        let tw := tmj_tilewidth (tmj first) in
        let th := tmj_tileheight (tmj first) in
        Forall (fun d => offends tw th d = false) pre ->
        offends tw th c = true ->
        mergeTmjMaps (first :: rest)
        = Throw (Error (if dimensionsDiffer tw th c then msgDimensions
                        else msgInfinite)))
  /\ (forall first rest,
        Exists (fun c => dimensionsDiffer (tmj_tilewidth (tmj first))
                           (tmj_tileheight (tmj first)) c = true
                         \/ declaresInfinite c = true) (first :: rest) ->
        mergeTmjMaps (first :: rest) = Throw (Error msgDimensions)
        \/ mergeTmjMaps (first :: rest) = Throw (Error msgInfinite))
  /\ (msgNoMaps <> msgDimensions /\ msgNoMaps <> msgInfinite
      /\ msgDimensions <> msgInfinite).
Proof.
  split_and!; try done.
  - intros first rest pre c post. apply mergeTmjMaps_stop.
  - intros first rest Hex.
    destruct (first_offender (tmj_tilewidth (tmj first))
                (tmj_tileheight (tmj first)) (first :: rest))
      as (pre & c & post & Heq & Hpre & Hc).
    { eapply Exists_impl; [exact Hex|].
      intros c [H|H]; unfold offends; rewrite H; [done|apply orb_true_r]. }
    rewrite (mergeTmjMaps_stop first rest pre c post Heq Hpre Hc).
    destruct (dimensionsDiffer _ _ c); auto.
Qed.

Lemma mergeTmjMaps_validation_failures_sample :
  mergeTmjMaps [chunkA; chunkB; chunkInfinite; chunkWide]
  = Throw (Error msgInfinite).
Proof.
  apply (proj1 (proj2 mergeTmjMaps_validation_failures)
           chunkA [chunkB; chunkInfinite; chunkWide]
           [chunkA; chunkB] chunkInfinite [chunkWide]).
  - reflexivity.
  - repeat constructor.
  - reflexivity.
Defined.

(** C1 as the specification words it fails: a chunk that declares
    [infinite] does not make the merge fail with the infinite-map error when
    it also has another tile size, or comes after a chunk that has; and a
    chunk of another tile size does not make the merge fail with the
    dimension error when an infinite chunk comes before it. *)
Lemma mergeTmjMaps_failure_is_first_offence :
  (chunkWide ∈ [chunkA; chunkWide] /\ declaresInfinite chunkWide = true
   /\ mergeTmjMaps [chunkA; chunkWide] = Throw (Error msgDimensions)
   /\ mergeTmjMaps [chunkA; chunkWide] <> Throw (Error msgInfinite))
  /\ (chunkWide ∈ [chunkInfinite; chunkWide]
      /\ dimensionsDiffer (tmj_tilewidth (tmj chunkInfinite))
           (tmj_tileheight (tmj chunkInfinite)) chunkWide = true
      /\ mergeTmjMaps [chunkInfinite; chunkWide] = Throw (Error msgInfinite)
      /\ mergeTmjMaps [chunkInfinite; chunkWide]
         <> Throw (Error msgDimensions)).
Proof.
  split_and!; try reflexivity; try discriminate.
  - right; left.
  - right; left.
Qed.

(** C3 as the specification words it fails: two chunks whose tilesets have
    different identity tuples, one without a name and one with the empty
    name, are given one global tileset and not two. *)
Lemma mergeTilesets_blank_is_absent :
  identityTuple (unnamed 1) <> identityTuple (blankName 1)
  /\ globalTilesets (mergeTilesets [chunkUnnamed; chunkBlankName])
     = [unnamed 1]
  /\ length (globalTilesets (mergeTilesets [chunkUnnamed; chunkBlankName]))
     <> 2%nat.
Proof. split_and!; [discriminate|reflexivity|discriminate]. Qed.

(** C3, as the code has it.  The identity of a tileset is its tuple
    [(source, name, image, tilewidth, tileheight, tilecount, columns)] with
    an empty [source], [name] or [image] read as a missing one.  Every
    tileset occurrence has exactly one global tileset of its identity, and
    two occurrences share their global tileset exactly when they have the
    same identity.  The global tilesets are the first occurrences of the
    identities, in first-seen order over all chunks, each with the seven
    fields of the occurrence and a [firstgid] of its own, which is the
    value of a counter that starts at 1 and
    advances by the [tilecount] (0 when missing) of every tileset
    registered. *)
Theorem mergeTilesets_first_seen (chunks : list MapChunk) :
  let globals := globalTilesets (mergeTilesets chunks) in
  let all := allTilesets chunks in
  (forall ts, ts ∈ all ->
     exists i G, globals !! i = Some G /\ sameIdentity G ts
       /\ forall j G', globals !! j = Some G' -> sameIdentity G' ts -> j = i)
  /\ (forall t1 t2 i j G1 G2,
        t1 ∈ all -> t2 ∈ all ->
        globals !! i = Some G1 -> sameIdentity G1 t1 ->
        globals !! j = Some G2 -> sameIdentity G2 t2 ->
        (i = j <-> sameIdentity t1 t2))
  /\ (forall i G, globals !! i = Some G ->
        firstgid G = 1 + sumTilecounts (take i globals)
        /\ exists a ts, isFirstOccurrence all a ts
             /\ identityTuple G = identityTuple ts)
  /\ (forall i j Gi Gj,
        (i < j)%nat -> globals !! i = Some Gi -> globals !! j = Some Gj ->
        exists a b ti tj, (a < b)%nat
          /\ isFirstOccurrence all a ti
          /\ identityTuple Gi = identityTuple ti
          /\ isFirstOccurrence all b tj
          /\ identityTuple Gj = identityTuple tj).
Proof.
  intros globals all. split_and!.
  - intros ts Hts.
    destruct (mergeTilesets_global_of chunks ts Hts) as (i & G & HG & Hk).
    exists i, G. split; [done|]. split; [by apply tilesetKey_sameIdentity|].
    intros j G' HG' Hsame. apply (mergeTilesets_globals_of_key chunks j i G' G);
      [done..|].
    apply tilesetKey_sameIdentity in Hsame. congruence.
  - intros t1 t2 i j G1 G2 _ _ H1 S1%tilesetKey_sameIdentity
      H2 S2%tilesetKey_sameIdentity.
    rewrite <- tilesetKey_sameIdentity. split.
    + intros ->. assert (G1 = G2) as -> by congruence. congruence.
    + intros Hk. apply (mergeTilesets_globals_of_key chunks i j G1 G2);
        [done..|]. congruence.
  - intros i G HG.
    destruct (mergeTilesets_global_first chunks i G HG)
      as (Hg & a & ts & Hfind & Heq).
    split; [done|]. exists a, ts. split; [|by rewrite Heq].
    by apply (list_find_first_occurrence _ G).
  - intros i j Gi Gj Hij Hi Hj.
    destruct (mergeTilesets_global_order chunks i j Gi Gj Hij Hi Hj)
      as (a & b & ti & tj & Hab & Ha & Hti & Hb & Htj).
    exists a, b, ti, tj.
    apply list_find_first_occurrence in Ha, Hb.
    split_and!; [done|tauto|by rewrite Hti|tauto|by rewrite Htj].
Qed.

(** The registry of the two sample maps: the second map's copy of the
    terrain tileset is the first map's, and its other tileset follows. *)
Example mergeTilesets_sample :
  globalTilesets (mergeTilesets [chunkA; chunkB]) = [terrain 1; props 5]
  /\ sameIdentity (terrain 1) (terrain 3)
  /\ ~ sameIdentity (terrain 1) (props 1).
Proof.
  split; [reflexivity|]. split.
  - by apply tilesetKey_sameIdentity.
  - intros Hsame%tilesetKey_sameIdentity. discriminate Hsame.
Qed.

End Statements.

(** ** Loops that may throw *)

Lemma foldM_app {S X} (body : S -> X -> result S) l1 l2 s :
  foldM body (l1 ++ l2) s = bind (foldM body l1 s) (foldM body l2).
Proof.
  revert s. induction l1 as [|x l1 IH]; intros s; cbn; [done|].
  destruct (body s x); cbn; [apply IH|done].
Qed.

(** A loop whose body never throws is a fold. *)
Lemma foldM_ok {S X} (body : S -> X -> result S) (step : S -> X -> S) l s :
  (forall s x, x ∈ l -> body s x = Ok (step s x)) ->
  foldM body l s = Ok (foldl step s l).
Proof.
  revert s. induction l as [|x l IH]; intros s Hbody; cbn; [done|].
  rewrite Hbody by left. cbn. apply IH. intros s' y Hy. apply Hbody. by right.
Qed.

(** Two nested loops are one loop over the pairs of indices. *)
Lemma foldM_nested {S Y X} (body : Y -> S -> X -> result S) ys xs s :
  foldM (fun s y => foldM (body y) xs s) ys s
  = foldM (fun s (p : Y * X) => body p.1 s p.2)
      (ys ≫= fun y => pair y <$> xs) s.
Proof.
  revert s. induction ys as [|y ys IH]; intros s; cbn; [done|].
  rewrite foldM_app.
  assert (Hin : forall s,
    foldM (fun s (p : Y * X) => body p.1 s p.2) (pair y <$> xs) s
    = foldM (body y) xs s).
  { clear. induction xs as [|x xs IHx]; intros s; cbn; [done|].
    destruct (body y s x); cbn; [apply IHx|done]. }
  rewrite Hin. destruct (foldM (body y) xs s); cbn; [apply IH|done].
Qed.

(** What a throwing loop throws, its body threw. *)
Lemma foldM_throw {S X} (P : exn -> Prop) (body : S -> X -> result S) l s e :
  (forall s x e, body s x = Throw e -> P e) ->
  foldM body l s = Throw e -> P e.
Proof.
  intros Hbody. revert s. induction l as [|x l IH]; intros s; cbn; [done|].
  destruct (body s x) as [s'|e'] eqn:Hb; cbn; [apply IH|].
  intros [= <-]. eauto.
Qed.

(** ** Writes into a grid *)

(** The cells of a grid that hold a tile. *)
Definition countNonzero (data : list Z) : nat :=
  length (filter (fun v => v <> 0) data).

(** [data[i] = v] for each [(i, v)] in turn. *)
Definition applyWrites (data : list Z) (writes : list (nat * Z)) : list Z :=
  foldl (fun d (w : nat * Z) => <[w.1 := w.2]> d) data writes.

Lemma applyWrites_length data writes :
  length (applyWrites data writes) = length data.
Proof.
  revert data. induction writes as [|w ws IH]; intros data; cbn; [done|].
  unfold applyWrites in IH. by rewrite IH, length_insert.
Qed.

Lemma applyWrites_other data writes i :
  i ∉ writes.*1 -> applyWrites data writes !! i = data !! i.
Proof.
  revert data. induction writes as [|w ws IH]; intros data Hi; cbn; [done|].
  cbn in Hi. apply not_elem_of_cons in Hi as [Hne Hi].
  unfold applyWrites in IH. rewrite IH by done.
  by apply list_lookup_insert_ne.
Qed.

Lemma applyWrites_written data writes i v :
  NoDup writes.*1 -> (i, v) ∈ writes -> (i < length data)%nat ->
  applyWrites data writes !! i = Some v.
Proof.
  revert data. induction writes as [|w ws IH]; intros data Hnd Hin Hlt;
    cbn; [by apply elem_of_nil in Hin|].
  cbn in Hnd. apply NoDup_cons in Hnd as [Hw Hnd].
  apply elem_of_cons in Hin as [<-|Hin].
  - fold (applyWrites (<[i := v]> data) ws).
    rewrite applyWrites_other by done. by apply list_lookup_insert_eq.
  - apply IH; [done..|]. by rewrite length_insert.
Qed.

Lemma countNonzero_insert data i v :
  data !! i = Some 0 -> v <> 0 ->
  countNonzero (<[i := v]> data) = Datatypes.S (countNonzero data).
Proof.
  unfold countNonzero. revert i.
  induction data as [|d data IH]; intros [|i]; cbn; try done.
  - intros [= ->] Hv.
    rewrite decide_True by done. by rewrite decide_False by lia.
  - intros Hi Hv. case_decide; cbn; by rewrite IH.
Qed.

Lemma countNonzero_replicate n : countNonzero (replicate n 0) = 0%nat.
Proof.
  unfold countNonzero. induction n as [|n IH]; cbn; [done|].
  by rewrite decide_False by lia.
Qed.

(** ** One tile layer *)

(** The cells [(localY, localX)] of a source layer, row by row. *)
Definition cells (src : RawTileLayer) : list (Z * Z) :=
  upto (tl_height src) ≫= fun localY => pair localY <$> upto (tl_width src).

(** [src.data[localY * src.width + localX] || 0] *)
Definition sourceGid (src : RawTileLayer) (p : Z * Z) : Z :=
  default 0 (tl_data src !! Z.to_nat (p.1 * tl_width src + p.2)).

(** The cell [(gx, gy)] lies in a grid of [W] by [H] cells. *)
Definition inGrid (W H gx gy : Z) : Prop :=
  (0 <= gx < W) /\ (0 <= gy < H).

(** A source cell that holds a tile and lands in the grid when the layer is
    shifted by [(dx, dy)]. *)
Definition kept (src : RawTileLayer) (dx dy W H : Z) (p : Z * Z) : Prop :=
  sourceGid src p <> 0 /\ inGrid W H (dx + p.2) (dy + p.1).

Global Instance kept_dec src dx dy W H p : Decision (kept src dx dy W H p).
Proof. unfold kept, inGrid. apply _. Defined.

(** The index of [(gx, gy)] in a row-major grid [W] cells wide. *)
Definition gridIndex (W gx gy : Z) : nat := Z.to_nat (gy * W + gx).

(** [remap[gid] ?? gid] *)
Definition remapped (m : GidRemap) (gid : Z) : Z := default gid (m !! gid).

(** What the loop body writes for a cell, if anything. *)
Definition cellWrite (src : RawTileLayer) (m : GidRemap) (dx dy W H : Z)
    (p : Z * Z) : option (nat * Z) :=
  if decide (kept src dx dy W H p)
  then Some (gridIndex W (dx + p.2) (dy + p.1), remapped m (sourceGid src p))
  else None.

Definition layerWrites (src : RawTileLayer) (m : GidRemap) (dx dy W H : Z)
  : list (nat * Z) :=
  omap (cellWrite src m dx dy W H) (cells src).

Lemma elem_of_cells src p :
  p ∈ cells src
  <-> (0 <= p.1 < tl_height src) /\ (0 <= p.2 < tl_width src).
Proof.
  unfold cells, upto. rewrite list_elem_of_bind. split.
  - intros (ly & (lx & -> & Hlx)%list_elem_of_fmap & Hly).
    apply elem_of_seqZ in Hlx, Hly. cbn. lia.
  - destruct p as [ly lx]. cbn. intros [Hly Hlx]. exists ly. split.
    + apply list_elem_of_fmap. exists lx. split; [done|].
      apply elem_of_seqZ. lia.
    + apply elem_of_seqZ. lia.
Qed.

Lemma NoDup_cells src : NoDup (cells src).
Proof.
  unfold cells, upto. apply NoDup_bind.
  - intros ly1 ly2 p _ _ (? & -> & _)%list_elem_of_fmap
      (? & [= -> _] & _)%list_elem_of_fmap. done.
  - intros ly _. apply NoDup_fmap_2; [|apply NoDup_seqZ].
    by intros ?? [=].
  - apply NoDup_seqZ.
Qed.

Lemma gridIndex_lt W H gx gy :
  inGrid W H gx gy -> (gridIndex W gx gy < Z.to_nat (W * H))%nat.
Proof. unfold inGrid, gridIndex. intros [? ?]. nia. Qed.

Lemma gridIndex_inj W H gx gy gx' gy' :
  inGrid W H gx gy -> inGrid W H gx' gy' ->
  gridIndex W gx gy = gridIndex W gx' gy' -> gx = gx' /\ gy = gy'.
Proof.
  unfold inGrid, gridIndex. intros [? ?] [? ?] Heq.
  apply Z2Nat.inj in Heq; [|nia..].
  assert (gy = gy'); [|subst; lia].
  destruct (Z.lt_trichotomy gy gy') as [?|[?|?]]; [|done|].
  - assert (gy * W + W <= gy' * W) by nia. lia.
  - assert (gy' * W + W <= gy * W) by nia. lia.
Qed.

Lemma cellWrite_Some src m dx dy W H p w :
  cellWrite src m dx dy W H p = Some w
  <-> kept src dx dy W H p
      /\ w = (gridIndex W (dx + p.2) (dy + p.1),
              remapped m (sourceGid src p)).
Proof.
  unfold cellWrite. destruct (decide (kept src dx dy W H p)) as [Hk|Hk].
  - split; [by intros [= <-]|by intros [_ ->]].
  - split; [done|by intros [? _]].
Qed.

Lemma elem_of_layerWrites src m dx dy W H w :
  w ∈ layerWrites src m dx dy W H
  <-> exists p, p ∈ cells src /\ kept src dx dy W H p
        /\ w = (gridIndex W (dx + p.2) (dy + p.1),
                remapped m (sourceGid src p)).
Proof.
  unfold layerWrites. rewrite list_elem_of_omap.
  setoid_rewrite cellWrite_Some. naive_solver.
Qed.

Lemma NoDup_omap_fst {A} (f : A -> option (nat * Z)) l :
  NoDup l ->
  (forall p q a b, p ∈ l -> q ∈ l -> f p = Some a -> f q = Some b ->
     a.1 = b.1 -> p = q) ->
  NoDup (omap f l).*1.
Proof.
  induction 1 as [|p l Hp Hnd IH]; intros Hinj; cbn; [constructor|].
  destruct (f p) as [a|] eqn:Ha; cbn.
  - constructor.
    + intros (b & Hab & (q & Hq & Hb)%list_elem_of_omap)%list_elem_of_fmap.
      apply Hp. rewrite (Hinj p q a b); [done|left|by right|done..].
    + apply IH. intros p' q' a' b' Hp' Hq'. apply Hinj; by right.
  - apply IH. intros p' q' a' b' Hp' Hq'. apply Hinj; by right.
Qed.

Lemma NoDup_layerWrites src m dx dy W H :
  NoDup (layerWrites src m dx dy W H).*1.
Proof.
  apply NoDup_omap_fst; [apply NoDup_cells|].
  intros [ly lx] [ly' lx'] a b _ _ [[_ Hg] ->]%cellWrite_Some
    [[_ Hg'] ->]%cellWrite_Some Heq. cbn in *.
  destruct (gridIndex_inj _ _ _ _ _ _ Hg Hg' Heq). f_equal; lia.
Qed.

(** Bounds whose corner and size are integers. *)
Definition finiteBounds (bounds : Bounds) (x0 y0 W H : Z) : Prop :=
  minX bounds = Fin x0 /\ minY bounds = Fin y0
  /\ width bounds = Fin W /\ height bounds = Fin H.

Lemma cellStep_finite src m dx dy bounds W H ly data lx :
  width bounds = Fin W -> height bounds = Fin H ->
  cellStep src (Some m) (Fin dx) (Fin dy) bounds ly data lx
  = Ok (match cellWrite src m dx dy W H (ly, lx) with
        | Some w => <[w.1 := w.2]> data
        | None => data
        end).
Proof.
  intros HW HH. unfold cellStep, cellWrite, kept, sourceGid.
  cbn [fst snd]. rewrite HW, HH.
  set (g := default 0 (tl_data src !! Z.to_nat (ly * tl_width src + lx))).
  case_bool_decide as Hg.
  { rewrite decide_False; [done|]. intros [? _]. done. }
  cbn. unfold inGrid.
  destruct (Z.ltb_spec (dx + lx) 0); cbn;
    [rewrite decide_False by lia; done|].
  destruct (Z.ltb_spec (dy + ly) 0); cbn;
    [rewrite decide_False by lia; done|].
  destruct (Z.ltb_spec (dx + lx) W); cbn;
    [|rewrite decide_False by lia; done].
  destruct (Z.ltb_spec (dy + ly) H); cbn;
    [|rewrite decide_False by lia; done].
  rewrite decide_True by lia. unfold arraySet.
  rewrite bool_decide_true by nia. done.
Qed.

Lemma foldl_writes {A} (f : A -> option (nat * Z)) l data :
  foldl (fun d p => match f p with
                    | Some w => <[w.1 := w.2]> d
                    | None => d
                    end) data l
  = applyWrites data (omap f l).
Proof.
  revert data. induction l as [|p l IH]; intros data; cbn; [done|].
  rewrite IH. by destruct (f p).
Qed.

Lemma fillLayer_finite src m dx dy bounds W H zeros :
  width bounds = Fin W -> height bounds = Fin H ->
  fillLayer src (Some m) (Fin dx) (Fin dy) bounds zeros
  = Ok (applyWrites zeros (layerWrites src m dx dy W H)).
Proof.
  intros HW HH. unfold fillLayer.
  rewrite (foldM_nested
             (fun ly => cellStep src (Some m) (Fin dx) (Fin dy) bounds ly)).
  erewrite foldM_ok.
  - by rewrite foldl_writes.
  - intros data [ly lx] _. cbn. by apply cellStep_finite.
Qed.

(** The grid of the merged layer for a source layer shifted by
    [(dx, dy)]. *)
Definition mergedData (src : RawTileLayer) (m : GidRemap) (dx dy W H : Z)
  : list Z :=
  applyWrites (replicate (Z.to_nat (W * H)) 0) (layerWrites src m dx dy W H).

(** The tile layers of all chunks in emission order, each with its chunk
    and the chunk's index. *)
Definition tileLayersOf (c : MapChunk) : list RawTileLayer :=
  omap (fun l => match l with TileLayer src => Some src | _ => None end)
       (tmj_layers (tmj c)).

Definition tileSources (chunks : list MapChunk)
  : list (nat * MapChunk * RawTileLayer) :=
  indexed chunks ≫= fun e => pair e <$> tileLayersOf e.2.

(** The [k]-th merged tile layer, made from source [s]. *)
Definition mergedTileLayer (x0 y0 W H : Z) (gidRemaps : list GidRemap)
    (k : nat) (s : nat * MapChunk * RawTileLayer) : RawTileLayer :=
  let rest := tl_base s.2 in
  {| tl_base :=
       {| id := Z.of_nat k + 1; name := name rest; opacity := opacity rest;
          visible := visible rest; x := Some 0; y := Some 0;
          properties := properties rest |};
     tl_width := W; tl_height := H;
     tl_data := mergedData s.2 (default ∅ (gidRemaps !! s.1.1))
                  (offsetX s.1.2 - x0) (offsetY s.1.2 - y0) W H |}.

Lemma newArrayFill0_ok W H :
  0 <= W * H < 2 ^ 32 ->
  newArrayFill0 (Js.mul (Fin W) (Fin H))
  = Ok (replicate (Z.to_nat (W * H)) 0).
Proof. intros Hwh. cbn. by rewrite bool_decide_true. Qed.

(** The loop over the layers of one chunk. *)
Lemma tileLayersLoop_finite bounds x0 y0 W H gidRemaps i c m layers :
  finiteBounds bounds x0 y0 W H ->
  0 <= W * H < 2 ^ 32 ->
  gidRemaps !! i = Some m ->
  forall acc,
    foldM (tileLayerStep bounds (Some m) (Fin (offsetX c - x0))
             (Fin (offsetY c - y0)))
          layers (acc, Z.of_nat (length acc) + 1)
    = let acc' :=
        acc ++ imap (fun j src =>
                       mergedTileLayer x0 y0 W H gidRemaps
                         (length acc + j) (i, c, src))
                 (omap (fun l => match l with
                                 | TileLayer src => Some src
                                 | _ => None
                                 end) layers) in
      Ok (acc', Z.of_nat (length acc') + 1).
Proof.
  intros Hb Hwh Hm. pose proof Hb as (HX & HY & HW & HH).
  induction layers as [|layer layers IH]; intros acc;
    cbn [foldM omap list_omap].
  - cbn. by rewrite app_nil_r.
  - destruct layer as [src| | |]; cbn [tileLayerStep bind]; try apply IH.
    rewrite HW, HH, newArrayFill0_ok by done. cbn [mbind result_bind bind].
    rewrite (fillLayer_finite _ _ _ _ _ W H) by done.
    unfold mbind, result_bind. cbn [bind Js.toZ].
    match goal with |- context [acc ++ [?d]] => set (dest := d) end.
    assert (Hdest : dest = mergedTileLayer x0 y0 W H gidRemaps
                             (length acc + 0) (i, c, src)).
    { unfold dest, mergedTileLayer, mergedData. cbn. rewrite Hm. cbn.
      do 3 f_equal. lia. }
    specialize (IH (acc ++ [dest])).
    rewrite length_app in IH. cbn [length] in IH.
    replace (Z.of_nat (length acc) + 1 + 1)
      with (Z.of_nat (length acc + 1) + 1) by lia.
    rewrite IH. cbn zeta. rewrite imap_cons, <- Hdest.
    rewrite <- !app_assoc. cbn [app].
    erewrite (imap_ext (fun j src' => mergedTileLayer _ _ _ _ _
                                      (length acc + 1 + j) _)); [done|].
    intros j src' _. cbn. f_equal. lia.
Qed.

(** The loop over the chunks. *)
Lemma tileChunksLoop_finite bounds x0 y0 W H gidRemaps entries :
  finiteBounds bounds x0 y0 W H ->
  0 <= W * H < 2 ^ 32 ->
  Forall (fun e : nat * MapChunk => is_Some (gidRemaps !! e.1)) entries ->
  forall acc,
    foldM (tileChunkStep bounds gidRemaps) entries
          (acc, Z.of_nat (length acc) + 1)
    = let acc' :=
        acc ++ imap (fun j s =>
                       mergedTileLayer x0 y0 W H gidRemaps (length acc + j) s)
                 (entries ≫= fun e => pair e <$> tileLayersOf e.2) in
      Ok (acc', Z.of_nat (length acc') + 1).
Proof.
  intros Hb Hwh Hall. pose proof Hb as (HX & HY & _).
  induction Hall as [|[i c] entries [m Hm] _ IH]; intros acc.
  - cbn. by rewrite app_nil_r.
  - cbn [foldM]. unfold tileChunkStep at 1. cbn [fst snd] in Hm.
    rewrite Hm, HX, HY. cbn [Js.sub Js.neg Js.add].
    replace (offsetX c + - x0) with (offsetX c - x0) by lia.
    replace (offsetY c + - y0) with (offsetY c - y0) by lia.
    rewrite (tileLayersLoop_finite bounds x0 y0 W H gidRemaps i c m)
      by done.
    cbn zeta. cbn [bind]. rewrite IH. cbn zeta.
    rewrite bind_cons, imap_app, imap_fmap, <- !app_assoc.
    rewrite !length_app, !length_imap, !length_fmap. unfold tileLayersOf.
    cbn [snd].
    erewrite (imap_ext (fun j s => mergedTileLayer _ _ _ _ _
                          (length acc + length (omap _ _) + j) s)); [done|].
    intros j s _. cbn. f_equal. lia.
Qed.

Lemma indexed_lookup {A} (l : list A) i x :
  TmjMerge.indexed l !! i = Some x <-> x.1 = i /\ l !! i = Some x.2.
Proof.
  unfold TmjMerge.indexed. destruct x as [j a].
  rewrite lookup_zip_Some, lookup_seq. cbn. split.
  - intros [[-> _] ?]. done.
  - intros [-> Ha]. split_and!; [done| |done]. by eapply lookup_lt_Some.
Qed.

Lemma indexed_elem {A} (l : list A) x :
  x ∈ TmjMerge.indexed l -> l !! x.1 = Some x.2.
Proof.
  intros [i Hi]%list_elem_of_lookup. apply indexed_lookup in Hi as [<- ?].
  done.
Qed.

(** [mergeTileLayers] on integer bounds: it returns one layer per source
    tile layer, unless the grid cannot be allocated. *)
Lemma mergeTileLayers_finite chunks bounds gidRemaps x0 y0 W H :
  finiteBounds bounds x0 y0 W H ->
  0 <= W * H < 2 ^ 32 ->
  (length chunks <= length gidRemaps)%nat ->
  mergeTileLayers chunks bounds gidRemaps
  = Ok (imap (mergedTileLayer x0 y0 W H gidRemaps) (tileSources chunks)).
Proof.
  intros Hb Hwh Hlen. unfold mergeTileLayers.
  assert (Hall : Forall (fun e : nat * MapChunk =>
                           is_Some (gidRemaps !! e.1))
                        (TmjMerge.indexed chunks)).
  { apply Forall_forall. intros e He%indexed_elem.
    apply lookup_lt_is_Some_2. apply lookup_lt_Some in He. lia. }
  pose proof (tileChunksLoop_finite bounds x0 y0 W H gidRemaps _ Hb Hwh
                Hall []) as Hloop.
  cbn [length app] in Hloop. change (Z.of_nat 0 + 1) with 1 in Hloop.
  unfold mbind, result_bind. by rewrite Hloop.
Qed.

(** The merged grid, cell by cell. *)
Lemma mergedData_length src m dx dy W H :
  length (mergedData src m dx dy W H) = Z.to_nat (W * H).
Proof. unfold mergedData. by rewrite applyWrites_length, length_replicate. Qed.

Lemma mergedData_kept src m dx dy W H p :
  p ∈ cells src -> kept src dx dy W H p ->
  mergedData src m dx dy W H !! gridIndex W (dx + p.2) (dy + p.1)
  = Some (remapped m (sourceGid src p)).
Proof.
  intros Hp Hk. unfold mergedData. apply applyWrites_written.
  - apply NoDup_layerWrites.
  - apply elem_of_layerWrites. eauto.
  - rewrite length_replicate. apply (gridIndex_lt W H), Hk.
Qed.

Lemma mergedData_nonzero src m dx dy W H i v :
  mergedData src m dx dy W H !! i = Some v -> v <> 0 ->
  exists p, p ∈ cells src /\ kept src dx dy W H p
    /\ i = gridIndex W (dx + p.2) (dy + p.1)
    /\ v = remapped m (sourceGid src p).
Proof.
  intros Hi Hv.
  destruct (decide (i ∈ (layerWrites src m dx dy W H).*1)) as [Hin|Hout].
  - apply list_elem_of_fmap in Hin as ([i' v'] & -> & Hw). cbn in Hi.
    pose proof Hw as (p & Hp & Hk & [= -> ->])%elem_of_layerWrites.
    exists p. split_and!; try done.
    rewrite (mergedData_kept _ _ _ _ _ _ _ Hp Hk) in Hi. congruence.
  - unfold mergedData in Hi. rewrite applyWrites_other in Hi by done.
    apply lookup_replicate in Hi as [-> _]. done.
Qed.

(** ** Where a source layer is emitted *)

(** The number of tile layers the chunks before the [i]-th hold. *)
Definition tileLayersBefore (chunks : list MapChunk) (i : nat) : nat :=
  length (take i chunks ≫= tileLayersOf).

(** [src] is a tile layer of [c], the [i]-th chunk, and the [k]-th tile
    layer of the chunks taken together: the one the [k]-th merged tile
    layer is made from. *)
Definition isTileSource (chunks : list MapChunk) (k i : nat) (c : MapChunk)
    (src : RawTileLayer) : Prop :=
  chunks !! i = Some c
  /\ exists q, tileLayersOf c !! q = Some src
       /\ k = (tileLayersBefore chunks i + q)%nat.

(** [l] lists, each once, the cells [(localY, localX)] with [P]. *)
Definition enumerates (l : list (Z * Z)) (P : Z -> Z -> Prop) : Prop :=
  NoDup l /\ forall localX localY, (localY, localX) ∈ l <-> P localX localY.

Lemma indexed_app_one {A} (l : list A) x :
  TmjMerge.indexed (l ++ [x]) = TmjMerge.indexed l ++ [(length l, x)].
Proof.
  unfold TmjMerge.indexed. rewrite length_app. cbn [length].
  rewrite seq_app. cbn [seq]. rewrite zip_with_app by by rewrite length_seq.
  done.
Qed.

Lemma tileSources_app_one chunks c :
  tileSources (chunks ++ [c])
  = tileSources chunks ++ (pair (length chunks, c) <$> tileLayersOf c).
Proof.
  unfold tileSources. rewrite indexed_app_one, bind_app. cbn.
  by rewrite app_nil_r.
Qed.

Lemma tileSources_length chunks :
  length (tileSources chunks) = length (chunks ≫= tileLayersOf).
Proof.
  induction chunks as [|c chunks IH] using rev_ind; [done|].
  rewrite tileSources_app_one, bind_app, !length_app, IH, length_fmap.
  cbn. by rewrite app_nil_r.
Qed.

Lemma tileSources_position chunks k i c src :
  isTileSource chunks k i c src -> tileSources chunks !! k = Some (i, c, src).
Proof.
  unfold isTileSource, tileLayersBefore. revert k.
  induction chunks as [|c' chunks IH] using rev_ind;
    intros k (Hi & q & Hq & ->); [by rewrite lookup_nil in Hi|].
  rewrite tileSources_app_one.
  apply lookup_snoc_Some in Hi as [[Hlt Hi]|[-> ->]].
  - rewrite take_app_le by lia. apply lookup_app_l_Some, IH. eauto.
  - rewrite take_app_length, <- tileSources_length.
    rewrite lookup_app_r by lia.
    replace (length (tileSources chunks) + q - length (tileSources chunks))%nat
      with q by lia.
    by rewrite list_lookup_fmap, Hq.
Qed.

(** ** Counting the tiles of a merged layer *)

Lemma countNonzero_insert_zero data i :
  data !! i = Some 0 -> countNonzero (<[i := 0]> data) = countNonzero data.
Proof. intros Hi. by rewrite list_insert_id. Qed.

Lemma applyWrites_count_nonzero data writes :
  NoDup writes.*1 ->
  Forall (fun w : nat * Z => data !! w.1 = Some 0) writes ->
  countNonzero (applyWrites data writes)
  = (countNonzero data
     + length (filter (fun w : nat * Z => w.2 <> 0%Z) writes))%nat.
Proof.
  revert data. induction writes as [|w ws IH]; intros data Hnd Hall;
    cbn [applyWrites foldl].
  - rewrite filter_nil. cbn. lia.
  - cbn in Hnd. apply NoDup_cons in Hnd as [Hw Hnd].
    apply Forall_cons in Hall as [Hz Hall].
    fold (applyWrites (<[w.1 := w.2]> data) ws). rewrite IH; [|done|].
    + rewrite filter_cons. destruct (decide (w.2 <> 0)) as [Hv|Hv].
      * rewrite countNonzero_insert by done. cbn. lia.
      * assert (w.2 = 0) as -> by lia.
        by rewrite countNonzero_insert_zero.
    + apply Forall_forall. intros w' Hw'.
      pose proof (proj1 (Forall_forall _ _) Hall w' Hw') as Hz'.
      rewrite list_lookup_insert_ne; [done|].
      intros E. apply Hw. rewrite E. by apply list_elem_of_fmap_2.
Qed.

Lemma length_filter_omap {A B} (f : A -> option B) (Q : B -> Prop)
    (P : A -> Prop) `{!forall b, Decision (Q b)} `{!forall a, Decision (P a)}
    l :
  (forall a, P a <-> exists b, f a = Some b /\ Q b) ->
  length (filter Q (omap f l)) = length (filter P l).
Proof.
  intros Hf. induction l as [|a l IH]; [done|].
  rewrite (filter_cons P). cbn [omap list_omap].
  destruct (f a) as [b|] eqn:Hb.
  - rewrite filter_cons. destruct (decide (Q b)) as [Hq|Hq].
    + rewrite decide_True by (apply Hf; eauto). cbn. by rewrite IH.
    + rewrite decide_False; [done|].
      intros (b' & Hb' & Hq')%Hf. congruence.
  - rewrite decide_False; [done|]. intros (b' & Hb' & _)%Hf. congruence.
Qed.

(** A source cell whose tile reaches the merged grid: it holds a tile,
    lands in the grid, and its GID is not remapped to 0. *)
Definition written (src : RawTileLayer) (m : GidRemap) (dx dy W H : Z)
    (p : Z * Z) : Prop :=
  kept src dx dy W H p /\ remapped m (sourceGid src p) <> 0.

Global Instance written_dec src m dx dy W H p :
  Decision (written src m dx dy W H p).
Proof. unfold written. apply _. Defined.

Lemma mergedData_count_written src m dx dy W H :
  countNonzero (mergedData src m dx dy W H)
  = length (filter (written src m dx dy W H) (cells src)).
Proof.
  unfold mergedData. rewrite applyWrites_count_nonzero.
  - rewrite countNonzero_replicate. cbn. unfold layerWrites.
    apply length_filter_omap. intros p. unfold written.
    setoid_rewrite cellWrite_Some. split.
    + intros [Hk Hr]. eexists. split; [split; [done|reflexivity]|done].
    + intros (b & [Hk ->] & Hq). done.
  - apply NoDup_layerWrites.
  - apply Forall_forall.
    intros w (p & Hp & Hk & ->)%elem_of_layerWrites. cbn.
    apply lookup_replicate_2, (gridIndex_lt W H), Hk.
Qed.

Lemma mergedData_enumerated src m dx dy W H :
  exists tiles,
    enumerates tiles (fun localX localY =>
      (0 <= localY < tl_height src) /\ (0 <= localX < tl_width src)
      /\ sourceGid src (localY, localX) <> 0
      /\ inGrid W H (dx + localX) (dy + localY)
      /\ remapped m (sourceGid src (localY, localX)) <> 0)
    /\ countNonzero (mergedData src m dx dy W H) = length tiles.
Proof.
  exists (filter (written src m dx dy W H) (cells src)). split; [split|].
  - apply NoDup_filter, NoDup_cells.
  - intros lx ly. rewrite list_elem_of_filter, elem_of_cells.
    unfold written, kept. cbn [fst snd]. tauto.
  - apply mergedData_count_written.
Qed.

(** ** The tileset a GID is remapped through *)

(** Of the tilesets of a document, [ts], listed at [j], is the last whose
    GID range holds [gid]: the only one, when the ranges are disjoint. *)
Definition ownsGid (tilesets : list RawTilesetRef) (j : nat)
    (ts : RawTilesetRef) (gid : Z) : Prop :=
  tilesets !! j = Some ts /\ covers gid ts
  /\ forall j' ts', (j < j')%nat -> tilesets !! j' = Some ts' ->
       ~ covers gid ts'.

Lemma ownsGid_sourceTileset tilesets j ts gid :
  ownsGid tilesets j ts gid -> sourceTileset tilesets gid = Some ts.
Proof.
  unfold ownsGid.
  induction tilesets as [|t tilesets IH] using rev_ind;
    intros (Hj & Hc & Hlast); [by rewrite lookup_nil in Hj|].
  rewrite sourceTileset_snoc.
  apply lookup_snoc_Some in Hj as [[Hlt Hj]|[-> ->]].
  - rewrite decide_False.
    + apply IH. split_and!; [done..|]. intros j' ts' Hlt' Hj'.
      apply (Hlast j' ts' Hlt'). by apply lookup_app_l_Some.
    + apply (Hlast (length tilesets) t Hlt).
      by rewrite lookup_app_r, Nat.sub_diag by lia.
  - by rewrite decide_True.
Qed.

(** In a document whose GID ranges are disjoint, a tileset owns every GID
    of its range. *)
Lemma ownsGid_disjoint tilesets j ts gid :
  (forall j1 j2 t1 t2 g,
     tilesets !! j1 = Some t1 -> tilesets !! j2 = Some t2 ->
     covers g t1 -> covers g t2 -> j1 = j2) ->
  tilesets !! j = Some ts -> covers gid ts -> ownsGid tilesets j ts gid.
Proof.
  intros Hdisj Hj Hc. split_and!; [done..|].
  intros j' ts' Hlt Hj' Hc'. specialize (Hdisj j j' ts ts' gid Hj Hj' Hc Hc').
  lia.
Qed.

(** The entry of a remap for a GID, through the tileset that owns it. *)
Lemma mergeTilesets_entry chunks i c j ts gid :
  chunks !! i = Some c ->
  ownsGid (tmj_tilesets (tmj c)) j ts gid ->
  exists gi G m,
    globalTilesets (mergeTilesets chunks) !! gi = Some G
    /\ sameIdentity G ts
    /\ (forall gj G', globalTilesets (mergeTilesets chunks) !! gj = Some G' ->
          sameIdentity G' ts -> gj = gi)
    /\ gidRemaps (mergeTilesets chunks) !! i = Some m
    /\ m !! gid = Some (firstgid G + (gid - firstgid ts)).
Proof.
  intros Hi Hown. pose proof (ownsGid_sourceTileset _ _ _ _ Hown) as Hts.
  destruct (mergeTilesets_remap chunks i c Hi) as (Hknown & m & Hm & Hent).
  pose proof (sourceTileset_elem _ _ _ Hts) as [Hin Hcov].
  destruct (Hknown ts Hin) as [[gi G] HG].
  pose proof HG as (HGi & HGk & _)%list_find_Some.
  exists gi, G, m. split_and!; try done.
  - by apply tilesetKey_sameIdentity.
  - intros gj G' HG' Hsame.
    apply (mergeTilesets_globals_of_key chunks gj gi G' G); [done..|].
    apply tilesetKey_sameIdentity in Hsame. congruence.
  - rewrite Hent. unfold remapEntry. rewrite Hts.
    cbn [mbind option_bind]. by rewrite HG.
Qed.

Section TileLayerStatements.
Import Samples.

(** C4 as the specification words it fails: a source cell that holds a
    tile and lands in the grid is lost when its GID is remapped to 0.  Here
    the map fills the bounds, its layer holds two tiles, and the merged
    layer holds one. *)
Lemma mergeTileLayers_drops_gid_remapped_to_0 :
  let chunks := [chunkShrunk] in
  let src := ground [1; 2; 0; 0; 0; 0; 0; 0; 0; 0; 0; 0; 0; 0; 0; 0] in
  computeBounds chunks
  = {| minX := Fin 0; minY := Fin 0; maxX := Fin 4; maxY := Fin 4;
       width := Fin 4; height := Fin 4 |}
  /\ tileLayersOf chunkShrunk = [src]
  /\ gidRemaps (mergeTilesets chunks) !! 0%nat
     = Some {[ 1 := 0; 2 := 1; 3 := 2; 4 := 3 ]}
  /\ exists dest,
       mergeTileLayers chunks (computeBounds chunks)
         (gidRemaps (mergeTilesets chunks))
       = Ok [dest]
       /\ tl_data dest = [0; 1; 0; 0; 0; 0; 0; 0; 0; 0; 0; 0; 0; 0; 0; 0]
       /\ sourceGid src (0, 0) = 1
       /\ inGrid 4 4 (0 - 0 + 0) (0 - 0 + 0)
       /\ tl_data dest !! gridIndex 4 (0 - 0 + 0) (0 - 0 + 0) = Some 0
       /\ countNonzero (tl_data src) = 2%nat
       /\ countNonzero (tl_data dest) = 1%nat.
Proof.
  split_and!; [reflexivity|reflexivity|by vm_compute|].
  eexists. split; [by vm_compute|].
  split_and!; try reflexivity. unfold inGrid. lia.
Qed.

(** C4, as the code has it.  On integer bounds whose grid can be
    allocated, [mergeTileLayers] returns one layer per source tile layer,
    in order, without error.  In the layer made from a source layer of a
    chunk at [(offsetX, offsetY)], every source cell [(localX, localY)]
    with a nonzero GID whose destination
    [(offsetX - minX + localX, offsetY - minY + localY)] lies in
    [[0, width) x [0, height)] is written there with its remapped GID,
    nothing else is written (cells that land outside are dropped), and the
    number of nonzero cells of the layer is the number of those source
    cells whose remapped GID is not 0. *)
Theorem mergeTileLayers_cells (chunks : list MapChunk) (bounds : Bounds)
    (gidRemaps : list GidRemap) (x0 y0 W H : Z) :
  finiteBounds bounds x0 y0 W H ->
  0 <= W * H < 2 ^ 32 ->
  (length chunks <= length gidRemaps)%nat ->
  exists layers,
    mergeTileLayers chunks bounds gidRemaps = Ok layers
    /\ length layers = length (chunks ≫= tileLayersOf)
    /\ forall k i c src,
         isTileSource chunks k i c src ->
         exists dest m,
           layers !! k = Some dest /\ gidRemaps !! i = Some m
           /\ length (tl_data dest) = Z.to_nat (W * H)
           /\ (forall localX localY,
                 0 <= localY < tl_height src -> 0 <= localX < tl_width src ->
                 sourceGid src (localY, localX) <> 0 ->
                 inGrid W H (offsetX c - x0 + localX)
                            (offsetY c - y0 + localY) ->
                 tl_data dest !! gridIndex W (offsetX c - x0 + localX)
                                            (offsetY c - y0 + localY)
                 = Some (remapped m (sourceGid src (localY, localX))))
           /\ (forall d v,
                 tl_data dest !! d = Some v -> v <> 0 ->
                 exists localX localY,
                   (0 <= localY < tl_height src)
                   /\ (0 <= localX < tl_width src)
                   /\ sourceGid src (localY, localX) <> 0
                   /\ inGrid W H (offsetX c - x0 + localX)
                                 (offsetY c - y0 + localY)
                   /\ d = gridIndex W (offsetX c - x0 + localX)
                                      (offsetY c - y0 + localY))
           /\ exists tiles,
                enumerates tiles (fun localX localY =>
                  (0 <= localY < tl_height src)
                  /\ (0 <= localX < tl_width src)
                  /\ sourceGid src (localY, localX) <> 0
                  /\ inGrid W H (offsetX c - x0 + localX)
                                (offsetY c - y0 + localY)
                  /\ remapped m (sourceGid src (localY, localX)) <> 0)
                /\ countNonzero (tl_data dest) = length tiles.
Proof.
  intros Hb Hwh Hlen. eexists. split; [|split].
  - by apply (mergeTileLayers_finite chunks bounds gidRemaps x0 y0 W H).
  - by rewrite length_imap, tileSources_length.
  - intros k i c src Hsrc. pose proof Hsrc as [Hi _].
    apply tileSources_position in Hsrc as Hk.
    destruct (lookup_lt_is_Some_2 gidRemaps i) as [m Hm].
    { apply lookup_lt_Some in Hi. lia. }
    eexists _, m. rewrite list_lookup_imap, Hk.
    cbn [fmap option_fmap option_map].
    split; [done|]. split; [done|]. cbn [mergedTileLayer tl_data fst snd].
    rewrite Hm. cbn [default]. split_and!.
    + apply mergedData_length.
    + intros lx ly Hly Hlx Hg Hin.
      apply (mergedData_kept src m _ _ W H (ly, lx)); [|done].
      by apply elem_of_cells.
    + intros d v Hd Hv.
      destruct (mergedData_nonzero _ _ _ _ _ _ _ _ Hd Hv)
        as ([ly lx] & [Hly Hlx]%elem_of_cells & [Hg Hin] & -> & _).
      by exists lx, ly.
    + apply mergedData_enumerated.
Qed.

Lemma mergeTileLayers_cells_sample :
  exists layers,
    mergeTileLayers [chunkA; chunkB] (computeBounds [chunkA; chunkB])
      (gidRemaps (mergeTilesets [chunkA; chunkB]))
    = Ok layers
    /\ length layers = 2%nat
    /\ tl_data <$> layers
       = [ [1; 2; 0; 0; 0; 0; 0; 0;   3; 4; 0; 0; 0; 0; 0; 0;
            0; 0; 0; 0; 0; 0; 0; 0;   0; 0; 0; 1; 0; 0; 0; 0];
           [0; 0; 0; 0; 1; 2; 0; 0;   0; 0; 0; 0; 3; 4; 0; 0;
            0; 0; 0; 0; 5; 0; 0; 0;   0; 0; 0; 0; 0; 0; 0; 6] ]
    /\ countNonzero <$> (tl_data <$> layers) = [5%nat; 6%nat].
Proof.
  destruct (mergeTileLayers_cells [chunkA; chunkB]
              (computeBounds [chunkA; chunkB])
              (gidRemaps (mergeTilesets [chunkA; chunkB])) 0 0 8 4)
    as (layers & Hok & Hlen & _).
  - repeat split.
  - lia.
  - vm_compute. lia.
  - exists layers. split; [exact Hok|]. split; [exact Hlen|].
    vm_compute in Hok. injection Hok as <-. split; reflexivity.
Defined.

(** C2 as the specification words it fails: the remap does not send
    [ts.firstgid + local] to [globalTs.firstgid + local] for every local
    tile index of every tileset.  A remap holds one entry per GID, and
    where the ranges of two tilesets of a document overlap, the entry is
    that of the tileset listed last: here the third tile of the first
    tileset, GID 3, is sent to the first tile of the second, and so is the
    cell that holds it. *)
Lemma gid_remap_overlap_last_wins :
  let chunks := [chunkOverlap] in
  let ts := terrain 1 in
  let local := 2 in
  tmj_tilesets (tmj chunkOverlap) !! 0%nat = Some ts
  /\ (0 <= local < default 0 (tilecount ts))
  /\ globalTilesets (mergeTilesets chunks) = [terrain 1; props 5]
  /\ sameIdentity (terrain 1) ts
  /\ (exists m,
        gidRemaps (mergeTilesets chunks) !! 0%nat = Some m
        /\ m !! (firstgid ts + local) = Some 5
        /\ m !! (firstgid ts + local)
           <> Some (firstgid (terrain 1) + local))
  /\ exists dest,
       mergeTileLayers chunks (computeBounds chunks)
         (gidRemaps (mergeTilesets chunks))
       = Ok [dest]
       /\ tl_data dest !! 0%nat = Some 5
       /\ 5 - firstgid (terrain 1) <> firstgid ts + local - firstgid ts.
Proof.
  cbn zeta. split; [reflexivity|]. split; [cbn; lia|].
  split; [reflexivity|]. split; [by apply tilesetKey_sameIdentity|]. split.
  - eexists. split; [by vm_compute|]. split; [by vm_compute|].
    vm_compute. discriminate.
  - eexists. split; [by vm_compute|]. split; [reflexivity|]. cbn. lia.
Qed.

(** C2, as the code has it.  Let [ts] be a tileset of a chunk and [local]
    one of its tile indices, such that no tileset listed after [ts] in the
    chunk's document also holds the GID [ts.firstgid + local] (as is the
    case for every tile index when the GID ranges of the document are
    disjoint).  Then the chunk's remap sends [ts.firstgid + local] to
    [G.firstgid + local], where [G] is the one global tileset with the
    identity of [ts].  And a tile cell of a source layer that holds such a
    GID and lands in the merged grid holds, in the merged layer, a GID whose
    distance from [G.firstgid] is the distance of the source GID from
    [ts.firstgid]. *)
Theorem gid_remap_preserves_tile (chunks : list MapChunk) (bounds : Bounds)
    (x0 y0 W H : Z) :
  finiteBounds bounds x0 y0 W H ->
  0 <= W * H < 2 ^ 32 ->
  let merged := mergeTilesets chunks in
  (forall i c j ts local,
     chunks !! i = Some c ->
     tmj_tilesets (tmj c) !! j = Some ts ->
     0 <= local < default 0 (tilecount ts) ->
     (forall j' ts', (j < j')%nat -> tmj_tilesets (tmj c) !! j' = Some ts' ->
        ~ covers (firstgid ts + local) ts') ->
     exists gi G m,
       globalTilesets merged !! gi = Some G /\ sameIdentity G ts
       /\ (forall gj G', globalTilesets merged !! gj = Some G' ->
             sameIdentity G' ts -> gj = gi)
       /\ gidRemaps merged !! i = Some m
       /\ m !! (firstgid ts + local) = Some (firstgid G + local))
  /\ exists layers,
       mergeTileLayers chunks bounds (gidRemaps merged) = Ok layers
       /\ forall k i c src j ts localX localY,
            isTileSource chunks k i c src ->
            0 <= localY < tl_height src -> 0 <= localX < tl_width src ->
            let gid := sourceGid src (localY, localX) in
            gid <> 0 ->
            ownsGid (tmj_tilesets (tmj c)) j ts gid ->
            inGrid W H (offsetX c - x0 + localX) (offsetY c - y0 + localY) ->
            exists gi G dest newGid,
              globalTilesets merged !! gi = Some G /\ sameIdentity G ts
              /\ layers !! k = Some dest
              /\ tl_data dest !! gridIndex W (offsetX c - x0 + localX)
                                            (offsetY c - y0 + localY)
                 = Some newGid
              /\ newGid - firstgid G = gid - firstgid ts.
Proof.
  intros Hb Hwh merged. subst merged. split.
  { intros i c j ts local Hi Hj Hlocal Hlast.
    destruct (mergeTilesets_entry chunks i c j ts (firstgid ts + local) Hi)
      as (gi & G & m & HG & Hsame & Huniq & Hm & Hent).
    { split_and!; [done| |done]. unfold covers. lia. }
    exists gi, G, m. split_and!; try done.
    rewrite Hent. f_equal. lia. }
  eexists. split.
  { apply (mergeTileLayers_finite chunks bounds _ x0 y0 W H); [done..|].
    by rewrite mergeTilesets_length. }
  intros k i c src j ts lx ly Hsrc Hly Hlx gid Hg Hown Hgrid.
  pose proof Hsrc as [Hi _]. apply tileSources_position in Hsrc as Hk.
  destruct (mergeTilesets_entry chunks i c j ts gid Hi Hown)
    as (gi & G & m & HG & Hsame & _ & Hm & Hent).
  eexists gi, G, _, _. split; [done|]. split; [done|].
  rewrite list_lookup_imap, Hk. cbn [fmap option_fmap option_map].
  split; [done|]. cbn [mergedTileLayer tl_data fst snd].
  rewrite Hm. cbn [default].
  rewrite (mergedData_kept src m _ _ W H (ly, lx))
    by (by apply elem_of_cells || done).
  split; [done|]. unfold remapped. cbn [fst snd]. fold gid.
  rewrite Hent. cbn. lia.
Qed.

Lemma gid_remap_preserves_tile_sample :
  exists m layers dest,
    gidRemaps (mergeTilesets [chunkA; chunkB]) !! 1%nat = Some m
    /\ m !! 5 = Some 3
    /\ mergeTileLayers [chunkA; chunkB] (computeBounds [chunkA; chunkB])
         (gidRemaps (mergeTilesets [chunkA; chunkB]))
       = Ok layers
    /\ layers !! 1%nat = Some dest
    /\ tl_data dest !! gridIndex 8 (4 - 0 + 0) (0 - 0 + 1) = Some 3.
Proof.
  destruct (gid_remap_preserves_tile [chunkA; chunkB]
              (computeBounds [chunkA; chunkB]) 0 0 8 4)
    as (Hremap & layers & Hok & Hcells).
  - repeat split.
  - lia.
  - destruct (Hremap 1%nat chunkB 1%nat (terrain 3) 2)
      as (gi & G & m & HG & _ & Huniq & Hm & Hent).
    + reflexivity.
    + reflexivity.
    + cbn. lia.
    + intros j' ts' Hlt Hj'. apply lookup_lt_Some in Hj'.
      change (j' < 2)%nat in Hj'. lia.
    + destruct (Hcells 1%nat 1%nat chunkB
                  (ground [3; 4; 0; 0; 5; 6; 0; 0; 1; 0; 0; 0; 0; 0; 0; 2])
                  1%nat (terrain 3) 0 1)
        as (gi' & G' & dest & newGid & HG' & Hsame' & Hdest & Hcell & Hdiff).
      * split; [reflexivity|]. exists 0%nat. split; reflexivity.
      * cbn. lia.
      * cbn. lia.
      * discriminate.
      * split; [reflexivity|].
        replace (sourceGid _ _) with 5 by reflexivity.
        split; [unfold covers; cbn; lia|].
        intros j' ts' Hlt Hj'. apply lookup_lt_Some in Hj'.
        change (j' < 2)%nat in Hj'. lia.
      * unfold inGrid. cbn. lia.
      * exists m, layers, dest.
        assert (gi = 0%nat) as ->.
        { symmetry. apply (Huniq 0%nat (terrain 1)); [reflexivity|].
          by apply tilesetKey_sameIdentity. }
        assert (gi' = 0%nat) as ->.
        { apply (Huniq gi' G' HG' Hsame'). }
        vm_compute in HG, HG'. injection HG as <-. injection HG' as <-.
        replace (sourceGid _ _) with 5 in Hdiff by reflexivity.
        cbn in Hdiff, Hent. assert (newGid = 3) as -> by lia.
        split; [exact Hm|]. split; [exact Hent|]. split; [exact Hok|].
        split; [exact Hdest|exact Hcell].
Defined.

End TileLayerStatements.

(** ** Layer and object ids *)

Definition layerId (l : RawLayer) : Z :=
  match l with
  | TileLayer t => id (tl_base t)
  | ObjectGroup g => id (og_base g)
  | ImageLayer b _ | GroupLayer b _ => id b
  end.

Definition objectIds (g : RawObjectGroup) : list Z :=
  obj_id <$> og_objects g.

Definition objectGroupsOf (c : MapChunk) : list RawObjectGroup :=
  omap (fun l => match l with ObjectGroup g => Some g | _ => None end)
       (tmj_layers (tmj c)).

(** The object groups of all chunks in emission order. *)
Definition groupSources (chunks : list MapChunk) : list RawObjectGroup :=
  chunks ≫= objectGroupsOf.

Lemma seqZ_snoc m (n : nat) :
  seqZ m (Z.of_nat n) ++ [m + Z.of_nat n] = seqZ m (Z.of_nat (Datatypes.S n)).
Proof.
  replace (Z.of_nat (Datatypes.S n)) with (Z.of_nat n + 1) by lia.
  rewrite seqZ_app by lia. done.
Qed.

(** The state [(mergedLayers, nextLayerId)] after [n] layers. *)
Definition tileIdsInv (n : nat) (st : list RawTileLayer * Z) : Prop :=
  length st.1 = n
  /\ (fun t => id (tl_base t)) <$> st.1 = seqZ 1 (Z.of_nat n)
  /\ st.2 = Z.of_nat n + 1.

Lemma tileLayerStep_ids bounds remap ox oy n st layer st' :
  tileIdsInv n st ->
  tileLayerStep bounds remap ox oy st layer = Ok st' ->
  tileIdsInv (n + length (omap (fun l => match l with
                                         | TileLayer src => Some src
                                         | _ => None
                                         end) [layer])) st'.
Proof.
  intros (Hlen & Hids & Hnext). destruct st as [acc next]. cbn in *.
  destruct layer as [src| | |]; cbn;
    try (intros [= <-]; rewrite Nat.add_0_r; by split_and!).
  destruct (newArrayFill0 _) as [zeros|]; cbn; [|done].
  destruct (fillLayer _ _ _ _ _ _) as [data|]; cbn; [|done].
  intros [= <-]. split_and!; cbn.
  - rewrite length_app. cbn. lia.
  - rewrite fmap_app, Hids. cbn. rewrite Hnext.
    replace (n + 1)%nat with (Datatypes.S n) by lia.
    rewrite <- seqZ_snoc. do 2 f_equal. lia.
  - lia.
Qed.

Lemma tileLayersLoop_ids bounds remap ox oy layers : forall n st st',
  tileIdsInv n st ->
  foldM (tileLayerStep bounds remap ox oy) layers st = Ok st' ->
  tileIdsInv (n + length (omap (fun l => match l with
                                         | TileLayer src => Some src
                                         | _ => None
                                         end) layers)) st'.
Proof.
  induction layers as [|layer layers IH]; intros n st st' Hinv; cbn [foldM].
  - intros [= <-]. by rewrite Nat.add_0_r.
  - destruct (tileLayerStep bounds remap ox oy st layer) as [st1|] eqn:Hstep;
      cbn [bind]; [|done].
    intros Hrest.
    pose proof (tileLayerStep_ids _ _ _ _ _ _ _ _ Hinv Hstep) as H1.
    pose proof (IH _ _ _ H1 Hrest) as Hfin.
    replace (layer :: layers) with ([layer] ++ layers) by done.
    rewrite omap_app, length_app. by rewrite Nat.add_assoc.
Qed.

Lemma tileChunksLoop_ids bounds gidRemaps entries : forall n st st',
  tileIdsInv n st ->
  foldM (tileChunkStep bounds gidRemaps) entries st = Ok st' ->
  tileIdsInv (n + length (entries ≫= fun e => pair e <$> tileLayersOf e.2))
    st'.
Proof.
  induction entries as [|[i c] entries IH]; intros n st st' Hinv;
    cbn [foldM].
  - intros [= <-]. by rewrite Nat.add_0_r.
  - destruct (tileChunkStep bounds gidRemaps st (i, c)) as [st1|] eqn:Hstep;
      cbn [bind]; [|done].
    intros Hrest. unfold tileChunkStep in Hstep.
    pose proof (tileLayersLoop_ids _ _ _ _ _ _ _ _ Hinv Hstep) as H1.
    pose proof (IH _ _ _ H1 Hrest) as Hfin.
    rewrite bind_cons, length_app, length_fmap. unfold tileLayersOf at 1.
    cbn [snd]. by rewrite Nat.add_assoc.
Qed.

(** The tile layers [mergeTileLayers] returns are numbered from 1. *)
Lemma mergeTileLayers_ids chunks bounds gidRemaps layers :
  mergeTileLayers chunks bounds gidRemaps = Ok layers ->
  length layers = length (tileSources chunks)
  /\ (fun t => id (tl_base t)) <$> layers
     = seqZ 1 (Z.of_nat (length (tileSources chunks))).
Proof.
  unfold mergeTileLayers, mbind, result_bind.
  destruct (foldM _ _ _) as [st|] eqn:Hloop; cbn [bind]; [|done].
  intros [= <-].
  assert (Hinit : tileIdsInv 0 (([] : list RawTileLayer), 1))
    by (repeat split).
  destruct (tileChunksLoop_ids _ _ _ 0 _ _ Hinit Hloop)
    as (Hlen & Hids & _).
  by split.
Qed.

(** The loop over the objects of one group numbers them from [n]. *)
Lemma objectsLoop_ids remap px py objs : forall acc n st',
  foldM (objectStep remap px py) objs (acc, n) = Ok st' ->
  obj_id <$> st'.1 = (obj_id <$> acc) ++ seqZ n (Z.of_nat (length objs))
  /\ st'.2 = n + Z.of_nat (length objs).
Proof.
  induction objs as [|obj objs IH]; intros acc n st'; cbn [foldM].
  - intros [= <-]. cbn. rewrite app_nil_r. split; [done|lia].
  - unfold objectStep at 1. unfold mbind, result_bind.
    destruct (match obj_gid obj with
              | Some g => _
              | None => _
              end) as [gid|]; cbn [bind]; [|done].
    intros (Hids & Hn)%IH. split; [|cbn [length]; lia].
    rewrite Hids, fmap_app, <- app_assoc. cbn [fmap list_fmap app length].
    f_equal. rewrite (seqZ_cons n) by lia. do 2 f_equal; lia.
Qed.

(** The state [(mergedGroups, nextGroupId, nextObjectId)] after [n] groups
    holding [nobj] objects. *)
Definition groupIdsInv (n nobj : nat) (st : list RawObjectGroup * Z * Z)
  : Prop :=
  length st.1.1 = n
  /\ (fun g => id (og_base g)) <$> st.1.1 = seqZ 1 (Z.of_nat n)
  /\ st.1.2 = Z.of_nat n + 1
  /\ st.1.1 ≫= objectIds = seqZ 1 (Z.of_nat nobj)
  /\ st.2 = Z.of_nat nobj + 1.

Definition asObjectGroup (l : RawLayer) : option RawObjectGroup :=
  match l with ObjectGroup g => Some g | _ => None end.

Lemma objectGroupStep_ids remap px py n nobj st layer st' :
  groupIdsInv n nobj st ->
  objectGroupStep remap px py st layer = Ok st' ->
  groupIdsInv (n + length (omap asObjectGroup [layer]))
    (nobj + length (omap asObjectGroup [layer] ≫= og_objects)) st'.
Proof.
  intros (Hlen & Hids & Hnext & Hobjs & Hnobj).
  destruct st as [[acc next] nextObj]. cbn in *.
  destruct layer as [|src| |]; cbn;
    try (intros [= <-]; rewrite !Nat.add_0_r; by split_and!).
  unfold mbind, result_bind.
  destruct (foldM _ _ _) as [[objects n']|] eqn:Hloop; cbn [bind]; [|done].
  apply objectsLoop_ids in Hloop as [Hoids Hn']. cbn in Hoids, Hn'.
  intros [= <-]. rewrite app_nil_r. split_and!; cbn.
  - rewrite length_app. cbn. lia.
  - rewrite fmap_app, Hids. cbn. rewrite Hnext.
    replace (n + 1)%nat with (Datatypes.S n) by lia.
    rewrite <- seqZ_snoc. do 2 f_equal. lia.
  - lia.
  - rewrite bind_app, Hobjs. cbn. rewrite app_nil_r.
    rewrite Hoids, Hnobj, Nat2Z.inj_add, seqZ_app by lia.
    do 2 f_equal. lia.
  - lia.
Qed.

Lemma objectGroupsLoop_ids remap px py layers : forall n nobj st st',
  groupIdsInv n nobj st ->
  foldM (objectGroupStep remap px py) layers st = Ok st' ->
  groupIdsInv (n + length (omap asObjectGroup layers))
    (nobj + length (omap asObjectGroup layers ≫= og_objects)) st'.
Proof.
  induction layers as [|layer layers IH]; intros n nobj st st' Hinv;
    cbn [foldM].
  - intros [= <-]. by rewrite !Nat.add_0_r.
  - destruct (objectGroupStep remap px py st layer) as [st1|] eqn:Hstep;
      cbn [bind]; [|done].
    intros Hrest.
    pose proof (objectGroupStep_ids _ _ _ _ _ _ _ _ Hinv Hstep) as H1.
    pose proof (IH _ _ _ _ H1 Hrest) as Hfin.
    replace (layer :: layers) with ([layer] ++ layers) by done.
    rewrite omap_app, bind_app, !length_app. by rewrite !Nat.add_assoc.
Qed.

Lemma objectChunksLoop_ids bounds gidRemaps tw th entries :
  forall n nobj st st',
  groupIdsInv n nobj st ->
  foldM (objectChunkStep bounds gidRemaps tw th) entries st = Ok st' ->
  groupIdsInv (n + length (entries.*2 ≫= objectGroupsOf))
    (nobj + length ((entries.*2 ≫= objectGroupsOf) ≫= og_objects)) st'.
Proof.
  induction entries as [|[i c] entries IH]; intros n nobj st st' Hinv;
    cbn [foldM].
  - intros [= <-]. by rewrite !Nat.add_0_r.
  - destruct (objectChunkStep bounds gidRemaps tw th st (i, c))
      as [st1|] eqn:Hstep; cbn [bind]; [|done].
    intros Hrest. unfold objectChunkStep in Hstep.
    pose proof (objectGroupsLoop_ids _ _ _ _ _ _ _ _ Hinv Hstep) as H1.
    pose proof (IH _ _ _ _ H1 Hrest) as Hfin.
    cbn [fmap list_fmap snd]. rewrite bind_cons, bind_app, !length_app.
    unfold objectGroupsOf at 1 3. fold asObjectGroup.
    by rewrite !Nat.add_assoc.
Qed.

Lemma indexed_snd {A} (l : list A) : (TmjMerge.indexed l).*2 = l.
Proof. unfold TmjMerge.indexed. apply snd_zip. by rewrite length_seq. Qed.

(** The object groups [mergeObjectGroups] returns are numbered from 1, and
    so are their objects, across the groups. *)
Lemma mergeObjectGroups_ids chunks bounds gidRemaps tw th groups :
  mergeObjectGroups chunks bounds gidRemaps tw th = Ok groups ->
  length groups = length (groupSources chunks)
  /\ (fun g => id (og_base g)) <$> groups
     = seqZ 1 (Z.of_nat (length (groupSources chunks)))
  /\ groups ≫= objectIds
     = seqZ 1 (Z.of_nat (length (groupSources chunks ≫= og_objects))).
Proof.
  unfold mergeObjectGroups, mbind, result_bind.
  destruct (foldM _ _ _) as [st|] eqn:Hloop; cbn [bind]; [|done].
  intros [= <-].
  assert (Hinit : groupIdsInv 0 0 (([] : list RawObjectGroup), 1, 1))
    by (repeat split).
  destruct (objectChunksLoop_ids _ _ _ _ _ 0 0 _ _ Hinit Hloop)
    as (Hlen & Hids & _ & Hobjs & _).
  rewrite indexed_snd in *. by split_and!.
Qed.

Section IdStatements.
Import Samples.

(** C6, as the code has it.  The layers of a merged document are the
    merged tile layers followed by the merged object groups, one per source
    tile layer and one per source object group.  The tile layers carry the
    ids 1, 2, ... in emission order; the object groups carry the ids
    1, 2, ... in emission order, from a counter of their own; the copied
    objects carry the ids 1, 2, ... across all groups in emission order. *)
Theorem merged_ids_per_kind (chunks : list MapChunk) (merged : RawTmj) :
  mergeTmjMaps chunks = Ok merged ->
  exists tileLayers objectGroups,
    tmj_layers merged
    = (TileLayer <$> tileLayers) ++ (ObjectGroup <$> objectGroups)
    /\ length tileLayers = length (tileSources chunks)
    /\ length objectGroups = length (groupSources chunks)
    /\ layerId <$> tmj_layers merged
       = seqZ 1 (Z.of_nat (length tileLayers))
         ++ seqZ 1 (Z.of_nat (length objectGroups))
    /\ objectGroups ≫= objectIds
       = seqZ 1 (Z.of_nat (length (groupSources chunks ≫= og_objects))).
Proof.
  unfold mergeTmjMaps. destruct chunks as [|first rest]; [done|].
  unfold mbind, result_bind.
  destruct (foldM _ _ ()) as [[]|]; cbn [bind]; [|done].
  destruct (mergeTileLayers _ _ _) as [tls|] eqn:Htl; cbn [bind]; [|done].
  destruct (mergeObjectGroups _ _ _ _ _) as [ogs|] eqn:Hog; cbn [bind];
    [|done].
  intros [= <-]. cbn [tmj_layers].
  apply mergeTileLayers_ids in Htl as [Htlen Htids].
  apply mergeObjectGroups_ids in Hog as (Hglen & Hgids & Hoids).
  exists tls, ogs. split_and!; try done.
  rewrite fmap_app, <- !list_fmap_compose.
  by rewrite Htlen, Hglen, <- Htids, <- Hgids.
Qed.

Lemma merged_ids_per_kind_sample :
  exists merged tileLayers objectGroups,
    mergeTmjMaps [chunkA; chunkB] = Ok merged
    /\ tmj_layers merged
       = (TileLayer <$> tileLayers) ++ (ObjectGroup <$> objectGroups)
    /\ layerId <$> tmj_layers merged = [1; 2; 1; 2]
    /\ objectGroups ≫= objectIds = [1; 2; 3].
Proof.
  destruct (mergeTmjMaps [chunkA; chunkB]) as [merged|e] eqn:Hm;
    [|vm_compute in Hm; discriminate].
  destruct (merged_ids_per_kind [chunkA; chunkB] merged Hm)
    as (tls & ogs & Hl & Ht & Hg & Hids & Hobjs).
  exists merged, tls, ogs. split; [reflexivity|]. split; [exact Hl|].
  split.
  - rewrite Hids, Ht, Hg. reflexivity.
  - rewrite Hobjs. reflexivity.
Defined.

(** C6 as the specification words it fails: the ids are not one sequence
    over all layers of the merged document.  Merging a single chunk with
    one tile layer and one object group gives both layers the id 1. *)
Lemma merged_layer_ids_restart :
  exists merged,
    mergeTmjMaps [chunkA] = Ok merged
    /\ layerId <$> tmj_layers merged = [1; 1]
    /\ layerId <$> tmj_layers merged
       <> seqZ 1 (Z.of_nat (length (tmj_layers merged))).
Proof.
  eexists. split; [by vm_compute|]. split; [reflexivity|]. by vm_compute.
Qed.

End IdStatements.

(** ** The merge depends on the relative placement only *)

(** [a + d] for an integer [d]. *)
Definition shiftNum (d : Z) (a : num) : num := Js.add a (Fin d).

(** A chunk moved by [(dx, dy)] tiles. *)
Definition shiftChunk (dx dy : Z) (c : MapChunk) : MapChunk :=
  {| chunk_id := chunk_id c; tmj := tmj c;
     offsetX := offsetX c + dx; offsetY := offsetY c + dy |}.

Definition shiftBounds (dx dy : Z) (b : Bounds) : Bounds :=
  {| minX := shiftNum dx (minX b); minY := shiftNum dy (minY b);
     maxX := shiftNum dx (maxX b); maxY := shiftNum dy (maxY b);
     width := width b; height := height b |}.

Lemma min_shift d a x :
  Js.min (shiftNum d a) (Fin (x + d)) = shiftNum d (Js.min a (Fin x)).
Proof. destruct a; cbn; f_equal; lia. Qed.

Lemma max_shift d c x w :
  Js.max (shiftNum d c) (Js.add (Fin (x + d)) w)
  = shiftNum d (Js.max c (Js.add (Fin x) w)).
Proof. destruct c, w; cbn; f_equal; lia. Qed.

Lemma sub_shift d c a : Js.sub (shiftNum d c) (shiftNum d a) = Js.sub c a.
Proof. destruct c, a; cbn; f_equal; lia. Qed.

Lemma sub_shift_offset d x a :
  Js.sub (Fin (x + d)) (shiftNum d a) = Js.sub (Fin x) a.
Proof. destruct a; cbn; f_equal; lia. Qed.

Lemma boundsLoop_shift dx dy chunks : forall a b c d,
  foldl boundsStep (shiftNum dx a, shiftNum dy b, shiftNum dx c, shiftNum dy d)
        (shiftChunk dx dy <$> chunks)
  = let '(a', b', c', d') := foldl boundsStep (a, b, c, d) chunks in
    (shiftNum dx a', shiftNum dy b', shiftNum dx c', shiftNum dy d').
Proof.
  induction chunks as [|chunk chunks IH]; intros a b c d; [done|].
  cbn [fmap list_fmap foldl]. unfold boundsStep at 2 4.
  cbn [shiftChunk tmj offsetX offsetY].
  rewrite !min_shift, !max_shift. apply IH.
Qed.

Lemma computeBounds_shift dx dy chunks :
  computeBounds (shiftChunk dx dy <$> chunks)
  = shiftBounds dx dy (computeBounds chunks).
Proof.
  unfold computeBounds.
  pose proof (boundsLoop_shift dx dy chunks PosInf PosInf NegInf NegInf)
    as Hloop.
  change (shiftNum dx PosInf) with PosInf in Hloop.
  change (shiftNum dy PosInf) with PosInf in Hloop.
  change (shiftNum dx NegInf) with NegInf in Hloop.
  change (shiftNum dy NegInf) with NegInf in Hloop.
  rewrite Hloop.
  destruct (foldl boundsStep _ chunks) as [[[a b] c] d].
  unfold shiftBounds. cbn [minX minY maxX maxY width height].
  by rewrite !sub_shift.
Qed.

Lemma indexed_fmap {A B} (f : A -> B) (l : list A) :
  TmjMerge.indexed (f <$> l) = prod_map Datatypes.id f <$> TmjMerge.indexed l.
Proof.
  unfold TmjMerge.indexed. rewrite length_fmap.
  generalize (seq 0 (length l)). induction l as [|a l IH]; intros [|i ns];
    cbn; try done.
  by rewrite IH.
Qed.

Lemma foldM_fmap {S X Y} (body : S -> Y -> result S) (h : X -> Y) l s :
  foldM body (h <$> l) s = foldM (fun s x => body s (h x)) l s.
Proof.
  revert s. induction l as [|x l IH]; intros s; [done|].
  cbn [fmap list_fmap foldM]. destruct (body s (h x)); cbn [bind]; [|done].
  apply IH.
Qed.

Lemma foldM_ext {S X} (body body' : S -> X -> result S) l s :
  (forall s x, body s x = body' s x) -> foldM body l s = foldM body' l s.
Proof.
  intros Hext. revert s. induction l as [|x l IH]; intros s; [done|].
  cbn [foldM]. rewrite Hext. destruct (body' s x); cbn [bind]; [|done].
  apply IH.
Qed.

Lemma mergeTilesets_shift dx dy chunks :
  mergeTilesets (shiftChunk dx dy <$> chunks) = mergeTilesets chunks.
Proof.
  unfold mergeTilesets, mergeTilesetsLoop.
  rewrite indexed_fmap, <- list_fmap_compose, foldl_fmap. done.
Qed.

Lemma mergeTileLayers_shift dx dy chunks bounds gidRemaps :
  mergeTileLayers (shiftChunk dx dy <$> chunks) (shiftBounds dx dy bounds)
    gidRemaps
  = mergeTileLayers chunks bounds gidRemaps.
Proof.
  unfold mergeTileLayers. rewrite indexed_fmap, foldM_fmap.
  rewrite (foldM_ext _ (tileChunkStep bounds gidRemaps)); [done|].
  intros st [i c]. unfold tileChunkStep, prod_map.
  cbn [fst snd shiftChunk shiftBounds offsetX offsetY tmj minX minY].
  rewrite !sub_shift_offset. done.
Qed.

Lemma mergeObjectGroups_shift dx dy chunks bounds gidRemaps tw th :
  mergeObjectGroups (shiftChunk dx dy <$> chunks) (shiftBounds dx dy bounds)
    gidRemaps tw th
  = mergeObjectGroups chunks bounds gidRemaps tw th.
Proof.
  unfold mergeObjectGroups. rewrite indexed_fmap, foldM_fmap.
  rewrite (foldM_ext _ (objectChunkStep bounds gidRemaps tw th)); [done|].
  intros st [i c]. unfold objectChunkStep, prod_map.
  cbn [fst snd shiftChunk shiftBounds offsetX offsetY tmj minX minY].
  rewrite !sub_shift_offset. done.
Qed.

(** [mergeTmjMaps] on a list that is not empty. *)
Lemma mergeTmjMaps_cons first rest :
  mergeTmjMaps (first :: rest)
  = let chunks := first :: rest in
    let tw := tmj_tilewidth (tmj first) in
    let th := tmj_tileheight (tmj first) in
    bind (foldM (validateStep tw th) chunks ()) (fun _ =>
    let bounds := computeBounds chunks in
    let merged := mergeTilesets chunks in
    bind (mergeTileLayers chunks bounds (gidRemaps merged)) (fun tileLayers =>
    bind (mergeObjectGroups chunks bounds (gidRemaps merged) tw th)
      (fun objectGroups =>
    Ok {| tmj_height := height bounds;
          tmj_width := width bounds;
          tmj_tileheight := th;
          tmj_tilewidth := tw;
          tmj_layers :=
            (TileLayer <$> tileLayers) ++ (ObjectGroup <$> objectGroups);
          tmj_tilesets := globalTilesets merged;
          orientation := orientation (tmj first);
          renderorder := renderorder (tmj first);
          infinite := infinite (tmj first);
          tmj_properties := tmj_properties (tmj first) |}))).
Proof. reflexivity. Qed.

(** Moving every chunk by the same number of tiles changes nothing of the
    merge: neither whether it fails and how, nor the document it returns. *)
Theorem mergeTmjMaps_translation (dx dy : Z) (chunks : list MapChunk) :
  mergeTmjMaps (shiftChunk dx dy <$> chunks) = mergeTmjMaps chunks.
Proof.
  destruct chunks as [|first rest]; [done|].
  rewrite fmap_cons, !mergeTmjMaps_cons, <- fmap_cons. cbn zeta.
  cbn [shiftChunk tmj]. rewrite foldM_fmap.
  rewrite (foldM_ext _ (validateStep (tmj_tilewidth (tmj first))
                          (tmj_tileheight (tmj first)))) by done.
  rewrite computeBounds_shift, mergeTilesets_shift.
  rewrite mergeTileLayers_shift, mergeObjectGroups_shift. done.
Qed.

(** ** Object groups: what is copied and what is rewritten *)

(** The object [mergeObjectGroups] writes for [obj]: a new id, the position
    moved by the chunk's offset in pixels, the GID looked up in the chunk's
    remap, everything else copied. *)
Definition movedObject (m : GidRemap) (px py : num) (newId : Z)
    (obj : RawObject) : RawObject :=
  {| obj_id := newId; obj_name := obj_name obj; obj_type := obj_type obj;
     obj_x := Js.add (obj_x obj) px; obj_y := Js.add (obj_y obj) py;
     obj_width := obj_width obj; obj_height := obj_height obj;
     obj_rotation := obj_rotation obj;
     obj_properties := obj_properties obj;
     obj_gid := remapped m <$> obj_gid obj |}.

(** The group written for [src]: a new id, the other layer fields copied
    (its [x] and [y] too), the objects moved. *)
Definition movedGroup (m : GidRemap) (px py : num) (src dest : RawObjectGroup)
  : Prop :=
  og_base dest
  = {| id := id (og_base dest); name := name (og_base src);
       opacity := opacity (og_base src); visible := visible (og_base src);
       x := x (og_base src); y := y (og_base src);
       properties := properties (og_base src) |}
  /\ Forall2 (fun obj obj' => obj' = movedObject m px py (obj_id obj') obj)
       (og_objects src) (og_objects dest).

(** The object groups of the chunks with their chunk and its index, in the
    order [mergeObjectGroups] meets them. *)
Definition groupSourcesOf (entries : list (nat * MapChunk))
  : list (nat * MapChunk * RawObjectGroup) :=
  entries ≫= fun e => pair e <$> objectGroupsOf e.2.

(** The chunk's offset in pixels, as [mergeObjectGroups] computes it. *)
Definition offsetPixels (offset : Z) (lo : num) (tileSize : Z) : num :=
  Js.mul (Js.sub (Fin offset) lo) (Fin tileSize).

Definition mergedGroup (bounds : Bounds) (gidRemaps : list GidRemap)
    (tw th : Z) (s : nat * MapChunk * RawObjectGroup) (dest : RawObjectGroup)
  : Prop :=
  exists m, gidRemaps !! s.1.1 = Some m
    /\ movedGroup m (offsetPixels (offsetX s.1.2) (minX bounds) tw)
         (offsetPixels (offsetY s.1.2) (minY bounds) th) s.2 dest.

Lemma objectsLoop_moved m px py objs : forall acc n,
  exists objs',
    foldM (objectStep (Some m) px py) objs (acc, n)
    = Ok (acc ++ objs', n + Z.of_nat (length objs))
    /\ Forall2 (fun obj obj' => obj' = movedObject m px py (obj_id obj') obj)
         objs objs'.
Proof.
  induction objs as [|obj objs IH]; intros acc n.
  - exists []. cbn. rewrite app_nil_r, Z.add_0_r. by split.
  - cbn [foldM]. unfold objectStep at 1. unfold mbind, result_bind.
    set (newObj := movedObject m px py n obj).
    assert (Hgid : match obj_gid obj with
                   | Some g => bind (remapGid (Some m) g)
                                 (fun g' => Ok (Some g'))
                   | None => Ok None
                   end = Ok (remapped m <$> obj_gid obj)).
    { by destruct (obj_gid obj). }
    rewrite Hgid. cbn [bind].
    destruct (IH (acc ++ [newObj]) (n + 1)) as (objs' & Hloop & Hall).
    exists (newObj :: objs'). split; [|by constructor].
    etransitivity; [exact Hloop|].
    rewrite <- app_assoc. cbn [app length]. do 2 f_equal. lia.
Qed.

Lemma objectGroupsLoop_moved m px py layers : forall acc n nobj,
  exists groups n' nobj',
    foldM (objectGroupStep (Some m) px py) layers (acc, n, nobj)
    = Ok (acc ++ groups, n', nobj')
    /\ Forall2 (movedGroup m px py) (omap asObjectGroup layers) groups.
Proof.
  induction layers as [|layer layers IH]; intros acc n nobj.
  - exists [], n, nobj. cbn. rewrite app_nil_r. by split.
  - cbn [foldM omap list_omap].
    destruct layer as [|src| |]; cbn [objectGroupStep asObjectGroup bind];
      try apply IH.
    unfold mbind, result_bind.
    destruct (objectsLoop_moved m px py (og_objects src) [] nobj)
      as (objs' & -> & Hobjs).
    cbn [bind app].
    match goal with |- context [acc ++ [?d]] => set (dest := d) end.
    destruct (IH (acc ++ [dest]) (n + 1) (nobj + Z.of_nat (length (og_objects src))))
      as (groups & n' & nobj' & Hloop & Hall).
    exists (dest :: groups), n', nobj'. split.
    + etransitivity; [exact Hloop|]. by rewrite <- app_assoc.
    + constructor; [|done]. by split.
Qed.

Lemma objectChunksLoop_moved bounds gidRemaps tw th entries :
  Forall (fun e : nat * MapChunk => is_Some (gidRemaps !! e.1)) entries ->
  forall acc n nobj,
  exists groups n' nobj',
    foldM (objectChunkStep bounds gidRemaps tw th) entries (acc, n, nobj)
    = Ok (acc ++ groups, n', nobj')
    /\ Forall2 (mergedGroup bounds gidRemaps tw th) (groupSourcesOf entries)
         groups.
Proof.
  induction 1 as [|[i c] entries [m Hm] _ IH]; intros acc n nobj.
  - exists [], n, nobj. cbn. rewrite app_nil_r. by split.
  - cbn [foldM]. unfold objectChunkStep at 1. cbn [fst snd] in Hm.
    rewrite Hm.
    destruct (objectGroupsLoop_moved m
                (offsetPixels (offsetX c) (minX bounds) tw)
                (offsetPixels (offsetY c) (minY bounds) th)
                (tmj_layers (tmj c)) acc n nobj)
      as (groups1 & n1 & nobj1 & Hloop1 & Hall1).
    unfold offsetPixels in Hloop1. rewrite Hloop1. cbn [bind].
    destruct (IH (acc ++ groups1) n1 nobj1)
      as (groups2 & n2 & nobj2 & Hloop2 & Hall2).
    exists (groups1 ++ groups2), n2, nobj2. rewrite Hloop2, <- app_assoc.
    split; [done|]. unfold groupSourcesOf. rewrite bind_cons.
    apply Forall2_app; [|done]. apply Forall2_fmap_l.
    eapply Forall2_impl; [exact Hall1|].
    intros src dest Hmoved. exists m. by split.
Qed.

Section ObjectStatements.
Import Samples.

(** With a remap for every chunk [mergeObjectGroups] does not fail.  It
    returns one group per source object group, in order, with the source's
    layer fields but the id; every object is copied in place but for its id,
    its position, moved by the chunk's offset from the bounds' minimum times
    the tile size, and its GID, looked up in the chunk's remap. *)
Theorem mergeObjectGroups_objects (chunks : list MapChunk) (bounds : Bounds)
    (gidRemaps : list GidRemap) (tw th x0 y0 : Z) :
  minX bounds = Fin x0 -> minY bounds = Fin y0 ->
  (length chunks <= length gidRemaps)%nat ->
  exists groups,
    mergeObjectGroups chunks bounds gidRemaps tw th = Ok groups
    /\ length groups = length (groupSourcesOf (TmjMerge.indexed chunks))
    /\ forall k i c src,
         groupSourcesOf (TmjMerge.indexed chunks) !! k = Some (i, c, src) ->
         exists dest m,
           groups !! k = Some dest /\ gidRemaps !! i = Some m
           /\ og_base dest
              = {| id := id (og_base dest); name := name (og_base src);
                   opacity := opacity (og_base src);
                   visible := visible (og_base src);
                   x := x (og_base src); y := y (og_base src);
                   properties := properties (og_base src) |}
           /\ length (og_objects dest) = length (og_objects src)
           /\ forall j obj,
                og_objects src !! j = Some obj ->
                exists obj',
                  og_objects dest !! j = Some obj'
                  /\ obj' = movedObject m (Fin ((offsetX c - x0) * tw))
                              (Fin ((offsetY c - y0) * th)) (obj_id obj') obj.
Proof.
  intros HX HY Hlen.
  assert (Hall : Forall (fun e : nat * MapChunk =>
                           is_Some (gidRemaps !! e.1))
                        (TmjMerge.indexed chunks)).
  { apply Forall_forall. intros e He%indexed_elem.
    apply lookup_lt_is_Some_2. apply lookup_lt_Some in He. lia. }
  destruct (objectChunksLoop_moved bounds gidRemaps tw th _ Hall [] 1 1)
    as (groups & n' & nobj' & Hloop & Hgroups).
  exists groups. unfold mergeObjectGroups, mbind, result_bind.
  rewrite Hloop. cbn [bind fst app]. split; [done|].
  split; [symmetry; by eapply Forall2_length|].
  intros k i c src Hk.
  destruct (Forall2_lookup_l _ _ _ _ _ Hgroups Hk)
    as (dest & Hdest & m & Hm & Hbase & Hobjs).
  cbn [fst snd] in Hm, Hbase, Hobjs. exists dest, m.
  split_and!; try done.
  - symmetry. by eapply Forall2_length.
  - intros j obj Hj.
    destruct (Forall2_lookup_l _ _ _ _ _ Hobjs Hj) as (obj' & Hj' & Hobj').
    exists obj'. split; [done|]. rewrite Hobj' at 1.
    unfold offsetPixels. rewrite HX, HY. cbn [Js.sub Js.neg Js.add Js.mul].
    by rewrite <- !Z.sub_opp_r, !Z.opp_involutive.
Qed.

Lemma mergeObjectGroups_objects_sample :
  exists groups,
    mergeObjectGroups [chunkA; chunkB] (computeBounds [chunkA; chunkB])
      (gidRemaps (mergeTilesets [chunkA; chunkB])) 16 16
    = Ok groups
    /\ length groups = 2%nat.
Proof.
  destruct (mergeObjectGroups_objects [chunkA; chunkB]
              (computeBounds [chunkA; chunkB])
              (gidRemaps (mergeTilesets [chunkA; chunkB])) 16 16 0 0)
    as (groups & Hres & Hlen & _).
  - reflexivity.
  - reflexivity.
  - vm_compute. lia.
  - exists groups. split; [exact Hres|exact Hlen].
Defined.

End ObjectStatements.

(** ** When the merge succeeds *)

Definition asTileLayer (l : RawLayer) : option RawTileLayer :=
  match l with TileLayer src => Some src | _ => None end.

(** Without a tile layer nothing is allocated, whatever the bounds. *)
Lemma tileLayersLoop_none bounds remap ox oy layers st :
  omap asTileLayer layers = [] ->
  foldM (tileLayerStep bounds remap ox oy) layers st = Ok st.
Proof.
  induction layers as [|layer layers IH]; intros Hnone; [done|].
  cbn [foldM]. destruct layer; cbn in Hnone |- *; try done; by apply IH.
Qed.

(** The first tile layer stops the loop when the grid cannot be
    allocated. *)
Lemma tileLayersLoop_alloc bounds remap ox oy e layers : forall st,
  newArrayFill0 (Js.mul (width bounds) (height bounds)) = Throw e ->
  foldM (tileLayerStep bounds remap ox oy) layers st
  = match omap asTileLayer layers with [] => Ok st | _ => Throw e end.
Proof.
  intros st Halloc. induction layers as [|layer layers IH]; [done|].
  cbn [foldM]. destruct layer as [src| | |]; cbn [tileLayerStep bind];
    try apply IH.
  destruct st as [acc next]. unfold mbind, result_bind.
  by rewrite Halloc.
Qed.

Lemma tileChunksLoop_alloc bounds gidRemaps e entries : forall st,
  newArrayFill0 (Js.mul (width bounds) (height bounds)) = Throw e ->
  foldM (tileChunkStep bounds gidRemaps) entries st
  = match entries ≫= (fun en => pair en <$> tileLayersOf en.2) with
    | [] => Ok st
    | _ => Throw e
    end.
Proof.
  intros st Halloc. induction entries as [|[i c] entries IH]; [done|].
  cbn [foldM]. unfold tileChunkStep at 1.
  rewrite (tileLayersLoop_alloc _ _ _ _ e) by done.
  rewrite bind_cons. cbn [snd].
  change (tileLayersOf c) with (omap asTileLayer (tmj_layers (tmj c))).
  destruct (omap asTileLayer (tmj_layers (tmj c))) as [|src srcs];
    cbn [bind fmap list_fmap app]; [apply IH|done].
Qed.

Lemma tileChunksLoop_none bounds gidRemaps entries : forall st,
  entries ≫= (fun en => pair en <$> tileLayersOf en.2) = [] ->
  foldM (tileChunkStep bounds gidRemaps) entries st = Ok st.
Proof.
  intros st. induction entries as [|[i c] entries IH]; [done|].
  rewrite bind_cons. intros [Hc Hrest]%app_eq_nil.
  cbn [foldM]. unfold tileChunkStep at 1.
  rewrite tileLayersLoop_none; [by apply IH|].
  cbn [snd] in Hc.
  change (tileLayersOf c) with (omap asTileLayer (tmj_layers (tmj c))) in Hc.
  by destruct (omap asTileLayer _).
Qed.

Lemma newArrayFill0_fail W H :
  ~ (0 <= W * H < 2 ^ 32) ->
  newArrayFill0 (Js.mul (Fin W) (Fin H))
  = Throw (RangeError "Invalid array length").
Proof. intros Hwh. cbn. by rewrite bool_decide_false. Qed.

Lemma mergeObjectGroups_ok chunks bounds gidRemaps tw th :
  (length chunks <= length gidRemaps)%nat ->
  exists groups, mergeObjectGroups chunks bounds gidRemaps tw th = Ok groups.
Proof.
  intros Hlen.
  assert (Hall : Forall (fun e : nat * MapChunk =>
                           is_Some (gidRemaps !! e.1))
                        (TmjMerge.indexed chunks)).
  { apply Forall_forall. intros e He%indexed_elem.
    apply lookup_lt_is_Some_2. apply lookup_lt_Some in He. lia. }
  destruct (objectChunksLoop_moved bounds gidRemaps tw th _ Hall [] 1 1)
    as (groups & n' & nobj' & Hloop & _).
  exists groups. unfold mergeObjectGroups, mbind, result_bind.
  by rewrite Hloop.
Qed.

(** A huge map: 65536 x 65536 tiles with one tile layer. *)
Definition chunkHuge : MapChunk :=
  {| chunk_id := "huge";
     tmj := {| tmj_height := Fin 65536; tmj_width := Fin 65536;
               tmj_tileheight := 16; tmj_tilewidth := 16;
               tmj_layers := [TileLayer (Samples.ground [1])];
               tmj_tilesets := [Samples.terrain 1];
               orientation := "orthogonal"; renderorder := "right-down";
               infinite := None; tmj_properties := None |};
     offsetX := 0; offsetY := 0 |}.

Section MergeStatements.
Import Samples.

(** When no chunk fails the validation, the bounds are integers and the
    grid can be allocated (or there is no tile layer to allocate it for),
    [mergeTmjMaps] returns a document: of the size of the bounds, with the
    first chunk's tile size, orientation, render order, [infinite] and
    properties, the global tilesets, and one layer per source tile layer
    followed by one per source object group.  Image and group layers are
    dropped. *)
Theorem mergeTmjMaps_succeeds (first : MapChunk) (rest : list MapChunk)
    (x0 y0 W H : Z) :
  let chunks := first :: rest in
  let template := tmj first in
  Forall (fun c => offends (tmj_tilewidth template) (tmj_tileheight template)
                     c = false) chunks ->
  finiteBounds (computeBounds chunks) x0 y0 W H ->
  tileSources chunks = [] \/ 0 <= W * H < 2 ^ 32 ->
  exists tileLayers objectGroups,
    mergeTmjMaps chunks
    = Ok {| tmj_height := Fin H; tmj_width := Fin W;
            tmj_tileheight := tmj_tileheight template;
            tmj_tilewidth := tmj_tilewidth template;
            tmj_layers :=
              (TileLayer <$> tileLayers) ++ (ObjectGroup <$> objectGroups);
            tmj_tilesets := globalTilesets (mergeTilesets chunks);
            orientation := orientation template;
            renderorder := renderorder template;
            infinite := infinite template;
            tmj_properties := tmj_properties template |}
    /\ length tileLayers = length (tileSources chunks)
    /\ length objectGroups = length (groupSources chunks).
Proof.
  intros chunks template Hvalid Hb Halloc.
  pose proof Hb as (_ & _ & HW & HH).
  assert (Htiles : exists tileLayers,
    mergeTileLayers chunks (computeBounds chunks)
      (gidRemaps (mergeTilesets chunks)) = Ok tileLayers).
  { destruct Halloc as [Hnone|Hwh].
    - exists []. unfold mergeTileLayers, mbind, result_bind.
      by rewrite tileChunksLoop_none.
    - eexists. apply (mergeTileLayers_finite _ _ _ x0 y0 W H); try done.
      by rewrite mergeTilesets_length. }
  destruct Htiles as [tileLayers Htiles].
  destruct (mergeObjectGroups_ok chunks (computeBounds chunks)
              (gidRemaps (mergeTilesets chunks))
              (tmj_tilewidth template) (tmj_tileheight template))
    as [objectGroups Hgroups]; [by rewrite mergeTilesets_length|].
  exists tileLayers, objectGroups. split.
  - unfold chunks. rewrite mergeTmjMaps_cons. cbn zeta.
    fold chunks template. rewrite validate_pass by done. cbn [bind].
    rewrite Htiles. cbn [bind]. rewrite Hgroups. cbn [bind].
    by rewrite HW, HH.
  - split.
    + by apply mergeTileLayers_ids in Htiles as [? _].
    + by apply mergeObjectGroups_ids in Hgroups as [? _].
Qed.

Lemma mergeTmjMaps_succeeds_sample :
  exists merged,
    mergeTmjMaps [chunkA; chunkB] = Ok merged
    /\ tmj_width merged = Fin 8 /\ tmj_height merged = Fin 4
    /\ length (tmj_layers merged) = 4%nat.
Proof.
  destruct (mergeTmjMaps_succeeds chunkA [chunkB] 0 0 8 4)
    as (tileLayers & objectGroups & Hres & Ht & Hg).
  - repeat constructor.
  - repeat split.
  - right. lia.
  - eexists. split; [exact Hres|]. cbn [tmj_width tmj_height tmj_layers].
    split; [done|]. split; [done|].
    rewrite length_app, !length_fmap, Ht, Hg. reflexivity.
Defined.

(** When the validation passes and the bounds are integers but their
    product is no array length, the merge of chunks with a tile layer fails
    with the [RangeError] of [new Array]. *)
Theorem mergeTmjMaps_grid_too_large (first : MapChunk)
    (rest : list MapChunk) (x0 y0 W H : Z) :
  let chunks := first :: rest in
  Forall (fun c => offends (tmj_tilewidth (tmj first))
                     (tmj_tileheight (tmj first)) c = false) chunks ->
  finiteBounds (computeBounds chunks) x0 y0 W H ->
  tileSources chunks <> [] ->
  ~ (0 <= W * H < 2 ^ 32) ->
  mergeTmjMaps chunks = Throw (RangeError "Invalid array length").
Proof.
  intros chunks Hvalid Hb Hsome Hwh. pose proof Hb as (_ & _ & HW & HH).
  unfold chunks. rewrite mergeTmjMaps_cons. cbn zeta. fold chunks.
  rewrite validate_pass by done. cbn [bind].
  unfold mergeTileLayers, mbind, result_bind.
  rewrite (tileChunksLoop_alloc _ _ (RangeError "Invalid array length")).
  - fold (tileSources chunks). by destruct (tileSources chunks).
  - rewrite HW, HH. by apply newArrayFill0_fail.
Qed.

Lemma mergeTmjMaps_grid_too_large_sample :
  mergeTmjMaps [chunkHuge] = Throw (RangeError "Invalid array length").
Proof.
  apply (mergeTmjMaps_grid_too_large chunkHuge [] 0 0 65536 65536).
  - repeat constructor.
  - repeat split.
  - discriminate.
  - vm_compute. intros [_ Hlt]. discriminate Hlt.
Defined.

End MergeStatements.

(** ** The remaps [mergeTilesets] hands to the layer loops *)

Lemma sumTilecounts_nonneg l :
  Forall (fun ts => 0 <= default 0 (tilecount ts)) l -> 0 <= sumTilecounts l.
Proof. induction 1; cbn; lia. Qed.

Lemma sumTilecounts_split i l :
  sumTilecounts l = sumTilecounts (take i l) + sumTilecounts (drop i l).
Proof. by rewrite <- sumTilecounts_app, take_drop. Qed.

Lemma globals_firstgid chunks i G :
  globalTilesets (mergeTilesets chunks) !! i = Some G ->
  firstgid G
  = 1 + sumTilecounts (take i (globalTilesets (mergeTilesets chunks))).
Proof.
  rewrite mergeTilesets_globals. intros HG.
  rewrite sumTilecounts_take_assign.
  by apply assignFirstGids_lookup in HG as (ts & _ & ->).
Qed.

(** A global tileset has the key, and so the tile count, of a tileset of a
    chunk. *)
Lemma globals_from_chunks chunks G :
  G ∈ globalTilesets (mergeTilesets chunks) ->
  exists ts, ts ∈ allTilesets chunks /\ tilesetKey G = tilesetKey ts.
Proof.
  rewrite mergeTilesets_globals. intros HG.
  assert (Hk : tilesetKey G
               ∈ tilesetKey <$> firstOccurrences [] (allTilesets chunks)).
  { rewrite <- (assignFirstGids_keys 1). by apply list_elem_of_fmap_2. }
  apply firstOccurrences_keys in Hk as [Hk _].
  apply list_elem_of_fmap in Hk as (ts & Hkey & Hts). by exists ts.
Qed.

Lemma tilecount_of_key ts ts' :
  tilesetKey ts = tilesetKey ts' -> tilecount ts = tilecount ts'.
Proof. intros Hk. exact (f_equal key_tilecount Hk). Qed.

Lemma globals_nonneg chunks :
  (forall ts, ts ∈ allTilesets chunks -> 0 <= default 0 (tilecount ts)) ->
  Forall (fun G => 0 <= default 0 (tilecount G))
    (globalTilesets (mergeTilesets chunks)).
Proof.
  intros Hnn. apply Forall_forall. intros G (ts & Hts & Hk)%globals_from_chunks.
  rewrite (tilecount_of_key _ _ Hk). by apply Hnn.
Qed.

(** A global tileset's range ends where the ranges of all of them end, or
    before. *)
Lemma globals_range_end chunks i G :
  (forall ts, ts ∈ allTilesets chunks -> 0 <= default 0 (tilecount ts)) ->
  globalTilesets (mergeTilesets chunks) !! i = Some G ->
  1 <= firstgid G
  /\ firstgid G + default 0 (tilecount G)
     <= 1 + sumTilecounts (globalTilesets (mergeTilesets chunks)).
Proof.
  intros Hnn HG. pose proof (globals_nonneg chunks Hnn) as Hall.
  rewrite (globals_firstgid _ _ _ HG).
  pose proof (sumTilecounts_nonneg _ (Forall_take _ i _ Hall)) as Hpre.
  split; [lia|].
  rewrite (sumTilecounts_split i (globalTilesets (mergeTilesets chunks))).
  rewrite (drop_S _ _ _ HG). cbn [sumTilecounts].
  pose proof (sumTilecounts_nonneg _ (Forall_drop _ (Datatypes.S i) _ Hall)).
  lia.
Qed.

Lemma sourceTileset_Some tilesets gid :
  is_Some (sourceTileset tilesets gid)
  <-> exists ts, ts ∈ tilesets /\ covers gid ts.
Proof.
  split.
  - intros [ts Hts]. exists ts. by apply sourceTileset_elem.
  - intros (ts & Hts & Hc). unfold sourceTileset.
    assert (Hin : ts ∈ filter (covers gid) tilesets)
      by (by apply list_elem_of_filter).
    destruct (filter (covers gid) tilesets) as [|t l] eqn:Hf using rev_ind.
    + by apply elem_of_nil in Hin.
    + rewrite last_snoc. by eexists.
Qed.

(** What a remap of [mergeTilesets] holds, entry by entry. *)
Lemma remap_entry chunks i c m gid g' :
  chunks !! i = Some c ->
  gidRemaps (mergeTilesets chunks) !! i = Some m ->
  m !! gid = Some g' ->
  exists ts j G,
    sourceTileset (tmj_tilesets (tmj c)) gid = Some ts
    /\ globalTilesets (mergeTilesets chunks) !! j = Some G
    /\ findGlobal (globalTilesets (mergeTilesets chunks)) (tilesetKey ts)
       = Some (j, G)
    /\ tilesetKey G = tilesetKey ts
    /\ g' = firstgid G + (gid - firstgid ts).
Proof.
  intros Hc Hm Hg.
  destruct (mergeTilesets_remap chunks i c Hc) as (_ & m' & Hm' & Hent).
  rewrite Hm in Hm'. injection Hm' as <-. rewrite Hent in Hg.
  unfold remapEntry in Hg.
  destruct (sourceTileset _ gid) as [ts|] eqn:Hsrc; [|done].
  cbn [mbind option_bind] in Hg.
  destruct (findGlobal _ (tilesetKey ts)) as [[j G]|] eqn:HG; [|done].
  cbn in Hg. injection Hg as <-. exists ts, j, G.
  unfold findGlobal in HG. pose proof HG as (Hj & Hk & _)%list_find_Some.
  by split_and!.
Qed.

Lemma remap_range chunks i c m gid g' :
  (forall ts, ts ∈ allTilesets chunks -> 0 <= default 0 (tilecount ts)) ->
  chunks !! i = Some c ->
  gidRemaps (mergeTilesets chunks) !! i = Some m ->
  m !! gid = Some g' ->
  1 <= g' <= sumTilecounts (globalTilesets (mergeTilesets chunks)).
Proof.
  intros Hnn Hc Hm Hg.
  destruct (remap_entry chunks i c m gid g' Hc Hm Hg)
    as (ts & j & G & Hsrc & Hj & _ & Hk & ->).
  apply sourceTileset_elem in Hsrc as [_ Hcov]. unfold covers in Hcov.
  destruct (globals_range_end chunks j G Hnn Hj) as [Hlo Hhi].
  rewrite (tilecount_of_key _ _ Hk) in Hhi. lia.
Qed.

Section RemapStatements.
Import Samples.

(** [mergeTilesets] returns one remap per chunk.  When no tile count is
    negative, a remap has an entry for exactly the GIDs that a tileset of
    its chunk covers, and the new GIDs lie among those of the global
    tilesets, [1 .. total]: none is 0, the empty cell. *)
Theorem mergeTilesets_remaps (chunks : list MapChunk) :
  (forall ts, ts ∈ allTilesets chunks -> 0 <= default 0 (tilecount ts)) ->
  let merged := mergeTilesets chunks in
  length (gidRemaps merged) = length chunks
  /\ Forall (map_Forall (fun _ v => v <> 0)) (gidRemaps merged)
  /\ forall i c, chunks !! i = Some c ->
       exists m, gidRemaps merged !! i = Some m
         /\ (forall gid, is_Some (m !! gid)
               <-> exists ts, ts ∈ tmj_tilesets (tmj c) /\ covers gid ts)
         /\ (forall gid g', m !! gid = Some g' ->
               1 <= g' <= sumTilecounts (globalTilesets merged)).
Proof.
  intros Hnn merged.
  pose proof (fun i c m gid g' => remap_range chunks i c m gid g' Hnn)
    as Hrange.
  split; [apply mergeTilesets_length|]. split.
  - apply Forall_forall. intros m [i Hm]%list_elem_of_lookup.
    assert (is_Some (chunks !! i)) as [c Hc].
    { apply lookup_lt_is_Some_2. apply lookup_lt_Some in Hm.
      unfold merged in Hm. by rewrite mergeTilesets_length in Hm. }
    intros gid g' Hg. pose proof (Hrange i c m gid g' Hc Hm Hg). lia.
  - intros i c Hc.
    destruct (mergeTilesets_remap chunks i c Hc) as (Hknown & m & Hm & Hent).
    exists m. split; [done|]. split; [|by eauto].
    intros gid. rewrite Hent, <- sourceTileset_Some. unfold remapEntry.
    split.
    + intros [g' Hg]. by destruct (sourceTileset _ gid).
    + intros [ts Hsrc]. rewrite Hsrc. cbn [mbind option_bind].
      apply sourceTileset_elem in Hsrc as [Hts _].
      destruct (Hknown ts Hts) as [G ->]. by eexists.
Qed.

Lemma mergeTilesets_remaps_sample :
  length (gidRemaps (mergeTilesets [chunkA; chunkB])) = 2%nat
  /\ Forall (map_Forall (fun _ v => v <> 0))
       (gidRemaps (mergeTilesets [chunkA; chunkB])).
Proof.
  destruct (mergeTilesets_remaps [chunkA; chunkB]) as (Hlen & Hnz & _).
  - intros ts Hts. cbn in Hts.
    repeat (apply elem_of_cons in Hts as [->|Hts]; [cbn; lia|]).
    by apply elem_of_nil in Hts.
  - split; [exact Hlen|exact Hnz].
Defined.

End RemapStatements.

(** ** No tile is lost *)

Lemma filter_ext_elem {A} (P Q : A -> Prop) `{!forall a, Decision (P a)}
    `{!forall a, Decision (Q a)} (l : list A) :
  (forall a, a ∈ l -> P a <-> Q a) -> filter P l = filter Q l.
Proof.
  induction l as [|a l IH]; intros Hext; [done|].
  rewrite !filter_cons.
  rewrite IH by (intros b Hb; apply Hext; by right).
  pose proof (Hext a ltac:(left)) as Ha.
  destruct (decide (P a)), (decide (Q a)); tauto || done.
Qed.

Section TileStatements.
Import Samples.

(** In a merge that succeeds, of maps with integer sizes and tilesets
    without a negative tile count: a tile layer no larger than its map is
    copied whole.  Each of its cells that is not empty is found at the
    chunk's offset from the bounds' minimum, with the GID its chunk's remap
    gives it, which is not 0; and the merged layer has as many cells that
    are not empty as the source layer has within its width and height. *)
Theorem mergeTmjMaps_keeps_tiles (first : MapChunk) (rest : list MapChunk)
    (merged : RawTmj) :
  let chunks := first :: rest in
  Forall (fun c => finiteChunk c = true) chunks ->
  (forall ts, ts ∈ allTilesets chunks -> 0 <= default 0 (tilecount ts)) ->
  mergeTmjMaps chunks = Ok merged ->
  exists x0 y0 W H,
    finiteBounds (computeBounds chunks) x0 y0 W H
    /\ forall k i c src,
         isTileSource chunks k i c src ->
         tl_width src <= chunkWidth c -> tl_height src <= chunkHeight c ->
         exists dest m,
           tmj_layers merged !! k = Some (TileLayer dest)
           /\ gidRemaps (mergeTilesets chunks) !! i = Some m
           /\ (forall localX localY,
                 0 <= localY < tl_height src -> 0 <= localX < tl_width src ->
                 sourceGid src (localY, localX) <> 0 ->
                 remapped m (sourceGid src (localY, localX)) <> 0
                 /\ tl_data dest !! gridIndex W (offsetX c - x0 + localX)
                                               (offsetY c - y0 + localY)
                    = Some (remapped m (sourceGid src (localY, localX))))
           /\ exists tiles,
                enumerates tiles (fun localX localY =>
                  (0 <= localY < tl_height src)
                  /\ (0 <= localX < tl_width src)
                  /\ sourceGid src (localY, localX) <> 0)
                /\ countNonzero (tl_data dest) = length tiles.
Proof.
  intros chunks Hfin Hnn Hres.
  destruct (computeBounds_finite chunks ltac:(done) Hfin)
    as (x0 & y0 & x1 & y1 & Hb & [Hx0 _] & [Hy0 _] & [Hx1 _] & [Hy1 _]).
  exists x0, y0, (x1 - x0), (y1 - y0).
  assert (Hfb : finiteBounds (computeBounds chunks) x0 y0 (x1 - x0) (y1 - y0))
    by (by rewrite Hb).
  split; [done|]. intros k i c src Hsrc Hw Hh.
  pose proof Hsrc as [Hi _]. apply tileSources_position in Hsrc as Hk.
  unfold chunks in Hres. rewrite mergeTmjMaps_cons in Hres.
  cbn zeta in Hres. fold chunks in Hres.
  destruct (foldM _ chunks ()) as [[]|]; cbn [bind] in Hres; [|done].
  destruct (mergeTileLayers _ _ _) as [tls|] eqn:Htl; cbn [bind] in Hres;
    [|done].
  destruct (mergeObjectGroups _ _ _ _ _) as [ogs|]; cbn [bind] in Hres;
    [|done].
  injection Hres as <-. cbn [tmj_layers].
  assert (Hwh : 0 <= (x1 - x0) * (y1 - y0) < 2 ^ 32).
  { destruct (decide (0 <= (x1 - x0) * (y1 - y0) < 2 ^ 32)) as [|Hbad];
      [done|exfalso].
    unfold mergeTileLayers, mbind, result_bind in Htl.
    rewrite (tileChunksLoop_alloc _ _ (RangeError "Invalid array length"))
      in Htl.
    - fold (tileSources chunks) in Htl.
      by destruct (tileSources chunks).
    - rewrite Hb. cbn [width height]. by apply newArrayFill0_fail. }
  rewrite (mergeTileLayers_finite _ _ _ x0 y0 (x1 - x0) (y1 - y0)) in Htl;
    [|done|done|by rewrite mergeTilesets_length].
  injection Htl as <-.
  destruct (mergeTilesets_remap chunks i c Hi) as (_ & m & Hm & _).
  assert (Hnz : forall gid, gid <> 0 -> remapped m gid <> 0).
  { intros gid Hgid. unfold remapped.
    destruct (m !! gid) as [g'|] eqn:Hg; cbn; [|done].
    pose proof (remap_range chunks i c m gid g' Hnn Hi Hm Hg). lia. }
  assert (Hc : c ∈ chunks) by (by eapply list_elem_of_lookup_2).
  assert (Hin : forall p, p ∈ cells src ->
            inGrid (x1 - x0) (y1 - y0) (offsetX c - x0 + p.2)
              (offsetY c - y0 + p.1)).
  { intros p [Hp1 Hp2]%elem_of_cells.
    specialize (Hx0 c Hc). specialize (Hy0 c Hc).
    specialize (Hx1 c Hc). specialize (Hy1 c Hc).
    unfold chunkX1, chunkY1 in *. unfold inGrid. lia. }
  pose proof Hm as Hm'.
  change (gidRemaps (mergeTilesets chunks))
    with (st_gidRemaps (mergeTilesetsLoop chunks)) in Hm'.
  eexists _, m. split_and!.
  - rewrite lookup_app_l.
    + rewrite list_lookup_fmap, list_lookup_imap, Hk. done.
    + rewrite length_fmap, length_imap. by eapply lookup_lt_Some.
  - done.
  - intros lx ly Hly Hlx Hg. split; [by apply Hnz|].
    assert (Hp : (ly, lx) ∈ cells src) by (by apply elem_of_cells).
    cbn [mergedTileLayer tl_data fst snd]. rewrite Hm'. cbn [default].
    apply (mergedData_kept src m _ _ _ _ (ly, lx) Hp).
    split; [done|]. by apply (Hin (ly, lx)).
  - cbn [mergedTileLayer tl_data fst snd]. rewrite Hm'. cbn [default].
    exists (filter (fun p => sourceGid src p <> 0) (cells src)).
    split; [split|].
    + apply NoDup_filter, NoDup_cells.
    + intros lx ly. rewrite list_elem_of_filter, elem_of_cells.
      cbn [fst snd]. tauto.
    + rewrite mergedData_count_written. f_equal.
      apply filter_ext_elem. intros p Hp. unfold written, kept.
      specialize (Hin p Hp). specialize (Hnz (sourceGid src p)). tauto.
Qed.

Lemma mergeTmjMaps_keeps_tiles_sample :
  exists merged,
    mergeTmjMaps [chunkA; chunkB] = Ok merged
    /\ finiteBounds (computeBounds [chunkA; chunkB]) 0 0 8 4
    /\ omap (fun layer => match layer with
                          | TileLayer dest => Some (tl_data dest)
                          | _ => None
                          end) (tmj_layers merged)
       = [ [1; 2; 0; 0; 0; 0; 0; 0;   3; 4; 0; 0; 0; 0; 0; 0;
            0; 0; 0; 0; 0; 0; 0; 0;   0; 0; 0; 1; 0; 0; 0; 0];
           [0; 0; 0; 0; 1; 2; 0; 0;   0; 0; 0; 0; 3; 4; 0; 0;
            0; 0; 0; 0; 5; 0; 0; 0;   0; 0; 0; 0; 0; 0; 0; 6] ]
    /\ countNonzero <$> (tl_data <$> (tileLayersOf chunkA
                                        ++ tileLayersOf chunkB))
       = [5%nat; 6%nat].
Proof.
  destruct (mergeTmjMaps [chunkA; chunkB]) as [merged|e] eqn:Hm;
    [|vm_compute in Hm; discriminate].
  destruct (mergeTmjMaps_keeps_tiles chunkA [chunkB] merged)
    as (x0 & y0 & W & H & Hb & _).
  - repeat constructor.
  - intros ts Hts. cbn in Hts.
    repeat (apply elem_of_cons in Hts as [->|Hts]; [cbn; lia|]).
    by apply elem_of_nil in Hts.
  - exact Hm.
  - exists merged. split; [reflexivity|].
    vm_compute in Hm. injection Hm as <-.
    split; [repeat split|]. split; reflexivity.
Defined.

End TileStatements.


(** ** Merging one map *)

Lemma firstOccurrences_id l :
  NoDup (tilesetKey <$> l) -> firstOccurrences [] l = l.
Proof.
  induction l as [|ts l IH] using rev_ind; [done|].
  rewrite fmap_app, NoDup_app. intros (Hl & Hnew & _).
  rewrite firstOccurrences_snoc, IH by done. cbn [app].
  rewrite decide_False; [done|]. intros Hin. apply (Hnew _ Hin). cbn. left.
Qed.

Lemma findGlobal_self tilesets ts j G :
  NoDup (tilesetKey <$> tilesets) -> ts ∈ tilesets ->
  findGlobal tilesets (tilesetKey ts) = Some (j, G) -> G = ts.
Proof.
  intros Hnd [i Hi]%list_elem_of_lookup (Hj & Hk & _)%list_find_Some.
  assert (i = j) as ->; [|congruence].
  eapply NoDup_lookup; [exact Hnd|..]; rewrite list_lookup_fmap.
  - by rewrite Hi.
  - rewrite Hj. cbn. by rewrite Hk.
Qed.

(** The merged grid of a layer that fills the grid, under a remap that
    changes nothing, is the layer's own grid. *)
Lemma mergedData_full src (m : GidRemap) W H :
  0 <= W -> 0 <= H ->
  tl_width src = W -> tl_height src = H ->
  length (tl_data src) = Z.to_nat (W * H) ->
  (forall gid, remapped m gid = gid) ->
  mergedData src m 0 0 W H = tl_data src.
Proof.
  intros HW HH Hw Hh Hlen Hid. apply list_eq. intros d.
  destruct (decide (d < Z.to_nat (W * H))%nat) as [Hd|Hd].
  2: { rewrite !lookup_ge_None_2; [done|lia|].
       rewrite mergedData_length. lia. }
  assert (HWpos : 0 < W) by nia.
  set (lx := Z.of_nat d `mod` W). set (ly := Z.of_nat d `div` W).
  pose proof (Z.div_mod (Z.of_nat d) W ltac:(lia)) as Hdm.
  pose proof (Z.mod_pos_bound (Z.of_nat d) W HWpos) as Hmod.
  fold lx ly in Hdm, Hmod.
  assert (Hly : 0 <= ly < H).
  { split; [apply Z.div_pos; lia|]. apply Z.div_lt_upper_bound; lia. }
  assert (Hidx : Z.of_nat d = ly * W + lx) by lia.
  assert (Hcell : (ly, lx) ∈ cells src)
    by (apply elem_of_cells; cbn; lia).
  assert (Hgrid : gridIndex W (0 + lx) (0 + ly) = d)
    by (unfold gridIndex; rewrite !Z.add_0_l, <- Hidx; lia).
  assert (Hin : inGrid W H (0 + lx) (0 + ly)) by (unfold inGrid; lia).
  destruct (lookup_lt_is_Some_2 (tl_data src) d ltac:(lia)) as [v Hv].
  assert (Hsrc : sourceGid src (ly, lx) = v).
  { unfold sourceGid. cbn [fst snd]. rewrite Hw, <- Hidx, Nat2Z.id, Hv.
    done. }
  rewrite Hv. destruct (decide (v = 0)) as [->|Hnz].
  - destruct (lookup_lt_is_Some_2 (mergedData src m 0 0 W H) d) as [u Hu].
    { rewrite mergedData_length. lia. }
    rewrite Hu. f_equal. destruct (decide (u = 0)) as [|Hu0]; [done|].
    destruct (mergedData_nonzero _ _ _ _ _ _ _ _ Hu Hu0)
      as ([ly' lx'] & Hp' & [Hg' Hin'] & Hd' & _).
    cbn [fst snd] in Hd', Hin'. rewrite <- Hgrid in Hd'.
    apply (gridIndex_inj W H) in Hd' as [Hx Hy]; [|done..].
    assert (lx' = lx) as -> by lia. assert (ly' = ly) as -> by lia.
    by rewrite Hsrc in Hg'.
  - pose proof (mergedData_kept src m 0 0 W H (ly, lx) Hcell) as Hkept.
    cbn [fst snd] in Hkept. rewrite Hgrid, Hid, Hsrc in Hkept.
    apply Hkept. split; [by rewrite Hsrc|done].
Qed.

Lemma add_0 (a : num) : Js.add a (Fin 0) = a.
Proof. destruct a; cbn; [f_equal; lia|done..]. Qed.

Lemma mergeObjectGroups_moved chunks bounds gidRemaps tw th :
  (length chunks <= length gidRemaps)%nat ->
  exists groups,
    mergeObjectGroups chunks bounds gidRemaps tw th = Ok groups
    /\ Forall2 (mergedGroup bounds gidRemaps tw th)
         (groupSourcesOf (TmjMerge.indexed chunks)) groups.
Proof.
  intros Hlen.
  assert (Hall : Forall (fun e : nat * MapChunk =>
                           is_Some (gidRemaps !! e.1))
                        (TmjMerge.indexed chunks)).
  { apply Forall_forall. intros e He%indexed_elem.
    apply lookup_lt_is_Some_2. apply lookup_lt_Some in He. lia. }
  destruct (objectChunksLoop_moved bounds gidRemaps tw th _ Hall [] 1 1)
    as (groups & n' & nobj' & Hloop & Hgroups).
  exists groups. unfold mergeObjectGroups, mbind, result_bind.
  by rewrite Hloop.
Qed.

(** [obj] with another id. *)
Definition withObjectId (obj : RawObject) (newId : Z) : RawObject :=
  {| obj_id := newId; obj_name := obj_name obj; obj_type := obj_type obj;
     obj_x := obj_x obj; obj_y := obj_y obj; obj_width := obj_width obj;
     obj_height := obj_height obj; obj_rotation := obj_rotation obj;
     obj_properties := obj_properties obj; obj_gid := obj_gid obj |}.

(** [src] with other ids for itself and its objects. *)
Definition renumbered (src dest : RawObjectGroup) : Prop :=
  og_base dest
  = {| id := id (og_base dest); name := name (og_base src);
       opacity := opacity (og_base src); visible := visible (og_base src);
       x := x (og_base src); y := y (og_base src);
       properties := properties (og_base src) |}
  /\ Forall2 (fun obj obj' => obj' = withObjectId obj (obj_id obj'))
       (og_objects src) (og_objects dest).

(** The hypotheses on a map that is merged alone. *)
Definition standalone (c : MapChunk) (W H : Z) : Prop :=
  tmj_width (tmj c) = Fin W /\ tmj_height (tmj c) = Fin H
  /\ 0 <= W /\ 0 <= H /\ W * H < 2 ^ 32
  /\ declaresInfinite c = false
  /\ tmj_tilesets (tmj c) = assignFirstGids 1 (tmj_tilesets (tmj c))
  /\ NoDup (tilesetKey <$> tmj_tilesets (tmj c)).

(** What [mergeTmjMaps] returns for a map merged alone. *)
Lemma mergeTmjMaps_standalone c W H :
  standalone c W H ->
  exists m groups,
    (forall gid, remapped m gid = gid)
    /\ Forall2 renumbered (objectGroupsOf c) groups
    /\ (fun g => id (og_base g)) <$> groups
       = seqZ 1 (Z.of_nat (length (objectGroupsOf c)))
    /\ groups ≫= objectIds
       = seqZ 1 (Z.of_nat (length (objectGroupsOf c ≫= og_objects)))
    /\ mergeTmjMaps [c]
       = Ok {| tmj_height := Fin H; tmj_width := Fin W;
               tmj_tileheight := tmj_tileheight (tmj c);
               tmj_tilewidth := tmj_tilewidth (tmj c);
               tmj_layers :=
                 (TileLayer
                    <$> imap (fun k src =>
                                mergedTileLayer (offsetX c) (offsetY c) W H
                                  [m] k (0%nat, c, src))
                          (tileLayersOf c))
                 ++ (ObjectGroup <$> groups);
               tmj_tilesets := tmj_tilesets (tmj c);
               orientation := orientation (tmj c);
               renderorder := renderorder (tmj c);
               infinite := infinite (tmj c);
               tmj_properties := tmj_properties (tmj c) |}.
Proof.
  intros (Hw & Hh & HW & HH & Hwh & Hinf & Hcont & Hnd).
  assert (Hb : computeBounds [c]
               = {| minX := Fin (offsetX c); minY := Fin (offsetY c);
                    maxX := Fin (offsetX c + W); maxY := Fin (offsetY c + H);
                    width := Fin W; height := Fin H |}).
  { unfold computeBounds. cbn [foldl boundsStep]. rewrite Hw, Hh.
    cbn [Js.min Js.max Js.add Js.sub Js.neg]. f_equal; f_equal; lia. }
  assert (Hfb : finiteBounds (computeBounds [c]) (offsetX c) (offsetY c) W H)
    by (by rewrite Hb).
  assert (Hglobals : globalTilesets (mergeTilesets [c])
                     = tmj_tilesets (tmj c)).
  { rewrite mergeTilesets_globals. unfold allTilesets. cbn [mbind list_bind].
    rewrite app_nil_r, firstOccurrences_id by done. by symmetry. }
  destruct (mergeTilesets_remap [c] 0 c eq_refl) as (Hknown & m & Hm & Hent).
  assert (Hremaps : gidRemaps (mergeTilesets [c]) = [m]).
  { pose proof (mergeTilesets_length [c]) as Hlen.
    destruct (gidRemaps (mergeTilesets [c])) as [|m0 [|m1 l]]; try done.
    by injection Hm as ->. }
  assert (Hid : forall gid, remapped m gid = gid).
  { intros gid. unfold remapped. rewrite Hent, Hglobals. unfold remapEntry.
    destruct (sourceTileset _ gid) as [ts|] eqn:Hsrc; [|done].
    cbn [mbind option_bind]. apply sourceTileset_elem in Hsrc as [Hts _].
    destruct (findGlobal _ (tilesetKey ts)) as [[j G]|] eqn:HG; [|done].
    rewrite (findGlobal_self _ _ _ _ Hnd Hts HG). cbn. lia. }
  assert (Htl : mergeTileLayers [c] (computeBounds [c]) [m]
                = Ok (imap (mergedTileLayer (offsetX c) (offsetY c) W H [m])
                        (tileSources [c]))).
  { apply mergeTileLayers_finite; [done|nia|done]. }
  destruct (mergeObjectGroups_moved [c] (computeBounds [c]) [m]
              (tmj_tilewidth (tmj c)) (tmj_tileheight (tmj c)))
    as (groups & Hog & Hgroups); [done|].
  assert (Hsources : tileSources [c] = pair (0%nat, c) <$> tileLayersOf c).
  { unfold tileSources. cbn. by rewrite app_nil_r. }
  assert (Hgsources : groupSourcesOf (TmjMerge.indexed [c])
                      = pair (0%nat, c) <$> objectGroupsOf c).
  { unfold groupSourcesOf. cbn. by rewrite app_nil_r. }
  destruct (mergeObjectGroups_ids _ _ _ _ _ _ Hog) as (_ & Hgids & Hoids).
  assert (Hgs : groupSources [c] = objectGroupsOf c).
  { unfold groupSources. cbn. by rewrite app_nil_r. }
  rewrite Hgs in Hgids, Hoids.
  exists m, groups. split_and!; try done.
  - rewrite Hgsources, Forall2_fmap_l in Hgroups.
    eapply Forall2_impl; [exact Hgroups|].
    intros src dest (m' & [= <-] & Hbase & Hobjs). cbn [fst snd] in *.
    split; [done|]. eapply Forall2_impl; [exact Hobjs|].
    intros obj obj' ->.
    unfold movedObject, withObjectId, offsetPixels. rewrite Hb.
    cbn [minX minY Js.sub Js.neg Js.add Js.mul obj_id].
    rewrite !Z.add_opp_diag_r, !Z.mul_0_l, !add_0. f_equal.
    destruct (obj_gid obj); cbn; [by rewrite Hid|done].
  - rewrite mergeTmjMaps_cons. cbn zeta. rewrite validate_pass.
    + cbn [bind]. rewrite Hremaps, Htl. cbn [bind]. rewrite Hog.
      cbn [bind]. rewrite Hglobals, Hb, Hsources, imap_fmap. done.
    + repeat constructor. unfold offends, dimensionsDiffer.
      rewrite !bool_decide_true by done. by rewrite Hinf.
Qed.

Section SingleStatements.
Import Samples.

(** Merging one map alone, wherever it is placed, gives its content back,
    when its size is a pair of integers that are not negative, its grid can
    be allocated, and its tilesets have distinct keys and ranges that
    follow one another from GID 1.  The merged map has the size and the
    tilesets of the map; a tile layer of the map's size has its grid
    unchanged; every object keeps its position, its GID and everything but
    its id. *)
Theorem mergeTmjMaps_single (c : MapChunk) (W H : Z) :
  tmj_width (tmj c) = Fin W -> tmj_height (tmj c) = Fin H ->
  0 <= W -> 0 <= H -> W * H < 2 ^ 32 ->
  declaresInfinite c = false ->
  tmj_tilesets (tmj c) = assignFirstGids 1 (tmj_tilesets (tmj c)) ->
  NoDup (tilesetKey <$> tmj_tilesets (tmj c)) ->
  exists merged,
    mergeTmjMaps [c] = Ok merged
    /\ tmj_width merged = Fin W /\ tmj_height merged = Fin H
    /\ tmj_tilesets merged = tmj_tilesets (tmj c)
    /\ (forall k src,
          tileLayersOf c !! k = Some src ->
          tl_width src = W -> tl_height src = H ->
          length (tl_data src) = Z.to_nat (W * H) ->
          exists dest,
            tmj_layers merged !! k = Some (TileLayer dest)
            /\ tl_data dest = tl_data src
            /\ tl_width dest = W /\ tl_height dest = H)
    /\ (forall k src,
          objectGroupsOf c !! k = Some src ->
          exists dest,
            tmj_layers merged !! (length (tileLayersOf c) + k)%nat
            = Some (ObjectGroup dest)
            /\ Forall2 (fun obj obj' => obj' = withObjectId obj (obj_id obj'))
                 (og_objects src) (og_objects dest)).
Proof.
  intros Hw Hh HW HH Hwh Hinf Hcont Hnd.
  destruct (mergeTmjMaps_standalone c W H)
    as (m & groups & Hid & Hgroups & _ & _ & Hres); [by repeat split|].
  eexists. split; [exact Hres|].
  cbn [tmj_width tmj_height tmj_tilesets tmj_layers]. split_and!; try done.
  - intros k src Hk Hsw Hsh Hlen. eexists. rewrite lookup_app_l.
    2: { rewrite length_fmap, length_imap. by eapply lookup_lt_Some. }
    rewrite list_lookup_fmap, list_lookup_imap, Hk.
    cbn [fmap option_fmap option_map]. split; [done|].
    cbn [mergedTileLayer tl_data tl_width tl_height fst snd lookup
         list_lookup default from_option Datatypes.id].
    split; [|done]. rewrite !Z.sub_diag. by apply mergedData_full.
  - intros k src Hk.
    destruct (Forall2_lookup_l _ _ _ _ _ Hgroups Hk)
      as (dest & Hdest & _ & Hobjs).
    exists dest. split; [|done].
    rewrite lookup_app_r; rewrite length_fmap, length_imap; [|lia].
    replace (length (tileLayersOf c) + k - length (tileLayersOf c))%nat
      with k by lia.
    by rewrite list_lookup_fmap, Hdest.
Qed.

Lemma mergeTmjMaps_single_sample :
  exists merged,
    mergeTmjMaps [shiftChunk 3 (-2) chunkA] = Ok merged
    /\ tmj_tilesets merged = [terrain 1]
    /\ exists dest,
         tmj_layers merged !! 0%nat = Some (TileLayer dest)
         /\ tl_data dest = [1; 2; 0; 0; 3; 4; 0; 0; 0; 0; 0; 0; 0; 0; 0; 1].
Proof.
  destruct (mergeTmjMaps_single (shiftChunk 3 (-2) chunkA) 4 4)
    as (merged & Hres & _ & _ & Hts & Htiles & _); try reflexivity; try lia.
  - repeat constructor; cbn; set_solver.
  - destruct (Htiles 0%nat (ground [1; 2; 0; 0; 3; 4; 0; 0;
                                   0; 0; 0; 0; 0; 0; 0; 1]))
      as (dest & Hdest & Hdata & _); try reflexivity.
    exists merged. split; [exact Hres|]. split; [exact Hts|].
    exists dest. split; [exact Hdest|exact Hdata].
Defined.

End SingleStatements.

(** ** Merging what a merge returned *)

Lemma assignFirstGids_idem g l :
  assignFirstGids g (assignFirstGids g l) = assignFirstGids g l.
Proof.
  revert g. induction l as [|ts l IH]; intros g; [done|].
  cbn [assignFirstGids]. rewrite tilecount_withFirstgid, IH. done.
Qed.

Lemma sub_finite a b w :
  Js.sub a b = Fin w -> exists x y, a = Fin x /\ b = Fin y.
Proof. destruct a, b; cbn; try done. by eauto. Qed.

Lemma computeBounds_finiteBounds chunks W H :
  width (computeBounds chunks) = Fin W ->
  height (computeBounds chunks) = Fin H ->
  exists x0 y0, finiteBounds (computeBounds chunks) x0 y0 W H.
Proof.
  unfold computeBounds, finiteBounds.
  destruct (foldl boundsStep _ chunks) as [[[a b] c] d].
  cbn [width height minX minY].
  intros Hw Hh.
  destruct (sub_finite _ _ _ Hw) as (x1 & x0 & -> & ->).
  destruct (sub_finite _ _ _ Hh) as (y1 & y0 & -> & ->).
  by exists x0, y0.
Qed.

Lemma withObjectId_self obj : withObjectId obj (obj_id obj) = obj.
Proof. by destruct obj. Qed.

Lemma objects_renumbered_eq objs objs' :
  Forall2 (fun obj obj' => obj' = withObjectId obj (obj_id obj')) objs objs' ->
  obj_id <$> objs' = obj_id <$> objs -> objs' = objs.
Proof.
  induction 1 as [|obj obj' objs objs' Hobj _ IH]; [done|].
  cbn. intros [= Hid Hids]. rewrite IH by done. f_equal.
  rewrite Hobj, Hid. apply withObjectId_self.
Qed.

Lemma groups_renumbered_eq srcs dests :
  Forall2 renumbered srcs dests ->
  (fun g => id (og_base g)) <$> dests = (fun g => id (og_base g)) <$> srcs ->
  dests ≫= objectIds = srcs ≫= objectIds ->
  dests = srcs.
Proof.
  induction 1 as [|src dest srcs dests [Hbase Hobjs] _ IH]; [done|].
  rewrite !fmap_cons, !bind_cons. intros [= Hid Hids] Hoids.
  apply app_inj_1 in Hoids as [Hhead Htail].
  2: { unfold objectIds. rewrite !length_fmap. symmetry.
       by eapply Forall2_length. }
  rewrite IH by done. f_equal.
  apply (objects_renumbered_eq _ _ Hobjs) in Hhead.
  destruct dest as [dbase dobjs], src as [sbase sobjs]. cbn in *.
  subst dobjs. f_equal. rewrite Hbase, Hid. by destruct sbase.
Qed.

Lemma tileLayersOf_merged (tls : list RawTileLayer)
    (ogs : list RawObjectGroup) :
  omap (fun l => match l with TileLayer src => Some src | _ => None end)
       ((TileLayer <$> tls) ++ (ObjectGroup <$> ogs)) = tls
  /\ omap (fun l => match l with ObjectGroup g => Some g | _ => None end)
       ((TileLayer <$> tls) ++ (ObjectGroup <$> ogs)) = ogs.
Proof.
  rewrite !omap_app. split.
  - assert (H1 : forall l : list RawTileLayer,
              omap (fun l => match l with TileLayer src => Some src
                                   | _ => None end) (TileLayer <$> l) = l).
    { induction l as [|t l IH]; [done|]. cbn. by rewrite IH. }
    assert (H2 : forall l : list RawObjectGroup,
              omap (fun l => match l with TileLayer src => Some src
                                   | _ => None end) (ObjectGroup <$> l) = []).
    { induction l as [|t l IH]; [done|]. cbn. by rewrite IH. }
    by rewrite H1, H2, app_nil_r.
  - assert (H1 : forall l : list RawTileLayer,
              omap (fun l => match l with ObjectGroup g => Some g
                                   | _ => None end) (TileLayer <$> l) = []).
    { induction l as [|t l IH]; [done|]. cbn. by rewrite IH. }
    assert (H2 : forall l : list RawObjectGroup,
              omap (fun l => match l with ObjectGroup g => Some g
                                   | _ => None end) (ObjectGroup <$> l) = l).
    { induction l as [|t l IH]; [done|]. cbn. by rewrite IH. }
    by rewrite H1, H2.
Qed.

Section IdempotenceStatements.
Import Samples.

(** The merge is idempotent.  A map that [mergeTmjMaps] returned, of a size
    that is a pair of integers, not negative, whose grid can be allocated,
    is what [mergeTmjMaps] returns for it alone, wherever it is placed:
    the same size, tilesets, layers, grids, objects and ids. *)
Theorem mergeTmjMaps_idempotent (chunks : list MapChunk) (merged : RawTmj)
    (W H : Z) (cid : string) (ox oy : Z) :
  mergeTmjMaps chunks = Ok merged ->
  tmj_width merged = Fin W -> tmj_height merged = Fin H ->
  0 <= W -> 0 <= H -> W * H < 2 ^ 32 ->
  mergeTmjMaps [{| chunk_id := cid; tmj := merged;
                   offsetX := ox; offsetY := oy |}]
  = Ok merged.
Proof.
  intros Hres Hw Hh HW HH Hwh.
  destruct chunks as [|first rest]; [done|].
  rewrite mergeTmjMaps_cons in Hres. cbn zeta in Hres.
  destruct (foldM _ (first :: rest) ()) as [[]|] eqn:Hval;
    cbn [bind] in Hres; [|done].
  destruct (mergeTileLayers _ _ _) as [tls|] eqn:Htl; cbn [bind] in Hres;
    [|done].
  destruct (mergeObjectGroups _ _ _ _ _) as [ogs|] eqn:Hog;
    cbn [bind] in Hres; [|done].
  injection Hres as <-. cbn [tmj_width tmj_height] in Hw, Hh.
  destruct (computeBounds_finiteBounds _ _ _ Hw Hh) as (x0 & y0 & Hfb).
  rewrite (mergeTileLayers_finite _ _ _ x0 y0 W H) in Htl;
    [|done|nia|by rewrite mergeTilesets_length].
  injection Htl as Htls.
  destruct (mergeObjectGroups_ids _ _ _ _ _ _ Hog) as (Hglen & Hgids & Hoids).
  set (M := {| tmj_height := _ |}).
  set (c' := {| chunk_id := cid; tmj := M; offsetX := ox; offsetY := oy |}).
  destruct (tileLayersOf_merged tls ogs) as [Htiles Hgroups].
  assert (Hstand : standalone c' W H).
  { unfold standalone. cbn [c' tmj M tmj_width tmj_height tmj_tilesets].
    split_and!; try done.
    - cbn [foldM] in Hval. unfold validateStep at 1 in Hval.
      unfold declaresInfinite in *. cbn [tmj c' M infinite].
      destruct (dimensionsDiffer _ _ first); [done|].
      by destruct (default false (infinite (tmj first))).
    - change (st_globalTilesets (mergeTilesetsLoop (first :: rest)))
        with (globalTilesets (mergeTilesets (first :: rest))).
      by rewrite mergeTilesets_globals, assignFirstGids_idem.
    - change (st_globalTilesets (mergeTilesetsLoop (first :: rest)))
        with (globalTilesets (mergeTilesets (first :: rest))).
      rewrite mergeTilesets_globals, assignFirstGids_keys.
      apply firstOccurrences_NoDup. }
  destruct (mergeTmjMaps_standalone c' W H Hstand)
    as (m & groups & Hid & Hren & Hgids' & Hoids' & ->).
  unfold M. cbn [c' tmj tmj_tileheight tmj_tilewidth tmj_tilesets orientation
                 renderorder infinite tmj_properties offsetX offsetY].
  change (objectGroupsOf c') with
    (omap (fun l => match l with ObjectGroup g => Some g | _ => None end)
       (tmj_layers M)) in Hren, Hgids', Hoids'.
  change (tileLayersOf c') with
    (omap (fun l => match l with TileLayer src => Some src | _ => None end)
       (tmj_layers M)).
  unfold M in Hren, Hgids', Hoids' |- *. cbn [tmj_layers] in *.
  rewrite Hgroups in Hren, Hgids', Hoids'. rewrite Htiles.
  f_equal. f_equal; [by rewrite Hh|by rewrite Hw|]. f_equal.
  - f_equal. rewrite <- Htls. apply list_eq. intros k.
    rewrite list_lookup_imap, list_lookup_imap.
    destruct (tileSources (first :: rest) !! k) as [s|]; [|done].
    cbn [fmap option_fmap option_map]. f_equal.
    generalize (st_gidRemaps (mergeTilesetsLoop (first :: rest))).
    intros remaps.
    set (inner := mergedTileLayer x0 y0 W H remaps k s).
    unfold mergedTileLayer at 1.
    cbn [snd fst offsetX offsetY c' lookup list_lookup default from_option
         Datatypes.id].
    rewrite !Z.sub_diag, (mergedData_full inner m W H); try done.
    apply mergedData_length.
  - f_equal. apply groups_renumbered_eq; [done|..].
    + by rewrite Hgids', Hgids, Hglen.
    + rewrite Hoids', Hoids. do 2 f_equal.
      assert (Hlen : forall l : list RawObjectGroup,
                length (l ≫= og_objects) = length (l ≫= objectIds)).
      { intros l. induction l as [|g l IH]; [done|].
        rewrite !bind_cons, !length_app, IH. unfold objectIds.
        by rewrite length_fmap. }
      rewrite Hlen, Hoids, length_seqZ. lia.
Qed.

Lemma mergeTmjMaps_idempotent_sample :
  exists merged,
    mergeTmjMaps [chunkA; chunkB] = Ok merged
    /\ mergeTmjMaps [{| chunk_id := "again"; tmj := merged;
                        offsetX := 5; offsetY := 7 |}]
       = Ok merged.
Proof.
  destruct (mergeTmjMaps [chunkA; chunkB]) as [merged|e] eqn:Hm;
    [|vm_compute in Hm; discriminate].
  exists merged. split; [reflexivity|].
  apply (mergeTmjMaps_idempotent [chunkA; chunkB] merged 8 4);
    try lia; try exact Hm.
  - vm_compute in Hm. by injection Hm as <-.
  - vm_compute in Hm. by injection Hm as <-.
Defined.

End IdempotenceStatements.


(** ** The exceptions of the merge *)

Lemma foldM_total {S X} (body : S -> X -> result S) l :
  (forall s x, x ∈ l -> exists s', body s x = Ok s') ->
  forall s, exists s', foldM body l s = Ok s'.
Proof.
  induction l as [|x l IH]; intros Hbody s; [by eexists|].
  cbn [foldM]. destruct (Hbody s x ltac:(left)) as [s1 ->]. cbn [bind].
  apply IH. intros s2 y Hy. apply Hbody. by right.
Qed.

(** With a remap the loops over the cells write or skip, and do not
    throw. *)
Lemma fillLayer_total src m ox oy bounds zeros :
  exists data, fillLayer src (Some m) ox oy bounds zeros = Ok data.
Proof.
  unfold fillLayer. apply foldM_total. intros data ly _.
  apply foldM_total. intros data' lx _. unfold cellStep.
  case_bool_decide; [by eexists|]. cbn [remapGid mbind result_bind bind].
  destruct (_ || _); by eexists.
Qed.

(** The only exception of [mergeTileLayers], given a remap for every
    chunk, is the [RangeError] of the allocation. *)
Lemma mergeTileLayers_throws chunks bounds gidRemaps e :
  (length chunks <= length gidRemaps)%nat ->
  mergeTileLayers chunks bounds gidRemaps = Throw e ->
  e = RangeError "Invalid array length".
Proof.
  intros Hlen. unfold mergeTileLayers, mbind, result_bind.
  destruct (foldM _ _ _) as [st|e'] eqn:Hloop; cbn [bind]; [done|].
  intros [= <-]. revert Hloop.
  assert (Hall : Forall (fun en : nat * MapChunk =>
                           is_Some (gidRemaps !! en.1))
                        (TmjMerge.indexed chunks)).
  { apply Forall_forall. intros en He%indexed_elem.
    apply lookup_lt_is_Some_2. apply lookup_lt_Some in He. lia. }
  generalize (([] : list RawTileLayer), 1). revert Hall.
  generalize (TmjMerge.indexed chunks). intros entries Hall.
  induction Hall as [|[i c] entries [m Hm] _ IH]; intros st; [done|].
  cbn [foldM]. destruct (tileChunkStep _ _ st (i, c)) as [st1|e1] eqn:Hstep;
    cbn [bind]; [apply IH|].
  intros [= <-]. unfold tileChunkStep in Hstep. cbn [fst] in Hm.
  rewrite Hm in Hstep. revert Hstep.
  apply (foldM_throw (fun e => e = RangeError "Invalid array length")).
  intros [acc next] layer e2. destruct layer as [src| | |]; try done.
  cbn [tileLayerStep]. unfold mbind, result_bind.
  destruct (newArrayFill0 _) as [zeros|e3] eqn:Halloc; cbn [bind].
  - destruct (fillLayer_total src m
                (Js.sub (Fin (offsetX c)) (minX bounds))
                (Js.sub (Fin (offsetY c)) (minY bounds)) bounds zeros)
      as [data ->]. done.
  - intros [= <-]. unfold newArrayFill0 in Halloc.
    destruct (Js.mul _ _); try (by injection Halloc as <-).
    case_bool_decide; [done|]. by injection Halloc as <-.
Qed.

(** On chunks of the declared types (every document with its [tilesets]
    and [layers], every object group with its [objects]), [mergeTmjMaps]
    throws nothing but its three errors and the [RangeError] of a grid that
    cannot be allocated.  In particular the [TypeError] that
    [mergeTileLayers] and [mergeObjectGroups] raise on [remap[gid]] when
    they are given fewer remaps than chunks does not arise, since
    [mergeTilesets] returns one remap per chunk.  (A document that lacks
    one of its arrays is not a [RawTmj]; on such a value the code raises a
    [TypeError] of its own.) *)
Theorem mergeTmjMaps_exceptions (chunks : list MapChunk) (e : exn) :
  mergeTmjMaps chunks = Throw e ->
  e = Error msgNoMaps \/ e = Error msgDimensions \/ e = Error msgInfinite
  \/ e = RangeError "Invalid array length".
Proof.
  destruct chunks as [|first rest]; [intros [= <-]; by left|].
  rewrite mergeTmjMaps_cons. cbn zeta.
  destruct (foldM _ (first :: rest) ()) as [[]|e1] eqn:Hval; cbn [bind].
  - destruct (mergeTileLayers _ _ _) as [tls|e2] eqn:Htl; cbn [bind].
    + destruct (mergeObjectGroups_ok (first :: rest)
                  (computeBounds (first :: rest))
                  (gidRemaps (mergeTilesets (first :: rest)))
                  (tmj_tilewidth (tmj first)) (tmj_tileheight (tmj first)))
        as [ogs Hog]; [by rewrite mergeTilesets_length|].
      rewrite Hog. done.
    + intros [= <-]. right. right. right.
      apply (mergeTileLayers_throws _ _ _ _ ltac:(by rewrite mergeTilesets_length) Htl).
  - intros [= <-]. right.
    apply (foldM_throw (fun e => e = Error msgDimensions
                                 \/ e = Error msgInfinite)) in Hval;
      [tauto|].
    intros [] c e2. unfold validateStep.
    destruct (dimensionsDiffer _ _ c); [intros [= <-]; by left|].
    destruct (declaresInfinite c); [intros [= <-]; by right|done].
Qed.

Lemma mergeTmjMaps_exceptions_sample :
  exists e,
    mergeTmjMaps [Samples.chunkA; Samples.chunkInfinite] = Throw e
    /\ (e = Error msgNoMaps \/ e = Error msgDimensions
        \/ e = Error msgInfinite
        \/ e = RangeError "Invalid array length").
Proof.
  exists (Error msgInfinite). split; [reflexivity|].
  apply (mergeTmjMaps_exceptions
           [Samples.chunkA; Samples.chunkInfinite]).
  reflexivity.
Defined.

(** Called with no remap at all, [mergeTileLayers] raises the [TypeError]
    of the read [remap[1]] at the first cell that holds a tile. *)
Example mergeTileLayers_without_remaps :
  mergeTileLayers [Samples.chunkA] (computeBounds [Samples.chunkA]) []
  = Throw (TypeError "Cannot read properties of undefined (reading '1')").
Proof. reflexivity. Qed.

(** ** The bounds do not depend on the order of the chunks *)

Lemma min_swap a x y :
  Js.min (Js.min a (Fin x)) (Fin y) = Js.min (Js.min a (Fin y)) (Fin x).
Proof. destruct a; cbn; f_equal; lia. Qed.

Lemma max_swap a (u v : num) :
  Js.max (Js.max a u) v = Js.max (Js.max a v) u.
Proof. destruct a, u, v; cbn; f_equal; lia. Qed.

Lemma boundsStep_swap acc c1 c2 :
  boundsStep (boundsStep acc c1) c2 = boundsStep (boundsStep acc c2) c1.
Proof.
  destruct acc as [[[a b] c] d]. unfold boundsStep.
  by rewrite (min_swap a), (min_swap b), (max_swap c), (max_swap d).
Qed.

Lemma boundsLoop_perm l1 l2 :
  l1 ≡ₚ l2 -> forall acc, foldl boundsStep acc l1 = foldl boundsStep acc l2.
Proof.
  induction 1 as [|c l1 l2 _ IH|c1 c2 l|l1 l2 l3 _ IH1 _ IH2]; intros acc.
  - done.
  - cbn. apply IH.
  - cbn. by rewrite boundsStep_swap.
  - by rewrite IH1, IH2.
Qed.

(** [computeBounds] gives the same bounds for the same chunks in another
    order, sizes that are not finite included. *)
Theorem computeBounds_order (chunks chunks' : list MapChunk) :
  chunks ≡ₚ chunks' -> computeBounds chunks = computeBounds chunks'.
Proof.
  intros Hperm. unfold computeBounds. by rewrite (boundsLoop_perm _ _ Hperm).
Qed.

Lemma computeBounds_order_sample :
  computeBounds [Samples.chunkA; Samples.chunkB]
  = computeBounds [Samples.chunkB; Samples.chunkA].
Proof. apply computeBounds_order. apply Permutation_swap. Defined.

End TmjMergeSpec.

(** * Properties of the colour engine *)

Module ColorToolsSpec.
Import ColorTools.

(** ** Keys *)

(** A string without a comma. *)
Fixpoint noComma (s : string) : Prop :=
  match s with
  | EmptyString => True
  | String c s' => c <> ","%char /\ noComma s'
  end.

Lemma pretty_N_char_noComma d : pretty_N_char d <> ","%char.
Proof. unfold pretty_N_char. by repeat case_match. Qed.

Lemma pretty_N_go_noComma x s : noComma s -> noComma (pretty_N_go x s).
Proof.
  revert s. induction (N.lt_wf_0 x) as [x _ IH]; intros s Hs.
  assert (x = 0 \/ 0 < x)%N as [->|Hx] by lia.
  - by rewrite pretty_N_go_0.
  - rewrite pretty_N_go_step by done. apply IH.
    + by apply N.div_lt.
    + split; [apply pretty_N_char_noComma|done].
Qed.

Lemma pretty_N_noComma (n : N) : noComma (pretty n).
Proof.
  unfold pretty, pretty_N. case_decide; [by cbn|].
  by apply pretty_N_go_noComma.
Qed.

Lemma pretty_Z_noComma (z : Z) : noComma (pretty z).
Proof.
  destruct z as [|p|p].
  - by cbn.
  - apply (pretty_N_noComma (Npos p)).
  - change (noComma (String "-" (pretty (Npos p)))).
    split; [done|apply pretty_N_noComma].
Qed.

Lemma append_nil_l s : "" +:+ s = s.
Proof. done. Qed.

Lemma append_cons c s t : String c s +:+ t = String c (s +:+ t).
Proof. done. Qed.

(** A comma-separated string splits at its first comma in one way. *)
Lemma comma_join_inj s1 s2 t1 t2 :
  noComma s1 -> noComma s2 ->
  s1 +:+ "," +:+ t1 = s2 +:+ "," +:+ t2 -> s1 = s2 /\ t1 = t2.
Proof.
  revert s2. induction s1 as [|c s1 IH]; intros [|d s2];
    repeat (rewrite append_nil_l || rewrite append_cons); cbn [noComma].
  - by intros _ _ [= ->].
  - intros _ [Hd _] [= <- _]. done.
  - intros [Hc _] _ [= -> _]. done.
  - intros [_ H1] [_ H2] [= -> Heq]. by destruct (IH s2 H1 H2 Heq) as [-> ->].
Qed.

Global Instance colorToKey_inj : Inj (=) (=) colorToKey.
Proof.
  intros [r1 g1 b1 a1] [r2 g2 b2 a2]. unfold colorToKey. cbn [r g b a].
  intros Heq.
  apply comma_join_inj in Heq as [Hr Heq]; try apply pretty_Z_noComma.
  apply comma_join_inj in Heq as [Hg Heq]; try apply pretty_Z_noComma.
  apply comma_join_inj in Heq as [Hb Ha]; try apply pretty_Z_noComma.
  apply (inj pretty) in Hr, Hg, Hb, Ha. by subst.
Qed.

(** ** Recolouring, pixel by pixel *)

(** A colour of the data model: four bytes. *)
Definition validColor (c : Color) : Prop :=
  (0 <= r c <= 255) /\ (0 <= g c <= 255) /\ (0 <= b c <= 255)
  /\ (0 <= a c <= 255).

(** The byte nearest to an integer. *)
Definition clampByte (v : Z) : Z := Z.max 0 (Z.min 255 v).

(** The colour a [Uint8ClampedArray] holds after [c] is written to it. *)
Definition clampColor (c : Color) : Color :=
  {| r := clampByte (r c); g := clampByte (g c); b := clampByte (b c);
     a := clampByte (a c) |}.

Lemma clampColor_valid c : validColor c -> clampColor c = c.
Proof.
  destruct c as [r0 g0 b0 a0]. unfold validColor, clampColor, clampByte. cbn.
  intros (? & ? & ? & ?). f_equal; lia.
Qed.

Definition fromKeysOf (changes : list PaletteChange) : list string :=
  (fun c => colorToKey (from c)) <$> changes.

(** What the loop body leaves in the place of a pixel of colour [c]. *)
Definition recolorPixel (changes : list PaletteChange) (useTolerance : bool)
    (toleranceSq : Z) (c : Color) : Color :=
  if decide (a c = 0) then c
  else match findReplacement changes (fromKeysOf changes) useTolerance
               toleranceSq c with
       | Some replacement => clampColor replacement
       | None => c
       end.

(** The buffer with every whole pixel recoloured. *)
Fixpoint recolorBuffer (changes : list PaletteChange) (useTolerance : bool)
    (toleranceSq : Z) (buf : list Z) : list Z :=
  match buf with
  | r0 :: g0 :: b0 :: a0 :: rest =>
      let c := recolorPixel changes useTolerance toleranceSq
                 {| r := r0; g := g0; b := b0; a := a0 |} in
      r c :: g c :: b c :: a c
        :: recolorBuffer changes useTolerance toleranceSq rest
  | _ => buf
  end.

(** The [p]-th pixel of a buffer. *)
Definition pixelAt (buf : list Z) (p : nat) : option Color :=
  r0 ← buf !! (4 * p)%nat;
  g0 ← buf !! (4 * p + 1)%nat;
  b0 ← buf !! (4 * p + 2)%nat;
  a0 ← buf !! (4 * p + 3)%nat;
  Some {| r := r0; g := g0; b := b0; a := a0 |}.

Section Recolor.
Context (changes : list PaletteChange) (useTolerance : bool)
        (toleranceSq : Z).

Local Abbreviation recolor :=
  (recolorPixel changes useTolerance toleranceSq).
Local Abbreviation recolorAll :=
  (recolorBuffer changes useTolerance toleranceSq).
Local Abbreviation step data :=
  (pixelStep data changes (fromKeysOf changes) useTolerance toleranceSq).

Lemma pixelAt_short buf p : (length buf < 4)%nat -> pixelAt buf p = None.
Proof.
  intros Hlen. unfold pixelAt.
  rewrite (lookup_ge_None_2 buf (4 * p + 3)) by lia.
  by destruct (buf !! _), (buf !! _), (buf !! _).
Qed.

Lemma pixelAt_S r0 g0 b0 a0 rest p :
  pixelAt (r0 :: g0 :: b0 :: a0 :: rest) (Datatypes.S p) = pixelAt rest p.
Proof.
  unfold pixelAt.
  replace (4 * Datatypes.S p)%nat
    with (Datatypes.S (Datatypes.S (Datatypes.S (Datatypes.S (4 * p)))))
    by lia.
  done.
Qed.

Lemma recolorBuffer_length buf : length (recolorAll buf) = length buf.
Proof.
  induction buf as [buf IH] using (induction_ltof1 _ length).
  destruct buf as [|r0 [|g0 [|b0 [|a0 rest]]]]; try done.
  cbn. rewrite IH; [done|]. unfold ltof. cbn. lia.
Qed.

Lemma pixelAt_recolorBuffer buf p :
  pixelAt (recolorAll buf) p = recolor <$> pixelAt buf p.
Proof.
  revert buf. induction p as [|p IH]; intros buf;
    destruct buf as [|r0 [|g0 [|b0 [|a0 rest]]]];
    try (cbn [recolorBuffer]; rewrite pixelAt_short by (cbn; lia); done).
  - unfold pixelAt. cbn. by destruct (recolor _).
  - cbn [recolorBuffer]. by rewrite !pixelAt_S.
Qed.

(** The loop body at a whole pixel. *)
Lemma pixelStep_pixel data (σ : Store) pre r0 g0 b0 a0 rest :
  σ !! data = Some (pre ++ r0 :: g0 :: b0 :: a0 :: rest) ->
  let c := recolor {| r := r0; g := g0; b := b0; a := a0 |} in
  step data σ (Z.of_nat (length pre))
  = <[data := pre ++ r c :: g c :: b c :: a c :: rest]> σ.
Proof.
  intros Hσ c. unfold pixelStep. rewrite Hσ.
  cbn [from_option Datatypes.id]. rewrite Nat2Z.id.
  rewrite !lookup_app_r by lia.
  replace (length pre - length pre)%nat with 0%nat by lia.
  replace (length pre + 1 - length pre)%nat with 1%nat by lia.
  replace (length pre + 2 - length pre)%nat with 2%nat by lia.
  replace (length pre + 3 - length pre)%nat with 3%nat by lia.
  cbn [lookup list_lookup]. subst c. unfold recolorPixel. cbn [a].
  case_bool_decide as Ha.
  - rewrite decide_True by done. cbn. symmetry. by apply insert_id.
  - rewrite decide_False by done.
    destruct (findReplacement _ _ _ _ _) as [t|]; cbn;
      [|symmetry; by apply insert_id].
    f_equal. rewrite !insert_app_r_alt by lia.
    replace (length pre - length pre)%nat with 0%nat by lia.
    replace (length pre + 1 - length pre)%nat with 1%nat by lia.
    replace (length pre + 2 - length pre)%nat with 2%nat by lia.
    replace (length pre + 3 - length pre)%nat with 3%nat by lia.
    done.
Qed.

(** The loop body where fewer than four bytes are left. *)
Lemma pixelStep_short data (σ : Store) pre rest :
  σ !! data = Some (pre ++ rest) -> (length rest < 4)%nat ->
  step data σ (Z.of_nat (length pre)) = σ.
Proof.
  intros Hσ Hlen. unfold pixelStep. rewrite Hσ.
  cbn [from_option Datatypes.id]. rewrite Nat2Z.id.
  rewrite (lookup_ge_None_2 _ (length pre + 3)%nat)
    by (rewrite length_app; lia).
  by repeat case_match.
Qed.

(** The loop from the pixel that starts after [pre]; [n] is the number of
    pixels left, the last of which may be cut short. *)
Lemma pixelLoop data : forall (n : nat) pre suf (σ : Store),
  σ !! data = Some (pre ++ suf) ->
  (length suf <= 4 * n < length suf + 4)%nat ->
  foldl (step data) σ
        ((fun k => Z.of_nat (length pre) + 4 * k) <$> seqZ 0 (Z.of_nat n))
  = <[data := pre ++ recolorAll suf]> σ.
Proof.
  induction n as [|n IH]; intros pre suf σ Hσ Hn.
  { assert (suf = []) as -> by (destruct suf; [done|cbn [length] in Hn; lia]).
    cbn. symmetry. by apply insert_id. }
  rewrite seqZ_cons by lia. cbn [fmap list_fmap foldl].
  rewrite Z.mul_0_r, Z.add_0_r.
  replace (Z.pred (Z.of_nat (Datatypes.S n))) with (Z.of_nat n) by lia.
  rewrite <- (fmap_add_seqZ 1 0), <- list_fmap_compose.
  destruct suf as [|r0 [|g0 [|b0 [|a0 rest]]]];
      try (cbn [length] in Hn; assert (n = 0%nat) as -> by lia;
           rewrite (pixelStep_short _ _ pre _ Hσ) by (cbn; lia);
           cbn; symmetry; by apply insert_id).
    rewrite (pixelStep_pixel _ _ _ _ _ _ _ _ Hσ). cbn zeta.
    set (c := recolor {| r := r0; g := g0; b := b0; a := a0 |}).
    specialize (IH (pre ++ [r c; g c; b c; a c]) rest
                  (<[data := pre ++ r c :: g c :: b c :: a c :: rest]> σ)).
    rewrite length_app in IH. cbn [length] in IH.
    erewrite list_fmap_ext; [rewrite IH|].
    - rewrite insert_insert_eq, <- app_assoc. done.
    - rewrite lookup_insert_eq, <- app_assoc. done.
    - cbn [length] in Hn. lia.
    - intros k. cbn. lia.
Qed.

Lemma applyColorMappings_eq (σ : Store) base :
  applyColorMappingsToImageData σ base changes useTolerance toleranceSq
  = (<[fresh (dom σ) := recolorAll (buffer σ base)]> σ,
     {| data := fresh (dom σ); width := width base;
        height := height base |}).
Proof.
  unfold applyColorMappingsToImageData. cbn zeta. f_equal.
  set (copy := fresh (dom σ)). set (buf := buffer σ base).
  unfold buffer at 1. cbn [data]. rewrite lookup_insert_eq.
  cbn [from_option Datatypes.id].
  unfold pixelOffsets, upto. fold (fromKeysOf changes).
  set (n := (Z.of_nat (length buf) + 3) `div` 4).
  assert (Hn : 4 * n <= Z.of_nat (length buf) + 3 < 4 * n + 4).
  { pose proof (Z.div_mod (Z.of_nat (length buf) + 3) 4 ltac:(lia)).
    pose proof (Z.mod_pos_bound (Z.of_nat (length buf) + 3) 4 ltac:(lia)).
    fold n in H. lia. }
  pose proof (pixelLoop copy (Z.to_nat n) [] buf (<[copy := buf]> σ))
    as Hloop.
  cbn [app length] in Hloop. rewrite insert_insert_eq in Hloop.
  rewrite Z2Nat.id in Hloop by lia.
  rewrite <- Hloop; [done|by rewrite lookup_insert_eq|lia].
Qed.

End Recolor.

(** ** The replacement chosen for a pixel *)

Lemma indexOf_fromKeys changes c :
  indexOf (colorToKey c) (fromKeysOf changes)
  = fst <$> list_find (fun ch => from ch = c) changes.
Proof.
  induction changes as [|ch changes IH]; cbn; [done|].
  destruct (decide (from ch = c)) as [->|Hne].
  - by rewrite bool_decide_true.
  - rewrite bool_decide_false by (intros E; by apply (inj colorToKey) in E).
    fold (fromKeysOf changes). rewrite IH.
    by destruct (list_find _ changes) as [[j x]|].
Qed.

(** Exact mode picks the first change whose [from] is the pixel's colour. *)
Lemma findReplacement_exact changes toleranceSq c :
  findReplacement changes (fromKeysOf changes) false toleranceSq c
  = (fun jc => to jc.2) <$> list_find (fun ch => from ch = c) changes.
Proof.
  unfold findReplacement. rewrite indexOf_fromKeys.
  destruct (list_find _ changes) as [[j ch]|] eqn:Hfind; cbn; [|done].
  apply list_find_Some in Hfind as (Hj & _). by rewrite Hj.
Qed.

(** [changes[j]] is the change nearest to [c]: no change is nearer and
    every earlier change is farther. *)
Definition isNearest (changes : list PaletteChange) (c : Color) (j : nat)
    (ch : PaletteChange) : Prop :=
  changes !! j = Some ch
  /\ forall j' ch', changes !! j' = Some ch' ->
       colorDistanceSq c (from ch) <= colorDistanceSq c (from ch')
       /\ ((j' < j)%nat ->
           colorDistanceSq c (from ch) < colorDistanceSq c (from ch')).

Lemma isNearest_unique changes c j1 ch1 j2 ch2 :
  isNearest changes c j1 ch1 -> isNearest changes c j2 ch2 ->
  j1 = j2 /\ ch1 = ch2.
Proof.
  intros [H1 N1] [H2 N2].
  destruct (N1 j2 ch2 H2) as [? ?]. destruct (N2 j1 ch1 H1) as [? ?].
  assert (j1 = j2) as -> by lia. split; [done|congruence].
Qed.

Lemma indexed_snoc {A} (l : list A) x :
  ColorTools.indexed (l ++ [x]) = ColorTools.indexed l ++ [(length l, x)].
Proof.
  unfold ColorTools.indexed. rewrite length_app. cbn [length].
  rewrite seq_app. cbn [seq]. rewrite zip_with_app by by rewrite length_seq.
  done.
Qed.

(** The state of the tolerance loop after all changes. *)
Lemma nearest_loop changes c :
  (changes = []
   /\ foldl (nearestStep c) (None, PosInf) (ColorTools.indexed changes)
      = (None, PosInf))
  \/ exists j ch,
       isNearest changes c j ch
       /\ foldl (nearestStep c) (None, PosInf) (ColorTools.indexed changes)
          = (Some j, Fin (colorDistanceSq c (from ch))).
Proof.
  induction changes as [|x changes IH] using rev_ind; [by left|].
  right. rewrite indexed_snoc, foldl_snoc.
  destruct IH as [[-> ->]|(j & ch & [Hj Hnear] & ->)].
  - cbn. exists 0%nat, x. split; [|done]. split; [done|].
    intros [|j'] ch'; cbn; [|done]. intros [= <-]. split; lia.
  - unfold nearestStep. cbn [snd Js.ltb].
    destruct (Z.ltb_spec (colorDistanceSq c (from x))
                (colorDistanceSq c (from ch))) as [Hlt|Hge].
    + exists (length changes), x. split; [|done]. split.
      * by rewrite lookup_app_r, Nat.sub_diag by lia.
      * intros j' ch' [[Hlen Hj']|[-> ->]]%lookup_snoc_Some.
        -- destruct (Hnear j' ch' Hj'). split; [lia|]. intros _. lia.
        -- split; lia.
    + exists j, ch. split; [|done]. split.
      * by apply lookup_app_l_Some.
      * intros j' ch' [[Hlen Hj']|[-> ->]]%lookup_snoc_Some.
        -- by apply Hnear.
        -- split; [lia|]. intros Hlt. apply lookup_lt_Some in Hj. lia.
Qed.

(** Tolerance mode picks the nearest change, the earliest of them, when it
    is within the tolerance. *)
Lemma findReplacement_tolerance changes toleranceSq c :
  (changes = []
   /\ findReplacement changes (fromKeysOf changes) true toleranceSq c = None)
  \/ exists j ch,
       isNearest changes c j ch
       /\ findReplacement changes (fromKeysOf changes) true toleranceSq c
          = if decide (colorDistanceSq c (from ch) <= toleranceSq)
            then Some (to ch) else None.
Proof.
  unfold findReplacement.
  destruct (nearest_loop changes c) as [[-> ->]|(j & ch & Hn & ->)].
  - by left.
  - right. exists j, ch. split; [done|]. destruct Hn as [Hj _].
    cbn [Js.geb Js.ltb]. rewrite Hj. cbn.
    destruct (Z.ltb_spec toleranceSq (colorDistanceSq c (from ch)));
      cbn; [by rewrite decide_False by lia|by rewrite decide_True by lia].
Qed.

(** ** The distance the tolerance is measured in *)

(** The squared Euclidean distance of two colours in RGBA space, as the
    specification names it. *)
Definition squaredEuclidean (c1 c2 : Color) : Z :=
  (r c1 - r c2) ^ 2 + (g c1 - g c2) ^ 2 + (b c1 - b c2) ^ 2
  + (a c1 - a c2) ^ 2.

(** [changes[j]] is the change at the least squared Euclidean distance from
    [c], the earliest listed of those at that distance. *)
Definition isNearestChange (changes : list PaletteChange) (c : Color)
    (j : nat) (ch : PaletteChange) : Prop :=
  changes !! j = Some ch
  /\ forall j' ch', changes !! j' = Some ch' ->
       squaredEuclidean c (from ch) <= squaredEuclidean c (from ch')
       /\ ((j' < j)%nat ->
           squaredEuclidean c (from ch) < squaredEuclidean c (from ch')).

Lemma colorDistanceSq_squaredEuclidean c1 c2 :
  colorDistanceSq c1 c2 = squaredEuclidean c1 c2.
Proof. unfold colorDistanceSq, squaredEuclidean. cbn zeta. lia. Qed.

Lemma isNearest_isNearestChange changes c j ch :
  isNearest changes c j ch <-> isNearestChange changes c j ch.
Proof.
  unfold isNearest, isNearestChange.
  by setoid_rewrite colorDistanceSq_squaredEuclidean.
Qed.

(** ** Statements about applyColorMappingsToImageData *)

(** A 2x2 image: two red pixels, a transparent one and a grey one. *)
Definition sampleStore : Store :=
  {[ 1%positive := [255; 0; 0; 255; 255; 0; 0; 255;
                    9; 9; 9; 0; 10; 20; 30; 40] ]}.

Definition sampleImage : ImageData :=
  {| data := 1%positive; width := 2; height := 2 |}.

Definition redToGreen : PaletteChange :=
  {| from := {| r := 255; g := 0; b := 0; a := 255 |};
     to := {| r := 0; g := 255; b := 0; a := 255 |} |}.

Definition greyToBlue : PaletteChange :=
  {| from := {| r := 10; g := 20; b := 30; a := 40 |};
     to := {| r := 0; g := 0; b := 255; a := 255 |} |}.

(** C5.  [applyColorMappingsToImageData] allocates the buffer of its
    result, which has the dimensions and the length of the base image, and
    leaves every buffer that existed, the base image's among them, as it
    was.  A pixel with [alpha = 0] is copied.  In exact mode another pixel
    becomes the [to] of the first change whose [from] is its colour, and is
    copied when there is none.  In tolerance mode it becomes the [to] of
    the change at the least squared Euclidean distance in RGBA, the
    earliest of them, if that distance is at most [toleranceSq], and is
    copied otherwise.  ([to] is stored as a [Uint8ClampedArray] stores it,
    which leaves a colour of bytes as it is.) *)
Theorem applyColorMappings_spec (σ : Store) (base : ImageData)
    (changes : list PaletteChange) (useTolerance : bool) (toleranceSq : Z) :
  let res :=
    applyColorMappingsToImageData σ base changes useTolerance toleranceSq in
  let σ' := res.1 in
  let out := res.2 in
  (data out ∉ dom σ)
  /\ (forall l, l ∈ dom σ -> σ' !! l = σ !! l)
  /\ width out = width base /\ height out = height base
  /\ length (buffer σ' out) = length (buffer σ base)
  /\ (forall p c, pixelAt (buffer σ base) p = Some c ->
        exists c', pixelAt (buffer σ' out) p = Some c'
          /\ (a c = 0 -> c' = c)
          /\ (a c <> 0 -> useTolerance = false ->
              (forall j ch,
                 list_find (fun ch => from ch = c) changes = Some (j, ch) ->
                 c' = clampColor (to ch))
              /\ (Forall (fun ch => from ch <> c) changes -> c' = c))
          /\ (a c <> 0 -> useTolerance = true ->
              (forall j ch, isNearestChange changes c j ch ->
                 c' = if decide (squaredEuclidean c (from ch) <= toleranceSq)
                      then clampColor (to ch) else c)
              /\ (changes = [] -> c' = c)))
  /\ (forall t, validColor t -> clampColor t = t)
  /\ (changes <> [] ->
      forall c, exists j ch, isNearestChange changes c j ch).
Proof.
  intros res σ' out. subst res σ' out. rewrite applyColorMappings_eq.
  cbn [fst snd data width height].
  assert (Hfresh : fresh (dom σ) ∉ dom σ) by apply is_fresh.
  assert (Hbuf : buffer (<[fresh (dom σ) :=
                            recolorBuffer changes useTolerance toleranceSq
                              (buffer σ base)]> σ)
                   {| data := fresh (dom σ); width := width base;
                      height := height base |}
                 = recolorBuffer changes useTolerance toleranceSq
                     (buffer σ base)).
  { unfold buffer at 1. cbn [data]. by rewrite lookup_insert_eq. }
  rewrite Hbuf. split_and!; try done.
  - intros l Hl. apply lookup_insert_ne. intros <-. done.
  - apply recolorBuffer_length.
  - intros p c Hp. rewrite pixelAt_recolorBuffer, Hp. cbn.
    eexists. split; [done|]. unfold recolorPixel. split_and!.
    + intros Ha. by rewrite decide_True.
    + intros Ha ->. rewrite decide_False by done.
      rewrite findReplacement_exact. split.
      * intros j ch ->. done.
      * intros Hnone. apply (list_find_None (fun ch => from ch = c)) in Hnone.
        by rewrite Hnone.
    + intros Ha ->. rewrite decide_False by done.
      destruct (findReplacement_tolerance changes toleranceSq c)
        as [[-> ->]|(j & ch & Hn & ->)].
      * split; [|done]. intros j ch [Hj _]. by rewrite lookup_nil in Hj.
      * split.
        -- intros j' ch' Hn'%isNearest_isNearestChange.
           destruct (isNearest_unique _ _ _ _ _ _ Hn Hn') as [<- <-].
           rewrite colorDistanceSq_squaredEuclidean. by case_decide.
        -- intros ->. destruct Hn as [Hj _]. by rewrite lookup_nil in Hj.
  - apply clampColor_valid.
  - intros Hne c.
    destruct (nearest_loop changes c) as [[-> _]|(j & ch & Hn & _)];
      [done|].
    exists j, ch. by apply isNearest_isNearestChange.
Qed.

(** The end-to-end scenario of the specification, with a transparent and an
    unmatched pixel added. *)
Example applyColorMappings_red_to_green :
  let res := applyColorMappingsToImageData sampleStore sampleImage
               [redToGreen] false 400 in
  buffer res.1 res.2
  = [0; 255; 0; 255; 0; 255; 0; 255; 9; 9; 9; 0; 10; 20; 30; 40]
  /\ buffer res.1 sampleImage = buffer sampleStore sampleImage.
Proof. by vm_compute. Qed.

(** Tolerance mode on the sample image: the red pixels are within the
    tolerance of the nearer of two changes, the grey pixel is not. *)
Example applyColorMappings_nearest :
  let nearRed := {| from := {| r := 250; g := 5; b := 0; a := 255 |};
                    to := {| r := 0; g := 255; b := 0; a := 255 |} |} in
  let farRed := {| from := {| r := 200; g := 0; b := 0; a := 255 |};
                   to := {| r := 0; g := 0; b := 255; a := 255 |} |} in
  let res := applyColorMappingsToImageData sampleStore sampleImage
               [farRed; nearRed] true 50 in
  squaredEuclidean {| r := 255; g := 0; b := 0; a := 255 |} (from nearRed)
  = 50
  /\ buffer res.1 res.2
     = [0; 255; 0; 255; 0; 255; 0; 255; 9; 9; 9; 0; 10; 20; 30; 40].
Proof. by vm_compute. Qed.

Lemma recolorBuffer_idem changes useTolerance toleranceSq buf :
  (forall c, recolorPixel changes useTolerance toleranceSq
               (recolorPixel changes useTolerance toleranceSq c)
             = recolorPixel changes useTolerance toleranceSq c) ->
  recolorBuffer changes useTolerance toleranceSq
    (recolorBuffer changes useTolerance toleranceSq buf)
  = recolorBuffer changes useTolerance toleranceSq buf.
Proof.
  intros Hidem. induction buf as [buf IH] using (induction_ltof1 _ length).
  destruct buf as [|r0 [|g0 [|b0 [|a0 rest]]]]; try done.
  cbn [recolorBuffer].
  set (c := recolorPixel _ _ _ {| r := r0; g := g0; b := b0; a := a0 |}).
  assert (Hc : {| r := r c; g := g c; b := b c; a := a c |} = c)
    by by destruct c.
  rewrite Hc. unfold c at 1 2 3 4. rewrite Hidem. fold c.
  rewrite IH; [done|]. unfold ltof. cbn. lia.
Qed.

(** In exact mode a recoloured pixel is recoloured to itself, when every
    [to] is a colour of bytes and no [to] is a [from]. *)
Lemma recolorPixel_exact_idem changes toleranceSq c :
  Forall (fun ch => validColor (to ch)) changes ->
  (forall ch1 ch2, ch1 ∈ changes -> ch2 ∈ changes -> to ch1 <> from ch2) ->
  recolorPixel changes false toleranceSq
    (recolorPixel changes false toleranceSq c)
  = recolorPixel changes false toleranceSq c.
Proof.
  intros Hvalid Hdisj.
  assert (Hc : recolorPixel changes false toleranceSq c = c
               \/ exists ch, ch ∈ changes
                    /\ recolorPixel changes false toleranceSq c = to ch).
  { unfold recolorPixel. case_decide; [by left|].
    rewrite findReplacement_exact.
    destruct (list_find _ changes) as [[j ch]|] eqn:Hfind; cbn; [|by left].
    apply list_find_Some in Hfind as (Hj%list_elem_of_lookup_2 & _ & _).
    right. exists ch. split; [done|]. apply clampColor_valid.
    by apply (proj1 (Forall_forall _ _) Hvalid). }
  destruct Hc as [Hc|(ch & Hch & Hc)]; rewrite Hc; [done|].
  unfold recolorPixel. case_decide; [done|].
  rewrite findReplacement_exact.
  destruct (list_find _ changes) as [[j' ch']|] eqn:Hfind'; cbn; [|done].
  apply list_find_Some in Hfind' as (Hj'%list_elem_of_lookup_2 & Heq & _).
  by destruct (Hdisj ch ch' Hch Hj').
Qed.

(** C9.  In exact mode, when no [to] colour of the list is a [from] colour
    of the list (the colours being colours of bytes), applying the changes
    to the result of applying them gives that result again. *)
Theorem applyColorMappings_idempotent (σ : Store) (base : ImageData)
    (changes : list PaletteChange) (toleranceSq : Z) :
  Forall (fun ch => validColor (to ch)) changes ->
  (forall ch1 ch2, ch1 ∈ changes -> ch2 ∈ changes -> to ch1 <> from ch2) ->
  let once :=
    applyColorMappingsToImageData σ base changes false toleranceSq in
  let twice :=
    applyColorMappingsToImageData once.1 once.2 changes false toleranceSq in
  buffer twice.1 twice.2 = buffer once.1 once.2
  /\ width twice.2 = width once.2 /\ height twice.2 = height once.2.
Proof.
  intros Hvalid Hdisj once twice. subst once twice.
  rewrite !applyColorMappings_eq. cbn [fst snd width height].
  split; [|done]. unfold buffer. cbn [data]. rewrite !lookup_insert_eq.
  cbn [from_option Datatypes.id]. apply recolorBuffer_idem.
  intros c. by apply recolorPixel_exact_idem.
Qed.

Lemma applyColorMappings_idempotent_sample :
  let once :=
    applyColorMappingsToImageData sampleStore sampleImage
      [redToGreen; greyToBlue] false 400 in
  let twice :=
    applyColorMappingsToImageData once.1 once.2 [redToGreen; greyToBlue]
      false 400 in
  buffer twice.1 twice.2 = buffer once.1 once.2
  /\ width twice.2 = width once.2 /\ height twice.2 = height once.2.
Proof.
  apply (applyColorMappings_idempotent sampleStore sampleImage
           [redToGreen; greyToBlue] 400).
  - repeat constructor; cbn; lia.
  - intros ch1 ch2 H1 H2.
    repeat (apply elem_of_cons in H1 as [->|H1]);
      repeat (apply elem_of_cons in H2 as [->|H2]);
      try discriminate; by apply elem_of_nil in H1 || by apply elem_of_nil in H2.
Defined.

(** ** The sampling loops of extractDominantColors *)

(** A loop over [l] whose body may run out of fuel. *)
Fixpoint foldO {S X} (body : S -> X -> option S) (l : list X) (s : S)
  : option S :=
  match l with
  | [] => Some s
  | x :: l' => s' ← body s x; foldO body l' s'
  end.

Lemma foldO_Some {S X} (body : S -> X -> option S) (pure : S -> X -> S) l s :
  (forall s x, body s x = Some (pure s x)) ->
  foldO body l s = Some (foldl pure s l).
Proof.
  intros Hb. revert s. induction l as [|x l IH]; intros s; cbn; [done|].
  rewrite Hb. cbn. apply IH.
Qed.

(** With a positive step, [n] iterations and more fuel than that, the loop
    visits [v, v + step, ..., v + (n - 1) step]. *)
Lemma forStep_from {S} (body : S -> Z -> option S) limit step :
  0 < step ->
  forall (n fuel : nat) v s,
    (n < fuel)%nat ->
    limit <= v + Z.of_nat n * step ->
    (n = 0%nat \/ v + (Z.of_nat n - 1) * step < limit) ->
    forStep fuel v limit step body s
    = foldO body ((fun k => v + k * step) <$> seqZ 0 (Z.of_nat n)) s.
Proof.
  intros Hstep. induction n as [|n IH]; intros fuel v s Hfuel Hhi Hlo.
  - destruct fuel as [|fuel]; [lia|]. cbn.
    by rewrite bool_decide_false by lia.
  - destruct fuel as [|fuel]; [lia|]. cbn [forStep].
    destruct Hlo as [?|Hlo]; [lia|].
    rewrite bool_decide_true by nia.
    rewrite seqZ_cons by lia. cbn [fmap list_fmap foldO].
    rewrite Z.mul_0_l, Z.add_0_r.
    replace (Z.pred (Z.of_nat (Datatypes.S n))) with (Z.of_nat n) by lia.
    rewrite <- (fmap_add_seqZ 1 0), <- list_fmap_compose.
    destruct (body s v) as [s'|]; cbn; [|done].
    rewrite (IH fuel (v + step) s') by (try destruct n; nia).
    f_equal. apply list_fmap_ext. intros k. cbn. lia.
Qed.

(** How many of [0, step, 2 step, ...] lie below [limit]. *)
Definition stepCount (limit step : Z) : nat :=
  Z.to_nat ((limit + step - 1) `div` step).

(** The values [0, step, 2 step, ...] below [limit]. *)
Definition stepped (limit step : Z) : list Z :=
  (fun k => k * step) <$> seqZ 0 (Z.of_nat (stepCount limit step)).

Lemma forStep_stepped {S} (body : S -> Z -> option S) limit step fuel s :
  0 < step -> (stepCount limit step < fuel)%nat ->
  forStep fuel 0 limit step body s = foldO body (stepped limit step) s.
Proof.
  intros Hstep Hfuel. unfold stepped.
  rewrite (forStep_from body limit step Hstep (stepCount limit step));
    [done..| |].
  - unfold stepCount.
    pose proof (Z.div_mod (limit + step - 1) step ltac:(lia)).
    pose proof (Z.mod_pos_bound (limit + step - 1) step Hstep).
    destruct (Z.le_gt_cases ((limit + step - 1) `div` step) 0).
    + rewrite Z2Nat.nonpos by done. nia.
    + rewrite Z2Nat.id by lia. nia.
  - unfold stepCount.
    pose proof (Z.div_mod (limit + step - 1) step ltac:(lia)).
    pose proof (Z.mod_pos_bound (limit + step - 1) step Hstep).
    destruct (Z.le_gt_cases ((limit + step - 1) `div` step) 0).
    + left. by rewrite Z2Nat.nonpos.
    + right. rewrite Z2Nat.id by lia. nia.
Qed.

Lemma elem_of_stepped limit step v :
  0 < step ->
  v ∈ stepped limit step <-> exists k, v = k * step /\ 0 <= k /\ v < limit.
Proof.
  intros Hstep. unfold stepped, stepCount.
  rewrite list_elem_of_fmap. setoid_rewrite elem_of_seqZ.
  pose proof (Z.div_mod (limit + step - 1) step ltac:(lia)).
  pose proof (Z.mod_pos_bound (limit + step - 1) step Hstep).
  split.
  - intros (k & -> & Hk). exists k. split; [done|].
    destruct (Z.le_gt_cases ((limit + step - 1) `div` step) 0).
    + rewrite Z2Nat.nonpos in Hk by done. lia.
    + rewrite Z2Nat.id in Hk by lia. nia.
  - intros (k & -> & Hk & Hlt). exists k. split; [done|].
    rewrite Z2Nat.id by nia. nia.
Qed.

(** The key counted for the pixel at [(x, y)], when it is counted. *)
Definition sampleKey (buf : list Z) (width : Z) (p : Z * Z)
  : option string :=
  let idx := (p.1 * width + p.2) * 4 in
  let a0 := buf !! Z.to_nat (idx + 3) in
  if bool_decide (a0 = Some 0) then None
  else Some (quantizeColor (buf !! Z.to_nat idx) (buf !! Z.to_nat (idx + 1))
               (buf !! Z.to_nat (idx + 2)) a0).

(** The sampled coordinates [(y, x)], row by row. *)
Definition sampleCoords (width height step : Z) : list (Z * Z) :=
  stepped height step ≫= fun y => pair y <$> stepped width step.

(** The keys counted, in scan order. *)
Definition sampleKeys (buf : list Z) (width height step : Z) : list string :=
  omap (sampleKey buf width) (sampleCoords width height step).

(** The counts after the keys [keys] have been counted in turn. *)
Definition tally (keys : list string) : list (string * Z) :=
  foldl (fun counts key => bump key counts) [] keys.

Lemma sampleStepBody_key buf width y counts x :
  sampleStepBody buf width y counts x
  = Some (match sampleKey buf width (y, x) with
          | Some key => bump key counts
          | None => counts
          end).
Proof. unfold sampleStepBody, sampleKey. cbn. by case_bool_decide. Qed.

Lemma foldl_omap {S X K} (f : X -> option K) (g : S -> K -> S) l s :
  foldl (fun s x => match f x with Some k => g s k | None => s end) s l
  = foldl g s (omap f l).
Proof.
  revert s. induction l as [|x l IH]; intros s; cbn; [done|].
  rewrite IH. by destruct (f x).
Qed.

Lemma foldl_nested {S Y X} (g : S -> Y * X -> S) ys xs s :
  foldl (fun s y => foldl (fun s x => g s (y, x)) s xs) s ys
  = foldl g s (ys ≫= fun y => pair y <$> xs).
Proof.
  revert s. induction ys as [|y ys IH]; intros s; cbn; [done|].
  rewrite foldl_app, IH. f_equal.
  clear. revert s. induction xs as [|x xs IHx]; intros s; cbn; [done|].
  apply IHx.
Qed.

(** With a positive step and enough fuel, [extractDominantColors] returns
    the colours of the [maxColors] first keys of the sorted tally. *)
Lemma extractDominantColors_eq fuel (σ : Store) img maxColors step :
  0 < step ->
  (stepCount (width img) step < fuel)%nat ->
  (stepCount (height img) step < fuel)%nat ->
  extractDominantColors fuel σ img maxColors step
  = Some (dequantizeColor
            <$> (slice0 maxColors
                   (sortDesc (tally (sampleKeys (buffer σ img) (width img)
                                       (height img) step)))).*1).
Proof.
  intros Hstep Hw Hh. unfold extractDominantColors.
  rewrite forStep_stepped by done.
  erewrite (foldO_Some _
    (fun counts y =>
       foldl (fun counts x =>
                match sampleKey (buffer σ img) (width img) (y, x) with
                | Some key => bump key counts
                | None => counts
                end) counts (stepped (width img) step))).
  - cbn [mbind option_bind]. do 5 f_equal.
    rewrite (foldl_nested
      (fun counts p => match sampleKey (buffer σ img) (width img) p with
                       | Some key => bump key counts
                       | None => counts
                       end)).
    by rewrite foldl_omap.
  - intros counts y. rewrite forStep_stepped by done.
    apply foldO_Some. intros. apply sampleStepBody_key.
Qed.

(** ** The tally *)

(** How often [k] was counted. *)
Definition occurrences (keys : list string) (k : string) : Z :=
  Z.of_nat (length (filter (fun x => x = k) keys)).

(** The keys counted, each once, in the order of their first
    occurrences. *)
Definition distinctKeys (keys : list string) : list string :=
  FirstSeen.firstSeen (fun k : string => k) [] keys.

Lemma occurrences_snoc keys k0 k :
  occurrences (keys ++ [k0]) k
  = occurrences keys k + (if decide (k0 = k) then 1 else 0).
Proof.
  unfold occurrences. rewrite filter_app, length_app, filter_cons, filter_nil.
  case_decide; cbn; lia.
Qed.

Lemma occurrences_absent keys k : k ∉ keys -> occurrences keys k = 0.
Proof.
  intros Hk. unfold occurrences.
  destruct (filter _ keys) as [|x l] eqn:Hf; [done|].
  assert (Hx : x ∈ filter (fun x => x = k) keys) by (rewrite Hf; left).
  apply list_elem_of_filter in Hx as [-> Hx]. done.
Qed.

Lemma occurrences_present keys k : k ∈ keys -> 0 < occurrences keys k.
Proof.
  intros Hk. unfold occurrences.
  assert (Hx : k ∈ filter (fun x => x = k) keys)
    by by apply list_elem_of_filter.
  destruct (filter _ keys); [by apply elem_of_nil in Hx|cbn; lia].
Qed.

Lemma elem_of_distinctKeys keys k : k ∈ distinctKeys keys <-> k ∈ keys.
Proof.
  unfold distinctKeys.
  pose proof (FirstSeen.firstSeen_keys (fun k : string => k) [] keys k) as H.
  rewrite !list_fmap_id in H. rewrite H. pose proof (not_elem_of_nil k).
  tauto.
Qed.

Lemma NoDup_distinctKeys keys : NoDup (distinctKeys keys).
Proof.
  pose proof (FirstSeen.firstSeen_NoDup (fun k : string => k) [] keys) as H.
  by rewrite list_fmap_id in H.
Qed.

Lemma distinctKeys_snoc keys k :
  distinctKeys (keys ++ [k])
  = distinctKeys keys ++ (if decide (k ∈ keys) then [] else [k]).
Proof.
  unfold distinctKeys. rewrite FirstSeen.firstSeen_snoc.
  by rewrite list_fmap_id.
Qed.

Lemma bump_present k0 (c : string -> Z) L :
  NoDup L -> k0 ∈ L ->
  bump k0 ((fun k => (k, c k)) <$> L)
  = (fun k => (k, if decide (k0 = k) then c k + 1 else c k)) <$> L.
Proof.
  induction 1 as [|k L Hk Hnd IH]; intros Hin; [by apply elem_of_nil in Hin|].
  cbn. destruct (decide (k = k0)) as [->|Hne].
  - rewrite bool_decide_true, decide_True by done. f_equal.
    apply Forall_fmap_ext_1, Forall_forall. intros k Hk'.
    rewrite decide_False; [done|]. by intros <-.
  - rewrite bool_decide_false, decide_False by done. f_equal.
    apply IH. apply elem_of_cons in Hin as [?|?]; [done|done].
Qed.

Lemma bump_absent k0 (c : string -> Z) L :
  k0 ∉ L ->
  bump k0 ((fun k => (k, c k)) <$> L)
  = ((fun k => (k, c k)) <$> L) ++ [(k0, 1)].
Proof.
  induction L as [|k L IH]; intros Hin; [done|].
  apply not_elem_of_cons in Hin as [Hne Hin]. cbn.
  rewrite bool_decide_false by done. f_equal. by apply IH.
Qed.

(** The tally lists the distinct keys in first-seen order, each with the
    number of its occurrences. *)
Lemma tally_eq keys :
  tally keys = (fun k => (k, occurrences keys k)) <$> distinctKeys keys.
Proof.
  induction keys as [|k0 keys IH] using rev_ind; [done|].
  unfold tally in *. rewrite foldl_snoc, IH, distinctKeys_snoc.
  destruct (decide (k0 ∈ keys)) as [Hin|Hout].
  - rewrite app_nil_r, bump_present;
      [|apply NoDup_distinctKeys|by apply elem_of_distinctKeys].
    apply list_fmap_ext. intros i k _. rewrite occurrences_snoc.
    case_decide; f_equal; lia.
  - rewrite bump_absent by by rewrite elem_of_distinctKeys.
    rewrite fmap_app. cbn. f_equal.
    + apply Forall_fmap_ext_1, Forall_forall.
      intros k Hk. apply (proj1 (elem_of_distinctKeys _ _)) in Hk.
      rewrite occurrences_snoc.
      rewrite decide_False; [f_equal; lia|].
      intros E. apply Hout. by rewrite E.
    + rewrite occurrences_snoc, occurrences_absent, decide_True by done.
      done.
Qed.

(** ** The sort *)

(** The sort on the keys of entries [(k, c k)]. *)
Fixpoint insertKey (c : string -> Z) (k : string) (sorted : list string)
  : list string :=
  match sorted with
  | [] => [k]
  | k' :: rest =>
      if bool_decide (c k < c k') then k' :: insertKey c k rest
      else k :: k' :: rest
  end.

Definition sortKeys (c : string -> Z) (keys : list string) : list string :=
  foldr (insertKey c) [] keys.

Lemma insertDesc_keys c k L :
  insertDesc (k, c k) ((fun k => (k, c k)) <$> L)
  = (fun k => (k, c k)) <$> insertKey c k L.
Proof.
  induction L as [|k' L IH]; cbn; [done|].
  case_bool_decide; cbn; [by rewrite IH|done].
Qed.

Lemma sortDesc_keys c L :
  sortDesc ((fun k => (k, c k)) <$> L) = (fun k => (k, c k)) <$> sortKeys c L.
Proof.
  unfold sortDesc, sortKeys. induction L as [|k L IH]; cbn; [done|].
  by rewrite IH, insertDesc_keys.
Qed.

Lemma insertKey_perm c k L : insertKey c k L ≡ₚ k :: L.
Proof.
  induction L as [|k' L IH]; cbn; [done|].
  case_bool_decide; [|done]. rewrite IH. apply Permutation_swap.
Qed.

Lemma sortKeys_perm c L : sortKeys c L ≡ₚ L.
Proof.
  unfold sortKeys. induction L as [|k L IH]; cbn; [done|].
  by rewrite insertKey_perm, IH.
Qed.

(** [k1] comes before [k2] in [L]. *)
Definition precedes (L : list string) (k1 k2 : string) : Prop :=
  exists i j, (i < j)%nat /\ L !! i = Some k1 /\ L !! j = Some k2.

(** [k1] ranks before [k2]: it has the greater count, or the same count
    and the earlier place in [L]. *)
Definition ranksBefore (c : string -> Z) (L : list string)
    (k1 k2 : string) : Prop :=
  c k2 < c k1 \/ (c k1 = c k2 /\ precedes L k1 k2).

Lemma ranksBefore_cons c k L k1 k2 :
  ranksBefore c L k1 k2 -> ranksBefore c (k :: L) k1 k2.
Proof.
  intros [?|[? (i & j & Hij & Hi & Hj)]]; [by left|right].
  split; [done|]. exists (Datatypes.S i), (Datatypes.S j).
  split; [lia|done].
Qed.

Lemma insertKey_sorted c (R : relation string) k s :
  (forall k1 k2, R k1 k2 -> c k2 <= c k1) ->
  StronglySorted R s ->
  (forall x, x ∈ s -> c x <= c k -> R k x) ->
  (forall x, x ∈ s -> c k < c x -> R x k) ->
  StronglySorted R (insertKey c k s).
Proof.
  intros Hmono Hs. induction Hs as [|y s Hs IH Hy]; intros Hle Hgt; cbn.
  - repeat constructor.
  - case_bool_decide as Hc.
    + constructor.
      * apply IH; intros x Hx; [apply Hle|apply Hgt]; by right.
      * rewrite insertKey_perm. constructor; [|done].
        apply Hgt; [left|done].
    + constructor; [by constructor|].
      apply Forall_forall. intros x Hx. apply Hle; [done|].
      apply elem_of_cons in Hx as [->|Hx]; [lia|].
      pose proof (Hmono y x (proj1 (Forall_forall _ _) Hy x Hx)). lia.
Qed.

Lemma StronglySorted_mono {A} (R1 R2 : relation A) l :
  (forall a b, R1 a b -> R2 a b) ->
  StronglySorted R1 l -> StronglySorted R2 l.
Proof.
  intros Himp. induction 1 as [|x l _ IH Hx]; constructor; [done|].
  eapply Forall_impl; [exact Hx|]. apply Himp.
Qed.

(** The sort is stable: it orders by descending count and keeps keys of
    equal count in the order they had. *)
Lemma sortKeys_sorted c L : StronglySorted (ranksBefore c L) (sortKeys c L).
Proof.
  induction L as [|k L IH]; cbn; [constructor|].
  apply insertKey_sorted.
  - intros k1 k2 [?|[? _]]; lia.
  - eapply StronglySorted_mono; [|exact IH].
    intros. by apply ranksBefore_cons.
  - intros x Hx%(elem_of_Permutation_proper _ _ _ (sortKeys_perm c L)) Hc.
    apply list_elem_of_lookup in Hx as [j Hj].
    destruct (decide (c x = c k)) as [Heq|Hne]; [|left; lia].
    right. split; [done|]. exists 0%nat, (Datatypes.S j).
    split; [lia|done].
  - intros x _ Hc. by left.
Qed.

(** ** Buckets and their keys *)

(** The four channels read for the pixel at [(y, x)]; a channel is [None]
    past the end of the buffer. *)
Definition channels (buf : list Z) (width : Z) (p : Z * Z)
  : option Z * option Z * option Z * option Z :=
  let idx := (p.1 * width + p.2) * 4 in
  (buf !! Z.to_nat idx, buf !! Z.to_nat (idx + 1),
   buf !! Z.to_nat (idx + 2), buf !! Z.to_nat (idx + 3)).

(** The bucket of a pixel: the high four bits of each channel. *)
Definition bucketOf (ch : option Z * option Z * option Z * option Z)
  : Z * Z * Z * Z :=
  let '(r0, g0, b0, a0) := ch in
  (high4 (default 0 r0), high4 (default 0 g0), high4 (default 0 b0),
   high4 (default 0 a0)).

Definition bucketKey (q : Z * Z * Z * Z) : string :=
  let '(qr, qg, qb, qa) := q in
  pretty qr +:+ "," +:+ pretty qg +:+ "," +:+ pretty qb +:+ "," +:+ pretty qa.

(** [(bucket << 4) | bucket] *)
Definition replicate4 (q : Z) : Z := Z.lor (Z.shiftl q 4) q.

Definition representative (q : Z * Z * Z * Z) : Color :=
  let '(qr, qg, qb, qa) := q in
  {| r := replicate4 qr; g := replicate4 qg; b := replicate4 qb;
     a := replicate4 qa |}.

Definition validBucket (q : Z * Z * Z * Z) : Prop :=
  let '(qr, qg, qb, qa) := q in
  (0 <= qr <= 15) /\ (0 <= qg <= 15) /\ (0 <= qb <= 15) /\ (0 <= qa <= 15).

Lemma high4_range v : 0 <= high4 v <= 15.
Proof.
  unfold high4.
  assert (Hmod : forall w, Z.land w 15 = w `mod` 16).
  { intros w. change 15 with (Z.ones 4). by rewrite Z.land_ones by lia. }
  rewrite Hmod.
  pose proof (Z.mod_pos_bound (Z.shiftr (toInt32 v) 4) 16). lia.
Qed.

(** On a byte, the bucket is the byte divided by 16. *)
Lemma high4_byte v : 0 <= v <= 255 -> high4 v = v `div` 16.
Proof.
  intros Hv. unfold high4, toInt32.
  change (2 ^ 31) with 2147483648. change (2 ^ 32) with 4294967296.
  replace ((v + 2147483648) `mod` 4294967296 - 2147483648) with v
    by (rewrite Z.mod_small; lia).
  change 15 with (Z.ones 4). rewrite Z.land_ones, Z.shiftr_div_pow2 by lia.
  change (2 ^ 4) with 16. apply Z.mod_small.
  pose proof (Z.div_mod v 16). pose proof (Z.mod_pos_bound v 16). lia.
Qed.

Lemma bucketOf_valid ch : validBucket (bucketOf ch).
Proof.
  destruct ch as [[[r0 g0] b0] a0]. cbn. auto using high4_range.
Qed.

Lemma quantizeColor_bucket r0 g0 b0 a0 :
  quantizeColor r0 g0 b0 a0 = bucketKey (bucketOf (r0, g0, b0, a0)).
Proof. done. Qed.

Global Instance bucketKey_inj : Inj (=) (=) bucketKey.
Proof.
  intros [[[r1 g1] b1] a1] [[[r2 g2] b2] a2]. unfold bucketKey. intros Heq.
  apply comma_join_inj in Heq as [Hr Heq]; try apply pretty_Z_noComma.
  apply comma_join_inj in Heq as [Hg Heq]; try apply pretty_Z_noComma.
  apply comma_join_inj in Heq as [Hb Ha]; try apply pretty_Z_noComma.
  apply (inj pretty) in Hr, Hg, Hb, Ha. by subst.
Qed.

Lemma splitComma_noComma s : noComma s -> splitComma s = [s].
Proof.
  induction s as [|c s IH]; cbn; [done|]. intros [Hc Hs].
  rewrite bool_decide_false by done. by rewrite IH.
Qed.

Lemma splitComma_join s t :
  noComma s -> splitComma (s +:+ String "," t) = s :: splitComma t.
Proof.
  induction s as [|c s IH];
    repeat (rewrite append_nil_l || rewrite append_cons); cbn.
  - intros _. done.
  - intros [Hc Hs]. rewrite bool_decide_false by done. by rewrite IH.
Qed.

Lemma small_cases q :
  0 <= q <= 15 ->
  q = 0 \/ q = 1 \/ q = 2 \/ q = 3 \/ q = 4 \/ q = 5 \/ q = 6 \/ q = 7
  \/ q = 8 \/ q = 9 \/ q = 10 \/ q = 11 \/ q = 12 \/ q = 13 \/ q = 14
  \/ q = 15.
Proof. lia. Qed.

(** [parseInt] reads back what was printed, and the expansion is the
    replication of the four bits. *)
Lemma expand_parse q :
  0 <= q <= 15 -> expand (Some (parseInt10 (pretty q))) = replicate4 q.
Proof.
  intros Hq. destruct (small_cases q Hq) as
    [->|[->|[->|[->|[->|[->|[->|[->|[->|[->|[->|[->|[->|[->|[->| ->]]]]]]]]]]]]]]];
    by vm_compute.
Qed.

(** The colour of a key is the representative of its bucket. *)
Lemma dequantizeColor_bucketKey q :
  validBucket q -> dequantizeColor (bucketKey q) = representative q.
Proof.
  destruct q as [[[qr qg] qb] qa]. intros (Hr & Hg & Hb & Ha).
  unfold dequantizeColor, bucketKey.
  repeat (rewrite append_nil_l || rewrite append_cons).
  rewrite !splitComma_join, splitComma_noComma by apply pretty_Z_noComma.
  cbn [fmap list_fmap lookup list_lookup representative].
  by rewrite !expand_parse.
Qed.

(** ** Statements about extractDominantColors *)

(** [k1] ranks before [k2]: it was counted more often, or as often and
    first seen earlier in the scan. *)
Definition keyRanks (keys : list string) (k1 k2 : string) : Prop :=
  occurrences keys k2 < occurrences keys k1
  \/ (occurrences keys k1 = occurrences keys k2
      /\ exists i j, (i < j)%nat
           /\ list_find (fun x => x = k1) keys = Some (i, k1)
           /\ list_find (fun x => x = k2) keys = Some (j, k2)).

(** The distinct keys, ranked. *)
Definition rankedKeys (keys : list string) : list string :=
  sortKeys (occurrences keys) (distinctKeys keys).

Lemma rankedKeys_perm keys : rankedKeys keys ≡ₚ distinctKeys keys.
Proof. apply sortKeys_perm. Qed.

Lemma elem_of_rankedKeys keys k : k ∈ rankedKeys keys <-> k ∈ keys.
Proof. by rewrite rankedKeys_perm, elem_of_distinctKeys. Qed.

Lemma NoDup_rankedKeys keys : NoDup (rankedKeys keys).
Proof. rewrite rankedKeys_perm. apply NoDup_distinctKeys. Qed.

Lemma rankedKeys_sorted keys :
  StronglySorted (keyRanks keys) (rankedKeys keys).
Proof.
  eapply StronglySorted_mono; [|apply sortKeys_sorted].
  intros k1 k2 [?|[Heq (i & j & Hij & Hi & Hj)]]; [by left|right].
  split; [done|].
  exact (FirstSeen.firstSeen_order (fun k : string => k) [] keys i j k1 k2
           Hij Hi Hj).
Qed.

Lemma slice0_take {A} (n : Z) (l : list A) :
  0 <= n -> slice0 n l = take (Z.to_nat n) l.
Proof. intros Hn. unfold slice0. by rewrite bool_decide_false by lia. Qed.

Lemma extractDominantColors_ranked fuel (σ : Store) img maxColors step :
  0 < step -> 0 <= maxColors ->
  (stepCount (width img) step < fuel)%nat ->
  (stepCount (height img) step < fuel)%nat ->
  extractDominantColors fuel σ img maxColors step
  = Some (dequantizeColor
            <$> take (Z.to_nat maxColors)
                  (rankedKeys (sampleKeys (buffer σ img) (width img)
                                 (height img) step))).
Proof.
  intros Hstep Hmax Hw Hh. rewrite extractDominantColors_eq by done.
  rewrite tally_eq, sortDesc_keys, slice0_take by done.
  do 2 f_equal. rewrite <- fmap_take, <- list_fmap_compose.
  unfold rankedKeys. exact (list_fmap_id _).
Qed.

Lemma sampleKey_channels buf width p :
  sampleKey buf width p
  = let '(r0, g0, b0, a0) := channels buf width p in
    if bool_decide (a0 = Some 0) then None
    else Some (quantizeColor r0 g0 b0 a0).
Proof. done. Qed.

Lemma elem_of_sampleKeys buf width height step k :
  k ∈ sampleKeys buf width height step
  <-> exists p r0 g0 b0 a0,
        p ∈ sampleCoords width height step
        /\ channels buf width p = (r0, g0, b0, a0)
        /\ a0 <> Some 0
        /\ k = bucketKey (bucketOf (r0, g0, b0, a0)).
Proof.
  unfold sampleKeys. rewrite list_elem_of_omap. split.
  - intros (p & Hp & Hk). rewrite sampleKey_channels in Hk.
    destruct (channels buf width p) as [[[r0 g0] b0] a0] eqn:Hch.
    case_bool_decide; [done|]. injection Hk as <-.
    by exists p, r0, g0, b0, a0.
  - intros (p & r0 & g0 & b0 & a0 & Hp & Hch & Ha & ->). exists p.
    split; [done|]. rewrite sampleKey_channels, Hch.
    by rewrite bool_decide_false.
Qed.

Lemma elem_of_sampleCoords width height step p :
  0 < step ->
  p ∈ sampleCoords width height step
  <-> exists i j, 0 <= i /\ 0 <= j /\ p = (i * step, j * step)
        /\ i * step < height /\ j * step < width.
Proof.
  intros Hstep. unfold sampleCoords. rewrite list_elem_of_bind. split.
  - intros (y & (x & -> & Hx)%list_elem_of_fmap & Hy).
    apply elem_of_stepped in Hx as (j & -> & ? & ?); [|done].
    apply elem_of_stepped in Hy as (i & -> & ? & ?); [|done].
    by exists i, j.
  - intros (i & j & Hi & Hj & -> & Hh & Hw). exists (i * step). split.
    + apply list_elem_of_fmap. exists (j * step). split; [done|].
      apply elem_of_stepped; [done|]. by exists j.
    + apply elem_of_stepped; [done|]. by exists i.
Qed.

Lemma NoDup_all_equal {A} (l : list A) x :
  NoDup l -> (forall y, y ∈ l <-> y = x) -> l = [x].
Proof.
  intros Hnd Hall. destruct l as [|y [|z l]].
  - by destruct (not_elem_of_nil x); apply Hall.
  - f_equal. apply Hall. left.
  - assert (y = x) as -> by (apply Hall; left).
    assert (z = x) as -> by (apply Hall; right; left).
    apply NoDup_cons in Hnd as [Hx _]. destruct Hx. left.
Qed.

(** C8.  With a positive step, a non-negative [maxColors] and fuel for the
    two loops, [extractDominantColors] returns the colours of the first
    [maxColors] buckets in rank order: at most [maxColors] colours, and all
    the distinct buckets when there are fewer.  The buckets ranked are those
    of the sampled pixels, the pixels at [(j step, i step)] in row-major
    order, whose alpha is not 0; a bucket ranks before another when it was
    counted more often, or as often and first met earlier in the scan.  The
    colour returned for a bucket is its representative, [(q << 4) | q] in
    each channel.  When every sampled pixel has the same colour, with alpha
    not 0, and [maxColors >= 1], the result is that one representative. *)
Theorem extractDominantColors_spec (fuel : nat) (σ : Store)
    (img : ImageData) (maxColors step : Z) :
  0 < step -> 0 <= maxColors ->
  (stepCount (width img) step < fuel)%nat ->
  (stepCount (height img) step < fuel)%nat ->
  let buf := buffer σ img in
  let coords := sampleCoords (width img) (height img) step in
  let keys := sampleKeys buf (width img) (height img) step in
  exists ranked colors,
    extractDominantColors fuel σ img maxColors step = Some colors
    /\ colors = dequantizeColor <$> take (Z.to_nat maxColors) ranked
    /\ (length colors <= Z.to_nat maxColors)%nat
    /\ length colors
       = Nat.min (Z.to_nat maxColors) (length (distinctKeys keys))
    /\ NoDup ranked
    /\ (forall k, k ∈ ranked <-> k ∈ keys)
    /\ StronglySorted (keyRanks keys) ranked
    /\ (forall p, p ∈ coords
          <-> exists i j, 0 <= i /\ 0 <= j /\ p = (i * step, j * step)
                /\ i * step < height img /\ j * step < width img)
    /\ (forall k, k ∈ keys
          <-> exists p r0 g0 b0 a0,
                p ∈ coords
                /\ channels buf (width img) p = (r0, g0, b0, a0)
                /\ a0 <> Some 0
                /\ k = bucketKey (bucketOf (r0, g0, b0, a0)))
    /\ (forall q1 q2, bucketKey q1 = bucketKey q2 -> q1 = q2)
    /\ (forall k, k ∈ keys ->
          exists q, validBucket q /\ k = bucketKey q
            /\ dequantizeColor k = representative q)
    /\ (forall r0 g0 b0 a0,
          a0 <> Some 0 -> coords <> [] -> 1 <= maxColors ->
          (forall p, p ∈ coords ->
             channels buf (width img) p = (r0, g0, b0, a0)) ->
          colors = [representative (bucketOf (r0, g0, b0, a0))]).
Proof.
  intros Hstep Hmax Hw Hh buf coords keys.
  exists (rankedKeys keys), (dequantizeColor
                               <$> take (Z.to_nat maxColors) (rankedKeys keys)).
  split_and!.
  - by apply extractDominantColors_ranked.
  - done.
  - rewrite length_fmap, length_take. lia.
  - rewrite length_fmap, length_take.
    by rewrite (Permutation_length (rankedKeys_perm keys)).
  - apply NoDup_rankedKeys.
  - apply elem_of_rankedKeys.
  - apply rankedKeys_sorted.
  - intros p. by apply elem_of_sampleCoords.
  - apply elem_of_sampleKeys.
  - intros q1 q2. apply (inj bucketKey).
  - intros k (p & r0 & g0 & b0 & a0 & _ & _ & _ & ->)%elem_of_sampleKeys.
    eexists. split; [apply bucketOf_valid|]. split; [done|].
    apply dequantizeColor_bucketKey, bucketOf_valid.
  - intros r0 g0 b0 a0 Ha Hne Hone Hall.
    set (k0 := bucketKey (bucketOf (r0, g0, b0, a0))).
    assert (Hkeys : forall k, k ∈ rankedKeys keys <-> k = k0).
    { intros k. rewrite elem_of_rankedKeys. unfold keys.
      rewrite elem_of_sampleKeys. split.
      - intros (p & r1 & g1 & b1 & a1 & Hp & Hch & _ & ->).
        rewrite (Hall p Hp) in Hch. by injection Hch as <- <- <- <-.
      - intros ->. destruct coords as [|p rest] eqn:Hc; [done|].
        exists p, r0, g0, b0, a0. split_and!; try done.
        + fold coords. rewrite Hc. left.
        + apply Hall. left. }
    rewrite (NoDup_all_equal _ k0 (NoDup_rankedKeys keys) Hkeys).
    destruct (Z.to_nat maxColors) as [|n] eqn:Hn; [lia|].
    cbn [take fmap list_fmap]. rewrite take_nil. cbn [fmap list_fmap].
    unfold k0. by rewrite dequantizeColor_bucketKey by apply bucketOf_valid.
Qed.

Lemma extractDominantColors_spec_sample :
  exists colors,
    extractDominantColors 5 sampleStore sampleImage 16 1 = Some colors
    /\ (length colors <= 16)%nat.
Proof.
  destruct (extractDominantColors_spec 5 sampleStore sampleImage 16 1)
    as (ranked & colors & Hres & _ & Hlen & _).
  - lia.
  - lia.
  - vm_compute. lia.
  - vm_compute. lia.
  - exists colors. split; [exact Hres|exact Hlen].
Defined.

(** The sample image: the two red pixels outrank the grey one, and the
    transparent pixel is not counted. *)
Example extractDominantColors_sample :
  extractDominantColors 5 sampleStore sampleImage 16 1
  = Some [ {| r := 255; g := 0; b := 0; a := 255 |};
           {| r := 0; g := 17; b := 17; a := 34 |} ].
Proof. by vm_compute. Qed.

(** A step of 0 never leaves the first row: no amount of fuel is enough. *)
Example extractDominantColors_step_0 fuel :
  extractDominantColors fuel sampleStore sampleImage 16 0 = None.
Proof.
  unfold extractDominantColors. cbn [mbind option_bind].
  assert (Hinner : forall f counts y,
    forStep f 0 2 0 (sampleStepBody (buffer sampleStore sampleImage) 2 y)
      counts = None).
  { induction f as [|f IH]; intros counts y; [done|]. cbn [forStep].
    rewrite bool_decide_true by lia. rewrite sampleStepBody_key. cbn.
    apply IH. }
  assert (Houter : forall f (body : list (string * Z) -> Z -> _) s,
    body s 0 = None -> forStep f 0 2 0 body s = None).
  { intros [|f] body s Hbody; [done|]. cbn [forStep].
    rewrite bool_decide_true by lia. by rewrite Hbody. }
  change (height sampleImage) with 2. change (width sampleImage) with 2.
  rewrite Houter; [done|]. apply Hinner.
Qed.

(** ** More on the palette *)

Lemma replicate4_17 q : 0 <= q <= 15 -> replicate4 q = 17 * q.
Proof.
  intros Hq. destruct (small_cases q Hq)
    as [->|[->|[->|[->|[->|[->|[->|[->|[->|[->|[->|[->|[->|[->|[->| ->]]]]]]]]]]]]]]];
    reflexivity.
Qed.

Lemma representative_valid q : validBucket q -> validColor (representative q).
Proof.
  destruct q as [[[qr qg] qb] qa]. intros (Hr & Hg & Hb & Ha).
  unfold validColor. cbn. rewrite !replicate4_17 by done. lia.
Qed.

Lemma representative_inj q1 q2 :
  validBucket q1 -> validBucket q2 ->
  representative q1 = representative q2 -> q1 = q2.
Proof.
  destruct q1 as [[[r1 g1] b1] a1], q2 as [[[r2 g2] b2] a2].
  intros (? & ? & ? & ?) (? & ? & ? & ?). cbn.
  rewrite !replicate4_17 by done. intros [= ? ? ? ?].
  repeat f_equal; lia.
Qed.

(** The palette for any [maxColors], negative ones included. *)
Lemma extractDominantColors_sliced fuel (σ : Store) img maxColors step :
  0 < step ->
  (stepCount (width img) step < fuel)%nat ->
  (stepCount (height img) step < fuel)%nat ->
  extractDominantColors fuel σ img maxColors step
  = Some (dequantizeColor
            <$> slice0 maxColors
                  (rankedKeys (sampleKeys (buffer σ img) (width img)
                                 (height img) step))).
Proof.
  intros Hstep Hw Hh. rewrite extractDominantColors_eq by done.
  rewrite tally_eq, sortDesc_keys. do 2 f_equal. unfold slice0.
  rewrite length_fmap, <- fmap_take, <- list_fmap_compose.
  unfold rankedKeys. exact (list_fmap_id _).
Qed.

Lemma dequantizeColor_sampled buf width height step k :
  k ∈ sampleKeys buf width height step ->
  exists q, validBucket q /\ k = bucketKey q
    /\ dequantizeColor k = representative q.
Proof.
  intros (p & r0 & g0 & b0 & a0 & _ & _ & _ & ->)%elem_of_sampleKeys.
  eexists. split; [apply bucketOf_valid|]. split; [done|].
  apply dequantizeColor_bucketKey, bucketOf_valid.
Qed.

(** The colours [extractDominantColors] returns are colours of bytes, and
    no two of them are the same: a palette built from them has no two
    entries with the same [from]. *)
Theorem extractDominantColors_palette (fuel : nat) (σ : Store)
    (img : ImageData) (maxColors step : Z) :
  0 < step ->
  (stepCount (width img) step < fuel)%nat ->
  (stepCount (height img) step < fuel)%nat ->
  exists colors,
    extractDominantColors fuel σ img maxColors step = Some colors
    /\ NoDup colors /\ Forall validColor colors.
Proof.
  intros Hstep Hw Hh. eexists.
  split; [by apply extractDominantColors_sliced|].
  set (keys := sampleKeys (buffer σ img) (width img) (height img) step).
  assert (Hsub : forall k, k ∈ slice0 maxColors (rankedKeys keys) ->
                   k ∈ keys).
  { intros k Hk. apply elem_of_rankedKeys. unfold slice0 in Hk.
    by apply elem_of_take in Hk as (i & Hi%list_elem_of_lookup_2 & _). }
  split.
  - apply NoDup_fmap_2_strong.
    + intros k1 k2 Hk1%Hsub Hk2%Hsub Heq.
      apply dequantizeColor_sampled in Hk1 as (q1 & Hq1 & -> & Hd1).
      apply dequantizeColor_sampled in Hk2 as (q2 & Hq2 & -> & Hd2).
      rewrite Hd1, Hd2 in Heq. f_equal. by apply representative_inj.
    + unfold slice0.
      eapply sublist_NoDup; [apply NoDup_rankedKeys|apply sublist_take].
  - apply Forall_fmap, Forall_forall. intros k Hk%Hsub. cbn.
    apply dequantizeColor_sampled in Hk as (q & Hq & _ & ->).
    by apply representative_valid.
Qed.

Lemma extractDominantColors_palette_sample :
  exists colors,
    extractDominantColors 5 sampleStore sampleImage 8 1 = Some colors
    /\ NoDup colors /\ Forall validColor colors.
Proof.
  apply (extractDominantColors_palette 5 sampleStore sampleImage 8 1).
  - lia.
  - vm_compute. lia.
  - vm_compute. lia.
Defined.

(** Asking for fewer colours gives a prefix of what asking for more gives.
    A negative [maxColors] is read by [slice] from the back: the result is
    the whole ranked palette without its last [-maxColors] colours. *)
Theorem extractDominantColors_prefix (fuel : nat) (σ : Store)
    (img : ImageData) (step : Z) :
  0 < step ->
  (stepCount (width img) step < fuel)%nat ->
  (stepCount (height img) step < fuel)%nat ->
  (forall m m', 0 <= m <= m' ->
     extractDominantColors fuel σ img m step
     = take (Z.to_nat m) <$> extractDominantColors fuel σ img m' step)
  /\ (forall m big,
        m < 0 ->
        Z.of_nat (length (distinctKeys (sampleKeys (buffer σ img) (width img)
                                          (height img) step))) <= big ->
        extractDominantColors fuel σ img m step
        = (fun all => take (length all - Z.to_nat (- m)) all)
            <$> extractDominantColors fuel σ img big step).
Proof.
  intros Hstep Hw Hh. split.
  - intros m m' Hm. rewrite !extractDominantColors_ranked by (done || lia).
    cbn [fmap option_fmap option_map]. f_equal.
    rewrite <- fmap_take, take_take. do 2 f_equal. lia.
  - intros m big Hm Hbig.
    rewrite extractDominantColors_sliced by done.
    rewrite (extractDominantColors_ranked _ _ _ big) by (done || lia).
    cbn [fmap option_fmap option_map]. f_equal.
    set (ranked := rankedKeys _) in *.
    assert (Hlen : length ranked
                   = length (distinctKeys (sampleKeys (buffer σ img)
                                             (width img) (height img) step))).
    { apply Permutation_length, rankedKeys_perm. }
    rewrite (take_ge ranked) by lia.
    rewrite <- fmap_take, length_fmap. f_equal. unfold slice0.
    rewrite bool_decide_true by done. f_equal. lia.
Qed.

Lemma extractDominantColors_prefix_sample :
  extractDominantColors 5 sampleStore sampleImage 1 1
  = take 1 <$> extractDominantColors 5 sampleStore sampleImage 8 1
  /\ extractDominantColors 5 sampleStore sampleImage (-1) 1
     = (fun all => take (length all - 1) all)
         <$> extractDominantColors 5 sampleStore sampleImage 8 1.
Proof.
  destruct (extractDominantColors_prefix 5 sampleStore sampleImage 1)
    as [Hpre Hneg].
  - lia.
  - vm_compute. lia.
  - vm_compute. lia.
  - split.
    + apply (Hpre 1 8). lia.
    + apply (Hneg (-1) 8); [lia|]. vm_compute. discriminate.
Defined.

(** The palette is empty exactly when no colour is asked for or every
    sampled pixel is fully transparent (which holds when nothing is
    sampled: an image without width or without height). *)
Theorem extractDominantColors_empty (fuel : nat) (σ : Store)
    (img : ImageData) (maxColors step : Z) :
  0 < step -> 0 <= maxColors ->
  (stepCount (width img) step < fuel)%nat ->
  (stepCount (height img) step < fuel)%nat ->
  extractDominantColors fuel σ img maxColors step = Some []
  <-> maxColors = 0
      \/ forall p, p ∈ sampleCoords (width img) (height img) step ->
           (channels (buffer σ img) (width img) p).2 = Some 0.
Proof.
  intros Hstep Hmax Hw Hh. rewrite extractDominantColors_ranked by done.
  set (keys := sampleKeys (buffer σ img) (width img) (height img) step).
  assert (Hkeys : keys = []
                  <-> forall p, p ∈ sampleCoords (width img) (height img) step ->
                        (channels (buffer σ img) (width img) p).2 = Some 0).
  { split.
    - intros Hnil p Hp.
      destruct (channels (buffer σ img) (width img) p)
        as [[[r0 g0] b0] a0] eqn:Hch. cbn.
      destruct (decide (a0 = Some 0)) as [|Ha]; [done|exfalso].
      assert (Hin : bucketKey (bucketOf (r0, g0, b0, a0)) ∈ keys).
      { apply elem_of_sampleKeys. by exists p, r0, g0, b0, a0. }
      rewrite Hnil in Hin. by apply elem_of_nil in Hin.
    - intros Hall. destruct keys as [|k keys'] eqn:Hk; [done|exfalso].
      assert (Hin : k ∈ keys) by (rewrite Hk; left).
      apply elem_of_sampleKeys in Hin
        as (p & r0 & g0 & b0 & a0 & Hp & Hch & Ha & _).
      specialize (Hall p Hp). rewrite Hch in Hall. done. }
  rewrite <- Hkeys. split.
  - intros [= Hnil]. apply fmap_nil_inv in Hnil.
    destruct (decide (maxColors = 0)) as [|Hne]; [by left|right].
    destruct (rankedKeys keys) as [|k ranked] eqn:Hr.
    + destruct keys as [|k keys']; [done|].
      assert (Hin : k ∈ rankedKeys (k :: keys'))
        by (apply elem_of_rankedKeys; left).
      rewrite Hr in Hin. by apply elem_of_nil in Hin.
    + destruct (Z.to_nat maxColors) eqn:Hn; [lia|done].
  - intros [->| ->]; [done|]. by destruct (Z.to_nat maxColors).
Qed.

Lemma extractDominantColors_empty_sample :
  extractDominantColors 5 sampleStore sampleImage 0 1 = Some []
  <-> 0 = 0
      \/ forall p, p ∈ sampleCoords (width sampleImage) (height sampleImage) 1 ->
           (channels (buffer sampleStore sampleImage) (width sampleImage) p).2
           = Some 0.
Proof.
  apply (extractDominantColors_empty 5 sampleStore sampleImage 0 1).
  - lia.
  - lia.
  - vm_compute. lia.
  - vm_compute. lia.
Defined.

(** ** Buckets and their representatives *)

Lemma high4_representative q : 0 <= q <= 15 -> high4 (17 * q) = q.
Proof.
  intros Hq. rewrite high4_byte by lia.
  symmetry. apply Z.div_unique with (r := q); lia.
Qed.

(** Quantising a colour of bytes and expanding the bucket gives a colour of
    bytes in the same bucket, so doing it again changes nothing; each of
    its channels is 17 times the channel's high four bits, at most 15 away
    from the channel. *)
Theorem quantize_round_trip (c : Color) :
  validColor c ->
  let quantize (c : Color) :=
    quantizeColor (Some (r c)) (Some (g c)) (Some (b c)) (Some (a c)) in
  let rep := dequantizeColor (quantize c) in
  rep = {| r := 17 * (r c `div` 16); g := 17 * (g c `div` 16);
           b := 17 * (b c `div` 16); a := 17 * (a c `div` 16) |}
  /\ validColor rep
  /\ quantize rep = quantize c
  /\ dequantizeColor (quantize rep) = rep
  /\ Z.abs (r rep - r c) <= 15 /\ Z.abs (g rep - g c) <= 15
  /\ Z.abs (b rep - b c) <= 15 /\ Z.abs (a rep - a c) <= 15.
Proof.
  intros (Hr & Hg & Hb & Ha) quantize rep.
  assert (Hdiv : forall v, 0 <= v <= 255 ->
            0 <= v `div` 16 <= 15 /\ Z.abs (17 * (v `div` 16) - v) <= 15).
  { intros v Hv. pose proof (Z.div_mod v 16).
    pose proof (Z.mod_pos_bound v 16). lia. }
  destruct (Hdiv _ Hr) as [Hqr Hdr], (Hdiv _ Hg) as [Hqg Hdg],
    (Hdiv _ Hb) as [Hqb Hdb], (Hdiv _ Ha) as [Hqa Hda].
  assert (Hrep : rep = {| r := 17 * (r c `div` 16); g := 17 * (g c `div` 16);
                          b := 17 * (b c `div` 16);
                          a := 17 * (a c `div` 16) |}).
  { unfold rep, quantize. rewrite quantizeColor_bucket.
    rewrite dequantizeColor_bucketKey by apply bucketOf_valid.
    cbn [bucketOf representative default].
    rewrite !high4_byte by done. by rewrite !replicate4_17 by done. }
  assert (Hq : quantize rep = quantize c).
  { rewrite Hrep. unfold quantize, quantizeColor.
    cbn [r g b a default from_option Datatypes.id].
    rewrite !high4_representative by done. by rewrite !high4_byte by done. }
  split; [done|]. split; [rewrite Hrep; unfold validColor; cbn; lia|].
  split; [done|]. split; [by rewrite Hq|].
  rewrite Hrep. cbn [r g b a]. done.
Qed.

Lemma quantize_round_trip_sample :
  dequantizeColor (quantizeColor (Some 200) (Some 100) (Some 7) (Some 255))
  = {| r := 204; g := 102; b := 0; a := 255 |}.
Proof.
  destruct (quantize_round_trip {| r := 200; g := 100; b := 7; a := 255 |})
    as [Hrep _].
  - unfold validColor. cbn. lia.
  - exact Hrep.
Defined.

(** ** Distance and the two matching modes *)

Lemma colorDistanceSq_nonneg c1 c2 : 0 <= colorDistanceSq c1 c2.
Proof.
  unfold colorDistanceSq. cbn zeta.
  pose proof (Z.square_nonneg (r c1 - r c2)).
  pose proof (Z.square_nonneg (g c1 - g c2)).
  pose proof (Z.square_nonneg (b c1 - b c2)).
  pose proof (Z.square_nonneg (a c1 - a c2)). lia.
Qed.

Lemma colorDistanceSq_zero c1 c2 : colorDistanceSq c1 c2 = 0 <-> c1 = c2.
Proof.
  split; [|intros ->; unfold colorDistanceSq; cbn zeta; lia].
  destruct c1 as [r1 g1 b1 a1], c2 as [r2 g2 b2 a2].
  unfold colorDistanceSq. cbn [r g b a]. cbn zeta. intros H.
  pose proof (Z.square_nonneg (r1 - r2)) as Hr.
  pose proof (Z.square_nonneg (g1 - g2)) as Hg.
  pose proof (Z.square_nonneg (b1 - b2)) as Hb.
  pose proof (Z.square_nonneg (a1 - a2)) as Ha.
  assert (Hsq : forall d, d * d = 0 -> d = 0) by (intros d; nia).
  assert (r1 - r2 = 0) by (apply Hsq; lia).
  assert (g1 - g2 = 0) by (apply Hsq; lia).
  assert (b1 - b2 = 0) by (apply Hsq; lia).
  assert (a1 - a2 = 0) by (apply Hsq; lia).
  f_equal; lia.
Qed.

(** [colorDistanceSq] is symmetric, never negative, and 0 only between a
    colour and itself. *)
Theorem colorDistanceSq_metric (c1 c2 : Color) :
  colorDistanceSq c1 c2 = colorDistanceSq c2 c1
  /\ 0 <= colorDistanceSq c1 c2
  /\ (colorDistanceSq c1 c2 = 0 <-> c1 = c2).
Proof.
  split; [unfold colorDistanceSq; cbn zeta; lia|].
  split; [apply colorDistanceSq_nonneg|apply colorDistanceSq_zero].
Qed.

Lemma recolorBuffer_ext changes1 tol1 t1 changes2 tol2 t2 buf :
  (forall c, recolorPixel changes1 tol1 t1 c = recolorPixel changes2 tol2 t2 c) ->
  recolorBuffer changes1 tol1 t1 buf = recolorBuffer changes2 tol2 t2 buf.
Proof.
  intros Hext. induction buf as [buf IH] using (induction_ltof1 _ length).
  destruct buf as [|r0 [|g0 [|b0 [|a0 rest]]]]; try done.
  cbn [recolorBuffer]. rewrite Hext, IH; [done|]. unfold ltof. cbn. lia.
Qed.

Lemma recolorBuffer_id changes tol t buf :
  (forall c, recolorPixel changes tol t c = c) ->
  recolorBuffer changes tol t buf = buf.
Proof.
  intros Hid. induction buf as [buf IH] using (induction_ltof1 _ length).
  destruct buf as [|r0 [|g0 [|b0 [|a0 rest]]]]; try done.
  cbn [recolorBuffer]. rewrite Hid, IH; [done|]. unfold ltof. cbn. lia.
Qed.

(** With a tolerance of 0 the nearest change is taken only at distance 0,
    and the earliest nearest change is then the first exact match. *)
Lemma findReplacement_tolerance_0 changes t c :
  findReplacement changes (fromKeysOf changes) true 0 c
  = findReplacement changes (fromKeysOf changes) false t c.
Proof.
  rewrite findReplacement_exact.
  destruct (findReplacement_tolerance changes 0 c)
    as [[-> ->]|(j & ch & [Hj Hmin] & ->)]; [done|].
  pose proof (colorDistanceSq_nonneg c (from ch)) as Hnn.
  destruct (decide (colorDistanceSq c (from ch) <= 0)) as [Hle|Hgt].
  - assert (Hfrom : from ch = c)
      by (symmetry; apply colorDistanceSq_zero; lia).
    assert (Hfind : list_find (fun ch' => from ch' = c) changes
                    = Some (j, ch)).
    { apply list_find_Some. split_and!; [done..|].
      intros j' ch' Hj' Hlt Heq. destruct (Hmin j' ch' Hj') as [_ Hstrict].
      specialize (Hstrict Hlt). subst c. rewrite Heq in Hstrict. lia. }
    by rewrite Hfind.
  - destruct (list_find _ changes) as [[j' ch']|] eqn:Hfind; [|done].
    apply list_find_Some in Hfind as (Hj' & Heq & _).
    destruct (Hmin j' ch' Hj') as [Hle' _]. subst c.
    assert (colorDistanceSq (from ch') (from ch') = 0)
      by (by apply colorDistanceSq_zero).
    lia.
Qed.

(** Tolerance mode with a tolerance of 0 is exact mode: the two calls
    return the same image and leave the same store. *)
Theorem applyColorMappings_tolerance_0 (σ : Store) (base : ImageData)
    (changes : list PaletteChange) (toleranceSq : Z) :
  applyColorMappingsToImageData σ base changes true 0
  = applyColorMappingsToImageData σ base changes false toleranceSq.
Proof.
  rewrite !applyColorMappings_eq. do 2 f_equal.
  apply recolorBuffer_ext. intros c. unfold recolorPixel.
  by rewrite (findReplacement_tolerance_0 changes toleranceSq).
Qed.

(** The pixels come out as they went in when there is no change to apply,
    when, in exact mode, every change maps a colour of bytes to itself (as
    the changes of a freshly loaded tileset do), and when, in tolerance
    mode, the tolerance is negative.  The result is a copy all the same. *)
Theorem applyColorMappings_unchanged (σ : Store) (base : ImageData)
    (changes : list PaletteChange) (useTolerance : bool) (toleranceSq : Z) :
  changes = []
  \/ (useTolerance = false
      /\ Forall (fun ch => to ch = from ch /\ validColor (to ch)) changes)
  \/ (useTolerance = true /\ toleranceSq < 0) ->
  let res :=
    applyColorMappingsToImageData σ base changes useTolerance toleranceSq in
  buffer res.1 res.2 = buffer σ base /\ (data res.2 ∉ dom σ).
Proof.
  intros Hcase res. subst res. rewrite applyColorMappings_eq.
  cbn [fst snd data]. split; [|apply is_fresh].
  unfold buffer at 1. cbn [data]. rewrite lookup_insert_eq.
  cbn [from_option Datatypes.id]. apply recolorBuffer_id. intros c.
  unfold recolorPixel. case_decide; [done|].
  destruct Hcase as [->|[[-> Hid]|[-> Hneg]]].
  - by destruct useTolerance.
  - rewrite findReplacement_exact.
    destruct (list_find _ changes) as [[j ch]|] eqn:Hfind; cbn; [|done].
    apply list_find_Some in Hfind as (Hj%list_elem_of_lookup_2 & Heq & _).
    destruct (proj1 (Forall_forall _ _) Hid ch Hj) as [Hto Hvalid].
    rewrite clampColor_valid by done. congruence.
  - destruct (findReplacement_tolerance changes toleranceSq c)
      as [[_ ->]|(j & ch & _ & ->)]; [done|].
    pose proof (colorDistanceSq_nonneg c (from ch)).
    by rewrite decide_False by lia.
Qed.

Lemma applyColorMappings_unchanged_sample :
  let keep c := {| from := c; to := c |} in
  let res :=
    applyColorMappingsToImageData sampleStore sampleImage
      [keep {| r := 255; g := 0; b := 0; a := 255 |};
       keep {| r := 0; g := 17; b := 17; a := 34 |}] false 400 in
  buffer res.1 res.2 = buffer sampleStore sampleImage
  /\ (data res.2 ∉ dom sampleStore).
Proof.
  apply (applyColorMappings_unchanged sampleStore sampleImage).
  right. left. split; [reflexivity|].
  repeat constructor; cbn; lia.
Defined.

(** ** Colours as hexadecimal strings *)

(** Every code unit below 256. *)
Definition allChars : list Ascii.ascii := Ascii.ascii_of_nat <$> seq 0 256.

Lemma elem_of_allChars c : c ∈ allChars.
Proof.
  unfold allChars. apply list_elem_of_fmap.
  exists (Ascii.nat_of_ascii c). split; [by rewrite Ascii.ascii_nat_embedding|].
  apply elem_of_seq. pose proof (Ascii.nat_ascii_bounded c). lia.
Qed.

Lemma forall_chars (f : Ascii.ascii -> bool) :
  forallb f allChars = true -> forall c, f c = true.
Proof.
  intros Hall c. rewrite forallb_forall in Hall.
  apply Hall, list_elem_of_In, elem_of_allChars.
Qed.

Lemma forall_chars2 (f : Ascii.ascii -> Ascii.ascii -> bool) :
  forallb (fun c1 => forallb (f c1) allChars) allChars = true ->
  forall c1 c2, f c1 c2 = true.
Proof.
  intros Hall c1. apply forall_chars. revert c1. by apply forall_chars.
Qed.

Lemma forall_bytes (f : Z -> bool) :
  forallb f (seqZ 0 256) = true -> forall n, 0 <= n <= 255 -> f n = true.
Proof.
  intros Hall n Hn. rewrite forallb_forall in Hall.
  apply Hall, list_elem_of_In, elem_of_seqZ. lia.
Qed.

Definition isHexDigit (c : Ascii.ascii) : bool :=
  match hexValue c with Some _ => true | None => false end.

(** The digit [toString(16)] writes for the value of [c]. *)
Definition lowerHex (c : Ascii.ascii) : Ascii.ascii :=
  match hexValue c with Some d => hexDigit d | None => c end.

Definition pair_ (c1 c2 : Ascii.ascii) : string :=
  String c1 (String c2 EmptyString).

(** A channel [parseInt] can return for two code units. *)
Definition channelOk (v : option Z) : Prop :=
  match v with None => True | Some v => -15 <= v <= 255 end.

Lemma parseInt16_pair c1 c2 : channelOk (parseInt16 (pair_ c1 c2)).
Proof.
  assert (Hall : forall c1 c2,
    match parseInt16 (pair_ c1 c2) with
    | None => true
    | Some v => (-15 <=? v) && (v <=? 255)
    end = true).
  { apply forall_chars2. by vm_compute. }
  specialize (Hall c1 c2). unfold channelOk.
  destruct (parseInt16 _); [|done]. lia.
Qed.

Lemma parseInt16_digits c1 c2 :
  isHexDigit c1 = true -> isHexDigit c2 = true ->
  exists n, 0 <= n <= 255
    /\ parseInt16 (pair_ c1 c2) = Some n
    /\ toHex n = pair_ (lowerHex c1) (lowerHex c2)
    /\ isWhiteSpace c2 = false.
Proof.
  assert (Hall : forall c1 c2,
    (if isHexDigit c1 && isHexDigit c2 then
       match parseInt16 (pair_ c1 c2) with
       | Some n =>
           (0 <=? n) && (n <=? 255)
           && String.eqb (toHex n) (pair_ (lowerHex c1) (lowerHex c2))
           && negb (isWhiteSpace c2)
       | None => false
       end
     else true) = true).
  { apply forall_chars2. by vm_compute. }
  intros H1 H2. specialize (Hall c1 c2). rewrite H1, H2 in Hall.
  cbn [andb] in Hall. destruct (parseInt16 _) as [n|]; [|done].
  apply andb_prop in Hall as [Hall Hws]. apply andb_prop in Hall as [Hall Heq].
  apply String.eqb_eq in Heq. apply negb_true_iff in Hws.
  exists n. split_and!; try done; lia.
Qed.

Lemma toHex_byte n :
  0 <= n <= 255 ->
  exists c1 c2, toHex n = pair_ c1 c2
    /\ parseInt16 (pair_ c1 c2) = Some n
    /\ isWhiteSpace c2 = false.
Proof.
  assert (Hall : forall n, 0 <= n <= 255 ->
    match toHex n with
    | String c1 (String c2 EmptyString) =>
        match parseInt16 (pair_ c1 c2) with
        | Some m => (m =? n) && negb (isWhiteSpace c2)
        | None => false
        end
    | _ => false
    end = true).
  { apply forall_bytes. by vm_compute. }
  intros Hn. specialize (Hall n Hn).
  destruct (toHex n) as [|c1 [|c2 [|]]]; try done.
  exists c1, c2. destruct (parseInt16 _) as [m|]; [|done].
  apply andb_prop in Hall as [Hm Hws]. apply negb_true_iff in Hws.
  split_and!; [done| |done]. f_equal. lia.
Qed.

Lemma trimEnd_snoc s c :
  isWhiteSpace c = false ->
  trimEnd (s +:+ String c "") = s +:+ String c "".
Proof.
  intros Hc. induction s as [|a s IH].
  - rewrite append_nil_l. cbn. by rewrite Hc.
  - rewrite append_cons. cbn [trimEnd]. rewrite IH.
    destruct s; by rewrite ?append_nil_l, ?append_cons.
Qed.

(** What [trim] returns ends with a code unit that is no white space. *)
Lemma trimEnd_last s t c :
  trimEnd s = t +:+ String c "" -> isWhiteSpace c = false.
Proof.
  revert t. induction s as [|a s IH]; intros t; cbn [trimEnd].
  - destruct t; rewrite ?append_nil_l, ?append_cons; done.
  - destruct (trimEnd s) as [|b u] eqn:Hu.
    + destruct (isWhiteSpace a) eqn:Ha.
      * destruct t; rewrite ?append_nil_l, ?append_cons; done.
      * destruct t as [|x [|y t]]; rewrite ?append_nil_l, ?append_cons;
          intros [= <-]; try done.
    + destruct t as [|x t]; rewrite ?append_nil_l, ?append_cons.
      * intros Heq. discriminate Heq.
      * intros [= _ Heq]. by apply (IH t).
Qed.

(** [hexToColor] on [#] and six code units, the last no white space. *)
Lemma hexToColor_six d1 d2 d3 d4 d5 d6 alpha :
  isWhiteSpace d6 = false ->
  hexToColor (String "#" (String d1 (String d2 (String d3 (String d4
                (pair_ d5 d6)))))) alpha
  = {| hex_r := parseInt16 (pair_ d1 d2); hex_g := parseInt16 (pair_ d3 d4);
       hex_b := parseInt16 (pair_ d5 d6); hex_a := default 255 alpha |}.
Proof.
  intros Hd6. unfold hexToColor, trim.
  change (trimStart (String "#" ?t)) with (String "#" t).
  change (String "#" (String d1 (String d2 (String d3 (String d4
            (pair_ d5 d6))))))
    with (String "#" (String d1 (String d2 (String d3 (String d4
            (String d5 ""))))) +:+ String d6 "").
  rewrite trimEnd_snoc by done. reflexivity.
Qed.

(** A colour whose red, green and blue are bytes is written as [#] and six
    hexadecimal digits, and [hexToColor] reads it back: with the colour's
    alpha passed along, the colour itself. *)
Theorem colorToHex_hexToColor (c : Color) :
  0 <= r c <= 255 -> 0 <= g c <= 255 -> 0 <= b c <= 255 ->
  String.length (colorToHex c) = 7%nat
  /\ hexToColor (colorToHex c) (Some (a c))
     = {| hex_r := Some (r c); hex_g := Some (g c); hex_b := Some (b c);
          hex_a := a c |}.
Proof.
  intros Hr Hg Hb. unfold colorToHex.
  destruct (toHex_byte _ Hr) as (r1 & r2 & -> & Hpr & _).
  destruct (toHex_byte _ Hg) as (g1 & g2 & -> & Hpg & _).
  destruct (toHex_byte _ Hb) as (b1 & b2 & -> & Hpb & Hws).
  unfold pair_ at 1 2 3.
  repeat (rewrite append_nil_l || rewrite append_cons).
  split; [done|].
  rewrite (hexToColor_six r1 r2 g1 g2 b1 b2) by done.
  by rewrite Hpr, Hpg, Hpb.
Qed.

Lemma colorToHex_hexToColor_sample :
  String.length (colorToHex {| r := 255; g := 0; b := 10; a := 3 |}) = 7%nat
  /\ hexToColor (colorToHex {| r := 255; g := 0; b := 10; a := 3 |}) (Some 3)
     = {| hex_r := Some 255; hex_g := Some 0; hex_b := Some 10; hex_a := 3 |}.
Proof.
  apply (colorToHex_hexToColor {| r := 255; g := 0; b := 10; a := 3 |});
    cbn; lia.
Defined.

(** [#] and six hexadecimal digits, as a colour input sends them, are read
    as a colour of bytes that [colorToHex] writes back as the same string,
    in lower case. *)
Theorem hexToColor_colorToHex (d1 d2 d3 d4 d5 d6 : Ascii.ascii)
    (alpha : option Z) :
  isHexDigit d1 = true -> isHexDigit d2 = true -> isHexDigit d3 = true ->
  isHexDigit d4 = true -> isHexDigit d5 = true -> isHexDigit d6 = true ->
  let hex := String "#" (String d1 (String d2 (String d3 (String d4
               (pair_ d5 d6))))) in
  exists c,
    hexToColor hex alpha
    = {| hex_r := Some (r c); hex_g := Some (g c); hex_b := Some (b c);
         hex_a := a c |}
    /\ validColor {| r := r c; g := g c; b := b c; a := 255 |}
    /\ a c = default 255 alpha
    /\ colorToHex c
       = String "#" (String (lowerHex d1) (String (lowerHex d2)
           (String (lowerHex d3) (String (lowerHex d4)
              (pair_ (lowerHex d5) (lowerHex d6)))))).
Proof.
  intros H1 H2 H3 H4 H5 H6 hex.
  destruct (parseInt16_digits d1 d2 H1 H2) as (r0 & Hr & Hpr & Htr & _).
  destruct (parseInt16_digits d3 d4 H3 H4) as (g0 & Hg & Hpg & Htg & _).
  destruct (parseInt16_digits d5 d6 H5 H6) as (b0 & Hb & Hpb & Htb & Hws).
  exists {| r := r0; g := g0; b := b0; a := default 255 alpha |}.
  cbn [r g b a]. split_and!.
  - unfold hex. rewrite hexToColor_six by done. by rewrite Hpr, Hpg, Hpb.
  - unfold validColor. cbn. lia.
  - done.
  - unfold colorToHex. cbn [r g b]. rewrite Htr, Htg, Htb. unfold pair_.
    by repeat (rewrite append_nil_l || rewrite append_cons).
Qed.

Lemma hexToColor_colorToHex_sample :
  exists c,
    hexToColor "#1E90ff" (Some 200)
    = {| hex_r := Some (r c); hex_g := Some (g c); hex_b := Some (b c);
         hex_a := a c |}
    /\ colorToHex c = "#1e90ff".
Proof.
  destruct (hexToColor_colorToHex "1" "E" "9" "0" "f" "f" (Some 200))
    as (c & Hread & _ & _ & Hwrite); try reflexivity.
  exists c. split; [exact Hread|exact Hwrite].
Defined.

(** The string [hexToColor] reads its digits from: [hex] trimmed, without
    one leading [#]. *)
Definition hexBody (hex : string) : string :=
  let h := trim hex in
  match h with String "#" h' => h' | _ => h end.

Lemma hexToColor_body hex alpha :
  hexToColor hex alpha
  = match hexBody hex with
    | String h0 (String h1 (String h2 EmptyString)) =>
        {| hex_r := parseInt16 (pair_ h0 h0);
           hex_g := parseInt16 (pair_ h1 h1);
           hex_b := parseInt16 (pair_ h2 h2);
           hex_a := default 255 alpha |}
    | h =>
        if bool_decide (6 <= String.length h)%nat then
          {| hex_r := parseInt16 (substring 0 2 h);
             hex_g := parseInt16 (substring 2 2 h);
             hex_b := parseInt16 (substring 4 2 h);
             hex_a := default 255 alpha |}
        else {| hex_r := Some 0; hex_g := Some 0; hex_b := Some 0;
                hex_a := default 255 alpha |}
    end.
Proof.
  unfold hexToColor, hexBody. cbn zeta.
  match goal with |- context [String.length ?h] => generalize h end.
  by intros [|h0 [|h1 [|h2 [|h3 rest]]]].
Qed.

Lemma hexBody_last hex t c :
  hexBody hex = t +:+ String c "" -> isWhiteSpace c = false.
Proof.
  unfold hexBody, trim. intros Hbody.
  destruct (trimEnd (trimStart hex)) as [|x h] eqn:Htrim.
  - destruct t; rewrite ?append_nil_l, ?append_cons in Hbody; done.
  - assert (Hcases : h = t +:+ String c "" \/ String x h = t +:+ String c "").
    { destruct (decide (x = "#"%char)) as [->|Hne]; [by left|right].
      revert Hbody. destruct x as [[] [] [] [] [] [] [] []]; try done. }
    destruct Hcases as [Hh|Hh].
    + apply (trimEnd_last (trimStart hex) (String x t)).
      by rewrite Htrim, append_cons, Hh.
    + apply (trimEnd_last (trimStart hex) t). by rewrite Htrim.
Qed.

Lemma substring_0_0 s : substring 0 0 s = "".
Proof. by destruct s. Qed.


(** Whatever string it is given, [hexToColor] returns the alpha it was
    passed (255 without one) and channels that are [NaN] or integers from
    -15 to 255.  Three code units are read as the six got by doubling each;
    of six or more, the first six are read; any other length gives black. *)
Theorem hexToColor_shape (hex : string) (alpha : option Z) :
  let c := hexToColor hex alpha in
  let h := hexBody hex in
  hex_a c = default 255 alpha
  /\ channelOk (hex_r c) /\ channelOk (hex_g c) /\ channelOk (hex_b c)
  /\ (String.length h <> 3%nat -> (String.length h < 6)%nat ->
      hex_r c = Some 0 /\ hex_g c = Some 0 /\ hex_b c = Some 0)
  /\ (forall h0 h1 h2,
        h = String h0 (pair_ h1 h2) ->
        c = hexToColor
              (String "#" (String h0 (String h0 (String h1 (String h1
                 (pair_ h2 h2)))))) alpha)
  /\ (forall d1 d2 d3 d4 d5 d6 rest,
        h = String d1 (String d2 (String d3 (String d4 (String d5
              (String d6 rest))))) ->
        hex_r c = parseInt16 (pair_ d1 d2)
        /\ hex_g c = parseInt16 (pair_ d3 d4)
        /\ hex_b c = parseInt16 (pair_ d5 d6)).
Proof.
  intros c h. subst c. rewrite hexToColor_body. fold h.
  assert (Hlast : forall t x, h = t +:+ String x "" -> isWhiteSpace x = false).
  { intros t x. apply hexBody_last. }
  clearbody h.
  destruct h as [|c0 [|c1 [|c2 [|c3 [|c4 [|c5 rest]]]]]];
    cbn [String.length bool_decide decide_rel hex_a hex_r hex_g hex_b];
    try (rewrite bool_decide_false by (cbn; lia));
    try (rewrite bool_decide_true by (cbn; lia));
    cbn [hex_a hex_r hex_g hex_b substring];
    rewrite ?substring_0_0;
    (split; [done|]);
    (split; [try done; apply parseInt16_pair|]);
    (split; [try done; apply parseInt16_pair|]);
    (split; [try done; apply parseInt16_pair|]);
    (split; [try done; cbn; intros; lia|]);
    (split; [|intros d1 d2 d3 d4 d5 d6 rest' Heq; try done]).
  all: try (intros h0 h1 h2 Heq; discriminate Heq).
  - intros h0 h1 h2 [= <- <- <-].
    rewrite hexToColor_six; [done|]. by apply (Hlast (pair_ c0 c1)).
  - by injection Heq as <- <- <- <- <- <- _.
Qed.

(** ** Keys of colours *)

(** An integer that JavaScript holds exactly and prints with all its
    digits. *)
Definition safeInteger (v : Z) : Prop := - 2 ^ 53 < v < 2 ^ 53.

(** A colour whose four channels are such integers. *)
Definition safeColor (c : Color) : Prop :=
  safeInteger (r c) /\ safeInteger (g c) /\ safeInteger (b c)
  /\ safeInteger (a c).

(** Two colours with channels below [2^53] in magnitude, negative ones
    included, have the same key exactly when they are the same colour; so
    the index of a pixel's key among the keys of the [from] colours is the
    index of the first change from the pixel's colour. *)
Theorem colorToKey_distinct (c1 c2 : Color) (changes : list PaletteChange) :
  safeColor c1 -> safeColor c2 ->
  Forall (fun ch => safeColor (from ch)) changes ->
  (colorToKey c1 = colorToKey c2 <-> c1 = c2)
  /\ indexOf (colorToKey c1) ((fun ch => colorToKey (from ch)) <$> changes)
     = fst <$> list_find (fun ch => from ch = c1) changes.
Proof.
  intros _ _ _. split; [|apply indexOf_fromKeys].
  split; [apply (inj colorToKey)|by intros ->].
Qed.

Lemma colorToKey_distinct_sample :
  let c1 := {| r := 12; g := 3; b := 0; a := 255 |} in
  let c2 := {| r := 1; g := 23; b := 0; a := 255 |} in
  let c3 := {| r := -1; g := 23; b := 0; a := 255 |} in
  colorToKey c1 = "12,3,0,255" /\ colorToKey c2 = "1,23,0,255"
  /\ colorToKey c3 = "-1,23,0,255"
  /\ (colorToKey c1 = colorToKey c2 <-> c1 = c2)
  /\ indexOf (colorToKey c1)
       ((fun ch => colorToKey (from ch))
          <$> [ {| from := c2; to := c3 |}; {| from := c1; to := c2 |};
                {| from := c1; to := c3 |} ])
     = Some 1%nat.
Proof.
  cbn zeta. split; [reflexivity|]. split; [reflexivity|].
  split; [reflexivity|].
  destruct (colorToKey_distinct {| r := 12; g := 3; b := 0; a := 255 |}
              {| r := 1; g := 23; b := 0; a := 255 |}
              [ {| from := {| r := 1; g := 23; b := 0; a := 255 |};
                   to := {| r := -1; g := 23; b := 0; a := 255 |} |};
                {| from := {| r := 12; g := 3; b := 0; a := 255 |};
                   to := {| r := 1; g := 23; b := 0; a := 255 |} |};
                {| from := {| r := 12; g := 3; b := 0; a := 255 |};
                   to := {| r := -1; g := 23; b := 0; a := 255 |} |} ])
    as [Hkey Hindex].
  - unfold safeColor, safeInteger. cbn. lia.
  - unfold safeColor, safeInteger. cbn. lia.
  - repeat constructor; unfold safeInteger; cbn; lia.
  - split; [exact Hkey|]. rewrite Hindex. reflexivity.
Defined.

End ColorToolsSpec.

(** * The map renderer's tileset lookup ([utils/mapRender.ts]:
    [src/unnamed/part_003]) *)

Module MapRender.

(** The body of [for (const ts of tilesets)] in [findTilesetForGid]:
    [gid >= ts.firstgid && (!chosen || ts.firstgid > chosen.firstgid)]. *)
Definition findTilesetStep (gid : Z) (chosen : option RawTilesetRef)
    (ts : RawTilesetRef) : option RawTilesetRef :=
  if bool_decide (firstgid ts <= gid)
     && match chosen with
        | None => true
        | Some c => bool_decide (firstgid c < firstgid ts)
        end
  then Some ts
  else chosen.

Definition findTilesetForGid (gid : Z) (tilesets : list RawTilesetRef)
  : option RawTilesetRef :=
  foldl (findTilesetStep gid) None tilesets.

End MapRender.

Module MapRenderSpec.
Import TmjMerge TmjMergeSpec MapRender.

(** [ts], at index [i], is the first of the tilesets with the highest
    [firstgid] that is at most [gid]. *)
Definition isChosen (gid : Z) (tilesets : list RawTilesetRef) (i : nat)
    (ts : RawTilesetRef) : Prop :=
  tilesets !! i = Some ts /\ firstgid ts <= gid
  /\ forall j ts', tilesets !! j = Some ts' -> firstgid ts' <= gid ->
       firstgid ts' < firstgid ts
       \/ (firstgid ts' = firstgid ts /\ (i <= j)%nat).

Lemma findTilesetForGid_snoc gid tilesets ts :
  findTilesetForGid gid (tilesets ++ [ts])
  = findTilesetStep gid (findTilesetForGid gid tilesets) ts.
Proof. unfold findTilesetForGid. by rewrite foldl_app. Qed.

Lemma findTilesetForGid_chosen gid tilesets :
  match findTilesetForGid gid tilesets with
  | None => forall ts, ts ∈ tilesets -> gid < firstgid ts
  | Some ts => exists i, isChosen gid tilesets i ts
  end.
Proof.
  induction tilesets as [|ts tilesets IH] using rev_ind.
  - cbn. by intros ts ?%elem_of_nil.
  - rewrite findTilesetForGid_snoc. unfold findTilesetStep.
    destruct (findTilesetForGid gid tilesets) as [c|].
    + destruct IH as (i & Hi & Hle & Hmax).
      pose proof (lookup_lt_Some _ _ _ Hi) as Hlt.
      destruct (bool_decide_reflect (firstgid ts <= gid)) as [Hts|Hts];
        cbn [andb];
        [destruct (bool_decide_reflect (firstgid c < firstgid ts))
           as [Hgt|Hgt]|].
      * exists (length tilesets). split_and!; [|done|].
        { by rewrite lookup_app_r, Nat.sub_diag by lia. }
        intros j ts' Hj Hle'.
        destruct (decide (j < length tilesets)%nat) as [Hjl|Hjl].
        -- rewrite lookup_app_l in Hj by done.
           destruct (Hmax j ts' Hj Hle') as [?|[? ?]]; left; lia.
        -- pose proof (lookup_lt_Some _ _ _ Hj) as Hj'.
           rewrite length_app in Hj'. cbn in Hj'. right.
           assert (j = length tilesets) as -> by lia.
           rewrite lookup_app_r, Nat.sub_diag in Hj by lia.
           injection Hj as <-. done.
      * exists i. split_and!; [by apply lookup_app_l_Some|done|].
        intros j ts' Hj Hle'.
        destruct (decide (j < length tilesets)%nat) as [Hjl|Hjl].
        -- rewrite lookup_app_l in Hj by done. by apply Hmax.
        -- pose proof (lookup_lt_Some _ _ _ Hj) as Hj'.
           rewrite length_app in Hj'. cbn in Hj'.
           assert (j = length tilesets) as -> by lia.
           rewrite lookup_app_r, Nat.sub_diag in Hj by lia.
           injection Hj as <-. lia.
      * exists i. split_and!; [by apply lookup_app_l_Some|done|].
        intros j ts' Hj Hle'.
        destruct (decide (j < length tilesets)%nat) as [Hjl|Hjl].
        -- rewrite lookup_app_l in Hj by done. by apply Hmax.
        -- pose proof (lookup_lt_Some _ _ _ Hj) as Hj'.
           rewrite length_app in Hj'. cbn in Hj'.
           assert (j = length tilesets) as -> by lia.
           rewrite lookup_app_r, Nat.sub_diag in Hj by lia.
           injection Hj as <-. lia.
    + destruct (bool_decide_reflect (firstgid ts <= gid)) as [Hts|Hts];
        cbn [andb].
      * exists (length tilesets). split_and!; [|done|].
        { by rewrite lookup_app_r, Nat.sub_diag by lia. }
        intros j ts' Hj Hle'.
        destruct (decide (j < length tilesets)%nat) as [Hjl|Hjl].
        -- rewrite lookup_app_l in Hj by done.
           apply list_elem_of_lookup_2, IH in Hj. lia.
        -- pose proof (lookup_lt_Some _ _ _ Hj) as Hj'.
           rewrite length_app in Hj'. cbn in Hj'. right.
           assert (j = length tilesets) as -> by lia.
           rewrite lookup_app_r, Nat.sub_diag in Hj by lia.
           injection Hj as <-. done.
      * intros ts' [Hts'|Hts']%elem_of_app; [by apply IH|].
        apply elem_of_cons in Hts' as [->|Hts']; [lia|].
        by apply elem_of_nil in Hts'.
Qed.

(** A tileset that beats every other one is the tileset found. *)
Lemma findTilesetForGid_unique gid tilesets i ts :
  tilesets !! i = Some ts -> firstgid ts <= gid ->
  (forall j ts', j <> i -> tilesets !! j = Some ts' -> firstgid ts' <= gid ->
     firstgid ts' < firstgid ts) ->
  findTilesetForGid gid tilesets = Some ts.
Proof.
  intros Hi Hle Hbeats. pose proof (findTilesetForGid_chosen gid tilesets) as H.
  destruct (findTilesetForGid gid tilesets) as [t|].
  - destruct H as (i' & Hi' & Hle' & Hmax).
    destruct (decide (i' = i)) as [->|Hne]; [congruence|].
    pose proof (Hbeats i' t Hne Hi' Hle').
    destruct (Hmax i ts Hi Hle) as [?|[? ?]]; lia.
  - apply list_elem_of_lookup_2, H in Hi. lia.
Qed.

Lemma sumTilecounts_take_S i l ts :
  l !! i = Some ts ->
  sumTilecounts (take (Datatypes.S i) l)
  = sumTilecounts (take i l) + default 0 (tilecount ts).
Proof.
  intros Hi. rewrite (take_S_r _ _ _ Hi), sumTilecounts_app. cbn. lia.
Qed.

Lemma sumTilecounts_take_le a b l :
  Forall (fun ts => 0 <= default 0 (tilecount ts)) l -> (a <= b)%nat ->
  sumTilecounts (take a l) <= sumTilecounts (take b l).
Proof.
  intros Hnn Hab.
  rewrite (sumTilecounts_split a (take b l)), take_take, Nat.min_l by done.
  pose proof (sumTilecounts_nonneg (drop a (take b l))
                (Forall_drop _ a _ (Forall_take _ b _ Hnn))).
  lia.
Qed.

Section LookupStatements.
Import Samples.

(** [findTilesetForGid] returns the first of the tilesets with the highest
    [firstgid] that is at most [gid], and nothing exactly when every
    [firstgid] is above [gid].  It does not look at tile counts: a GID past
    the last range still gets the last tileset. *)
Theorem findTilesetForGid_spec (gid : Z) (tilesets : list RawTilesetRef) :
  (findTilesetForGid gid tilesets = None
   <-> forall ts, ts ∈ tilesets -> gid < firstgid ts)
  /\ (forall ts, findTilesetForGid gid tilesets = Some ts
        <-> exists i, isChosen gid tilesets i ts).
Proof.
  pose proof (findTilesetForGid_chosen gid tilesets) as H. split.
  - destruct (findTilesetForGid gid tilesets) as [t|]; [|done].
    split; [done|]. intros Hall. destruct H as (i & Hi & Hle & _).
    apply list_elem_of_lookup_2, Hall in Hi. lia.
  - intros ts. split.
    + intros Hres. by rewrite Hres in H.
    + intros (i & Hi & Hle & Hmax).
      destruct (findTilesetForGid gid tilesets) as [t|].
      * destruct H as (i' & Hi' & Hle' & Hmax').
        destruct (Hmax i' t Hi' Hle') as [?|[? ?]];
          destruct (Hmax' i ts Hi Hle) as [?|[? ?]]; try lia.
        assert (i' = i) as -> by lia. congruence.
      * apply list_elem_of_lookup_2, H in Hi. lia.
Qed.

(** After a merge of tilesets that all have tiles, the renderer's lookup
    of a remapped GID among the global tilesets finds the global tileset
    with the key of the GID's source tileset, and the tile's index in it is
    the tile's index in the source tileset. *)
Theorem findTilesetForGid_after_merge (chunks : list MapChunk) (i : nat)
    (c : MapChunk) (m : GidRemap) (gid g' : Z) :
  (forall ts, ts ∈ allTilesets chunks -> 1 <= default 0 (tilecount ts)) ->
  chunks !! i = Some c ->
  gidRemaps (mergeTilesets chunks) !! i = Some m ->
  m !! gid = Some g' ->
  exists ts G,
    sourceTileset (tmj_tilesets (tmj c)) gid = Some ts
    /\ findTilesetForGid g' (globalTilesets (mergeTilesets chunks)) = Some G
    /\ tilesetKey G = tilesetKey ts
    /\ g' - firstgid G = gid - firstgid ts
    /\ covers g' G.
Proof.
  intros Hpos Hc Hm Hg.
  destruct (remap_entry chunks i c m gid g' Hc Hm Hg)
    as (ts & j & G & Hsrc & Hj & _ & Hk & ->).
  exists ts, G. pose proof Hsrc as [_ Hcov]%sourceTileset_elem.
  unfold covers in Hcov. rewrite <- (tilecount_of_key _ _ Hk) in Hcov.
  assert (Hnn : forall t, t ∈ allTilesets chunks ->
                  0 <= default 0 (tilecount t)).
  { intros t Ht. specialize (Hpos t Ht). lia. }
  pose proof (globals_nonneg chunks Hnn) as Hall.
  assert (Hcount : forall k Gk,
    globalTilesets (mergeTilesets chunks) !! k = Some Gk ->
    1 <= default 0 (tilecount Gk)).
  { intros k Gk (t & Ht & Hkt)%list_elem_of_lookup_2%globals_from_chunks.
    rewrite (tilecount_of_key _ _ Hkt). by apply Hpos. }
  split_and!; [done| |done|lia|unfold covers; lia].
  apply (findTilesetForGid_unique _ _ j); [done|lia|].
  intros j' G' Hne Hj' Hle.
  rewrite (globals_firstgid _ _ _ Hj'), (globals_firstgid _ _ _ Hj) in *.
  destruct (decide (j' < j)%nat) as [Hlt|Hge].
  - pose proof (sumTilecounts_take_S _ _ _ Hj') as HS.
    pose proof (sumTilecounts_take_le (Datatypes.S j') j _ Hall ltac:(lia)).
    pose proof (Hcount _ _ Hj'). lia.
  - pose proof (sumTilecounts_take_S _ _ _ Hj) as HS.
    pose proof (sumTilecounts_take_le (Datatypes.S j) j' _ Hall ltac:(lia)).
    lia.
Qed.

Lemma findTilesetForGid_after_merge_sample :
  exists ts G,
    sourceTileset (tmj_tilesets (tmj chunkB)) 4 = Some ts
    /\ findTilesetForGid 2 (globalTilesets (mergeTilesets [chunkA; chunkB]))
       = Some G
    /\ tilesetKey G = tilesetKey ts
    /\ 2 - firstgid G = 4 - firstgid ts
    /\ covers 2 G.
Proof.
  apply (findTilesetForGid_after_merge [chunkA; chunkB] 1 chunkB
           (<[6 := 4]> (<[5 := 3]> (<[4 := 2]> (<[3 := 1]>
              (<[2 := 6]> (<[1 := 5]> ∅))))))).
  - intros ts Hts. cbn in Hts.
    repeat (apply elem_of_cons in Hts as [->|Hts]; [cbn; lia|]).
    by apply elem_of_nil in Hts.
  - reflexivity.
  - vm_compute. reflexivity.
  - reflexivity.
Defined.

End LookupStatements.

End MapRenderSpec.

(** * Paths ([src/utils/pathUtils.ts]) *)

Module PathUtils.

(** [path.replace(/\\/g, "/")] *)
Fixpoint normalizeSeparators (s : string) : string :=
  match s with
  | EmptyString => EmptyString
  | String c s' =>
      String (if bool_decide (c = "\"%char) then "/"%char else c)
             (normalizeSeparators s')
  end.

(** [s.split(sep)] for a separator that is one code unit, or a class of
    code units: never an empty array. *)
Fixpoint splitOn (isSep : Ascii.ascii -> bool) (s : string) : list string :=
  match s with
  | EmptyString => [EmptyString]
  | String c s' =>
      if isSep c then EmptyString :: splitOn isSep s'
      else match splitOn isSep s' with
           | [] => [String c EmptyString]
           | w :: ws => String c w :: ws
           end
  end.

Definition isSlash (c : Ascii.ascii) : bool := bool_decide (c = "/"%char).

(** [s.split("/")] *)
Definition split (s : string) : list string := splitOn isSlash s.

(** [parts.join("/")] *)
Fixpoint join (parts : list string) : string :=
  match parts with
  | [] => EmptyString
  | [x] => x
  | x :: xs => x +:+ "/" +:+ join xs
  end.

(** [parts.pop()], for what is left in [parts]. *)
Definition pop {A} (parts : list A) : list A := removelast parts.

Definition dirname (path : string) : string :=
  let normalized := normalizeSeparators path in
  let parts := split normalized in
  join (pop parts).

(** [rel.replace(/^\/+/, "")] *)
Fixpoint stripLeadingSlashes (s : string) : string :=
  match s with
  | String c s' => if isSlash c then stripLeadingSlashes s' else s
  | EmptyString => s
  end.

(** The body of [for (const segment of rel.split("/"))]. *)
Definition segmentStep (stack : list string) (segment : string)
  : list string :=
  if bool_decide (segment = "" \/ segment = ".") then stack
  else if bool_decide (segment = "..") then pop stack
  else stack ++ [segment].

Definition resolveRelativePath (baseFilePath relativePath : string)
  : string :=
  let rel := normalizeSeparators relativePath in
  match rel with
  | String "/" _ => stripLeadingSlashes rel
  | _ =>
      let baseDir := dirname baseFilePath in
      let stack := match baseDir with
                   | EmptyString => []
                   | _ => split baseDir
                   end in
      join (foldl segmentStep stack (split rel))
  end.

(** [parts[parts.length - 1] || ""] *)
Definition basename (path : string) : string :=
  let normalized := normalizeSeparators path in
  let parts := split normalized in
  default "" (last parts).

End PathUtils.

(** * Properties of the path functions *)

Module PathUtilsSpec.
Import PathUtils.

Fixpoint noSlash (s : string) : Prop :=
  match s with
  | EmptyString => True
  | String c s' => c <> "/"%char /\ noSlash s'
  end.

Fixpoint noBackslash (s : string) : Prop :=
  match s with
  | EmptyString => True
  | String c s' => c <> "\"%char /\ noBackslash s'
  end.

(** A segment [resolveRelativePath] pushes. *)
Definition ordinary (segment : string) : Prop :=
  segment <> "" /\ segment <> "." /\ segment <> "..".

Lemma app_nil_l s : "" +:+ s = s.
Proof. done. Qed.

Lemma app_cons c s t : String c s +:+ t = String c (s +:+ t).
Proof. done. Qed.

Lemma app_assoc_ s t u : s +:+ (t +:+ u) = (s +:+ t) +:+ u.
Proof. induction s as [|c s IH]; [done|]. by rewrite !app_cons, IH. Qed.

Lemma split_cons c s :
  split (String c s)
  = if isSlash c then "" :: split s
    else match split s with
         | [] => [String c ""]
         | w :: ws => String c w :: ws
         end.
Proof. done. Qed.

Lemma split_nonempty s : split s <> [].
Proof.
  induction s as [|c s IH]; [done|]. rewrite split_cons.
  destruct (isSlash c); [done|]. by destruct (split s).
Qed.

Lemma split_noSlash s : Forall noSlash (split s).
Proof.
  induction s as [|c s IH]; [by repeat constructor|]. rewrite split_cons.
  destruct (isSlash c) eqn:Hc; [by constructor|].
  apply bool_decide_eq_false in Hc.
  destruct (split s) as [|w ws]; [by repeat constructor|].
  apply Forall_cons in IH as [Hw Hws]. by repeat constructor.
Qed.

Lemma isSlash_true c : isSlash c = true <-> c = "/"%char.
Proof. unfold isSlash. by rewrite bool_decide_eq_true. Qed.

Lemma join_cons x y ys : join (x :: y :: ys) = x +:+ "/" +:+ join (y :: ys).
Proof. done. Qed.

(** Joining what [split] returned gives the string back. *)
Lemma join_split s : join (split s) = s.
Proof.
  induction s as [|c s IH]; [done|]. rewrite split_cons.
  destruct (isSlash c) eqn:Hc.
  - apply isSlash_true in Hc as ->.
    pose proof (split_nonempty s). destruct (split s) as [|w ws]; [done|].
    rewrite join_cons, IH. by rewrite app_nil_l.
  - pose proof (split_nonempty s). destruct (split s) as [|w ws]; [done|].
    destruct ws as [|w' ws].
    + cbn in IH |- *. by rewrite IH.
    + rewrite join_cons in IH |- *. by rewrite app_cons, IH.
Qed.

Lemma split_noSlash_id s : noSlash s -> split s = [s].
Proof.
  induction s as [|c s IH]; [done|]. intros [Hc Hs]. rewrite split_cons.
  unfold isSlash. rewrite bool_decide_false by done. by rewrite IH.
Qed.

Lemma split_append s t :
  noSlash s -> split (s +:+ String "/" t) = s :: split t.
Proof.
  induction s as [|c s IH]; intros Hs.
  - by rewrite app_nil_l.
  - destruct Hs as [Hc Hs]. rewrite app_cons, split_cons.
    unfold isSlash at 1. rewrite bool_decide_false by done.
    by rewrite IH.
Qed.

(** Splitting what [join] returned gives the parts back, when there is a
    part and no part holds a slash. *)
Lemma split_join parts :
  parts <> [] -> Forall noSlash parts -> split (join parts) = parts.
Proof.
  induction parts as [|x [|y ys] IH]; intros Hne Hall; [done| |].
  - apply Forall_cons in Hall as [Hx _]. by apply split_noSlash_id.
  - apply Forall_cons in Hall as [Hx Hrest].
    rewrite join_cons. change ("/" +:+ ?t) with (String "/" t).
    rewrite split_append by done. by rewrite IH.
Qed.

Lemma join_app l1 l2 :
  l1 <> [] -> l2 <> [] -> join (l1 ++ l2) = join l1 +:+ "/" +:+ join l2.
Proof.
  intros H1 H2. induction l1 as [|x [|y ys] IH]; [done| |].
  - destruct l2 as [|z zs]; [done|]. done.
  - change ((x :: y :: ys) ++ l2) with (x :: (y :: ys) ++ l2).
    change ((y :: ys) ++ l2) with (y :: ys ++ l2).
    rewrite join_cons. change (y :: ys ++ l2) with ((y :: ys) ++ l2).
    rewrite IH by done. rewrite join_cons. by rewrite !app_assoc_.
Qed.

Lemma normalizeSeparators_noBackslash s : noBackslash (normalizeSeparators s).
Proof.
  induction s as [|c s IH]; [done|]. cbn. split; [|done].
  by case_bool_decide.
Qed.

Lemma normalizeSeparators_id s : noBackslash s -> normalizeSeparators s = s.
Proof.
  induction s as [|c s IH]; [done|]. intros [Hc Hs]. cbn.
  rewrite bool_decide_false by done. by rewrite IH.
Qed.

Lemma split_noBackslash s : noBackslash s -> Forall noBackslash (split s).
Proof.
  induction s as [|c s IH]; [by repeat constructor|]. intros [Hc Hs].
  rewrite split_cons. specialize (IH Hs).
  destruct (isSlash c); [by constructor|].
  destruct (split s) as [|w ws]; [by repeat constructor|].
  apply Forall_cons in IH as [Hw Hws]. by repeat constructor.
Qed.

Lemma noBackslash_app s t :
  noBackslash s -> noBackslash t -> noBackslash (s +:+ t).
Proof.
  induction s as [|c s IH]; [done|]. intros [Hc Hs] Ht.
  rewrite app_cons. split; [done|]. by apply IH.
Qed.

Lemma join_noBackslash parts :
  Forall noBackslash parts -> noBackslash (join parts).
Proof.
  induction parts as [|x [|y ys] IH]; intros Hall; [done| |].
  - by apply Forall_cons in Hall as [Hx _].
  - apply Forall_cons in Hall as [Hx Hrest]. rewrite join_cons.
    apply noBackslash_app; [done|]. apply noBackslash_app; [done|].
    by apply IH.
Qed.

Lemma split_snoc s :
  exists init b, split s = init ++ [b] /\ last (split s) = Some b
    /\ pop (split s) = init.
Proof.
  pose proof (split_nonempty s) as Hne.
  destruct (split s) as [|x l] using rev_ind; [done|].
  exists l, x. split; [done|]. split; [apply last_snoc|].
  unfold pop. apply removelast_last.
Qed.

Lemma noSlash_split_iff s : noSlash s <-> split s = [s].
Proof.
  split; [apply split_noSlash_id|]. intros Hs.
  pose proof (split_noSlash s) as Hall. rewrite Hs in Hall.
  by apply Forall_cons in Hall as [? _].
Qed.

(** [basename] of a string without separators. *)
Lemma basename_plain s : noSlash s -> noBackslash s -> basename s = s.
Proof.
  intros Hs Hb. unfold basename. cbn zeta.
  by rewrite normalizeSeparators_id, split_noSlash_id by done.
Qed.

(** [dirname] and [basename] cut a path, its backslashes read as slashes,
    at its last slash: the path is the directory, a slash and the base
    name, or the base name alone when it has no slash.  The base name has
    no separator, so it is its own base name and has no directory. *)
Theorem dirname_basename (path : string) :
  let normalized := normalizeSeparators path in
  noSlash (basename path) /\ noBackslash (basename path)
  /\ (noSlash normalized -> dirname path = "" /\ basename path = normalized)
  /\ (~ noSlash normalized ->
      normalized = dirname path +:+ "/" +:+ basename path)
  /\ basename (basename path) = basename path
  /\ dirname (basename path) = "".
Proof.
  intros n. unfold basename, dirname. cbn zeta. fold n.
  destruct (split_snoc n) as (init & b & Hparts & -> & ->).
  cbn [default from_option Datatypes.id].
  assert (Hb : noSlash b /\ noBackslash b).
  { pose proof (split_noSlash n) as H1.
    pose proof (split_noBackslash n (normalizeSeparators_noBackslash path))
      as H2.
    rewrite Hparts in H1, H2.
    apply Forall_app in H1 as [_ [H1 _]%Forall_cons].
    apply Forall_app in H2 as [_ [H2 _]%Forall_cons]. done. }
  destruct Hb as [Hb1 Hb2]. split_and!; try done.
  - intros Hn%split_noSlash_id. rewrite Hn in Hparts.
    destruct init as [|x [|y init]]; try done. by injection Hparts as ->.
  - intros Hn. rewrite <- (join_split n) at 1. rewrite Hparts.
    destruct init as [|x init].
    + exfalso. apply Hn. rewrite <- (join_split n), Hparts. done.
    + by rewrite join_app.
  - rewrite normalizeSeparators_id, split_noSlash_id by done. done.
  - rewrite normalizeSeparators_id, split_noSlash_id by done. done.
Qed.

(** The stack of [resolveRelativePath] holds segments only. *)
Definition isSegment (s : string) : Prop := noSlash s /\ noBackslash s.

Lemma pop_Forall {A} (P : A -> Prop) l : Forall P l -> Forall P (pop l).
Proof.
  intros Hall. destruct l as [|x l] using rev_ind; [done|].
  unfold pop. rewrite removelast_last.
  by apply Forall_app in Hall as [? _].
Qed.

Lemma segmentStep_Forall (P : string -> Prop) stack segment :
  Forall P stack -> (ordinary segment -> P segment) ->
  Forall P (segmentStep stack segment).
Proof.
  intros Hst Hseg. unfold segmentStep.
  case_bool_decide as H1; [done|].
  case_bool_decide as H2; [by apply pop_Forall|].
  apply Forall_app. split; [done|]. constructor; [|done]. apply Hseg.
  unfold ordinary. tauto.
Qed.

Lemma segmentsLoop_Forall (P : string -> Prop) segments : forall stack,
  Forall P stack -> Forall (fun seg => ordinary seg -> P seg) segments ->
  Forall P (foldl segmentStep stack segments).
Proof.
  induction segments as [|seg segments IH]; intros stack Hst Hsegs;
    [done|].
  apply Forall_cons in Hsegs as [Hseg Hsegs]. cbn [foldl].
  apply IH; [|done]. by apply segmentStep_Forall.
Qed.

Lemma segmentsLoop_plain segments : forall stack,
  Forall ordinary segments ->
  foldl segmentStep stack segments = stack ++ segments.
Proof.
  induction segments as [|seg segments IH]; intros stack Hall.
  - by rewrite app_nil_r.
  - apply Forall_cons in Hall as [(H1 & H2 & H3) Hall]. cbn [foldl].
    unfold segmentStep at 2.
    rewrite bool_decide_false by tauto. rewrite bool_decide_false by done.
    rewrite IH by done. by rewrite <- app_assoc.
Qed.

(** The stack [resolveRelativePath] starts from. *)
Definition baseStack (baseFilePath : string) : list string :=
  match dirname baseFilePath with
  | EmptyString => []
  | baseDir => split baseDir
  end.

Lemma resolveRelativePath_relative base rel :
  (forall t, normalizeSeparators rel <> String "/" t) ->
  resolveRelativePath base rel
  = join (foldl segmentStep (baseStack base)
            (split (normalizeSeparators rel))).
Proof.
  intros Hrel. unfold resolveRelativePath, baseStack. cbn zeta.
  destruct (normalizeSeparators rel) as [|c t] eqn:Hn.
  - by destruct (dirname base).
  - destruct (decide (c = "/"%char)) as [->|Hc]; [by destruct (Hrel t)|].
    destruct c as [[] [] [] [] [] [] [] []]; try done;
      by destruct (dirname base).
Qed.

Lemma dirname_noBackslash path : noBackslash (dirname path).
Proof.
  unfold dirname. cbn zeta. apply join_noBackslash, pop_Forall.
  apply split_noBackslash, normalizeSeparators_noBackslash.
Qed.

Lemma baseStack_segments base : Forall isSegment (baseStack base).
Proof.
  unfold baseStack. pose proof (dirname_noBackslash base) as Hd.
  destruct (dirname base) as [|c d]; [done|].
  apply Forall_and. split; [apply split_noSlash|by apply split_noBackslash].
Qed.

Lemma relSegments rel :
  Forall isSegment (split (normalizeSeparators rel)).
Proof.
  apply Forall_and. split; [apply split_noSlash|].
  apply split_noBackslash, normalizeSeparators_noBackslash.
Qed.

Lemma join_dirname base :
  baseStack base <> [] -> join (baseStack base) = dirname base.
Proof.
  unfold baseStack. destruct (dirname base) as [|c d] eqn:Hd; [done|].
  intros _. apply join_split.
Qed.

Lemma stripLeadingSlashes_last s :
  last (split (stripLeadingSlashes s)) = last (split s).
Proof.
  induction s as [|c s IH]; [done|]. cbn [stripLeadingSlashes].
  destruct (isSlash c) eqn:Hc; [|done]. rewrite IH, split_cons, Hc.
  pose proof (split_nonempty s). by destruct (split s).
Qed.

Lemma stripLeadingSlashes_noBackslash s :
  noBackslash s -> noBackslash (stripLeadingSlashes s).
Proof.
  induction s as [|c s IH]; [done|]. intros [Hc Hs].
  cbn [stripLeadingSlashes]. destruct (isSlash c); [by apply IH|done].
Qed.

(** A relative path of plain segments (none empty, [.] or [..]) is put
    after the directory of the base file, and stands alone when the base
    file has no directory. *)
Theorem resolveRelativePath_plain (base rel : string) :
  Forall ordinary (split (normalizeSeparators rel)) ->
  resolveRelativePath base rel
  = match dirname base with
    | EmptyString => normalizeSeparators rel
    | baseDir => baseDir +:+ "/" +:+ normalizeSeparators rel
    end.
Proof.
  intros Hplain.
  assert (Hrel : forall t, normalizeSeparators rel <> String "/" t).
  { intros t Heq. rewrite Heq in Hplain.
    change (split (String "/" t)) with ("" :: split t) in Hplain.
    by apply Forall_cons in Hplain as [[? _] _]. }
  rewrite resolveRelativePath_relative, segmentsLoop_plain by done.
  unfold baseStack. destruct (dirname base) as [|c d] eqn:Hd.
  - apply join_split.
  - rewrite join_app, !join_split; [done|apply split_nonempty..].
Qed.

Lemma resolveRelativePath_plain_sample :
  resolveRelativePath "maps\sub/m.tmj" "tilesets\a.png"
  = "maps/sub/tilesets/a.png".
Proof.
  apply (resolveRelativePath_plain "maps\sub/m.tmj" "tilesets\a.png").
  repeat constructor; discriminate.
Defined.

(** The file a path names is not changed by resolving it: when the last
    segment of the relative path is a name (not empty, [.] or [..]), it is
    the base name of the resolved path. *)
Theorem resolveRelativePath_basename (base rel : string) :
  ordinary (basename rel) ->
  basename (resolveRelativePath base rel) = basename rel.
Proof.
  intros Hord. unfold basename. cbn zeta.
  assert (Hcase : (exists t, normalizeSeparators rel = String "/" t)
                  \/ forall t, normalizeSeparators rel <> String "/" t).
  { destruct (normalizeSeparators rel) as [|c t]; [by right|].
    destruct (decide (c = "/"%char)) as [->|Hc]; [left; by eauto|right].
    by intros t' [= ? _]. }
  destruct Hcase as [[t Ht]|Hrel].
  - unfold resolveRelativePath. cbn zeta. rewrite Ht, <- Ht.
    rewrite normalizeSeparators_id
      by apply stripLeadingSlashes_noBackslash,
               normalizeSeparators_noBackslash.
    by rewrite stripLeadingSlashes_last.
  - rewrite resolveRelativePath_relative by done.
    unfold basename in Hord. cbn zeta in Hord.
    destruct (split_snoc (normalizeSeparators rel))
      as (init & b & Hparts & Hlast & _).
    rewrite Hlast in Hord |- *. cbn [default from_option Datatypes.id] in *.
    rewrite Hparts, foldl_app. cbn [foldl]. unfold segmentStep at 1.
    destruct Hord as (H1 & H2 & H3).
    rewrite bool_decide_false by tauto. rewrite bool_decide_false by done.
    set (stack := foldl segmentStep (baseStack base) init).
    assert (Hstack : Forall isSegment (stack ++ [b])).
    { pose proof (relSegments rel) as Hrs. rewrite Hparts in Hrs.
      apply Forall_app in Hrs as [Hinit Hb]. apply Forall_app.
      split; [|done]. apply segmentsLoop_Forall.
      - apply baseStack_segments.
      - eapply Forall_impl; [exact Hinit|]. done. }
    apply Forall_and in Hstack as [Hns Hnb].
    rewrite normalizeSeparators_id by by apply join_noBackslash.
    rewrite split_join; [|by destruct stack|done]. by rewrite last_snoc.
Qed.

Lemma resolveRelativePath_basename_sample :
  basename (resolveRelativePath "maps/m.tmj" "../tilesets/./a.png")
  = basename "../tilesets/./a.png".
Proof.
  apply (resolveRelativePath_basename "maps/m.tmj" "../tilesets/./a.png").
  repeat split; discriminate.
Defined.

(** Resolving a relative path against a base whose directory has plain
    segments gives a path of plain segments, or the empty path: no [.], no
    [..], no empty segment and no backslash is left.  A [..] with nothing
    left to go up from is dropped. *)
Theorem resolveRelativePath_normal (base rel : string) :
  Forall ordinary (baseStack base) ->
  (forall t, normalizeSeparators rel <> String "/" t) ->
  let resolved := resolveRelativePath base rel in
  noBackslash resolved
  /\ (resolved = "" \/ Forall ordinary (split resolved))
  /\ (baseStack base = [] ->
      resolveRelativePath base (".." +:+ "/" +:+ rel) = resolved).
Proof.
  intros Hbase Hrel resolved. subst resolved.
  rewrite resolveRelativePath_relative by done.
  set (stack := foldl segmentStep (baseStack base)
                  (split (normalizeSeparators rel))).
  assert (Hstack : Forall (fun s => isSegment s /\ ordinary s) stack).
  { apply segmentsLoop_Forall.
    - apply Forall_and. split; [apply baseStack_segments|done].
    - eapply Forall_impl; [apply relSegments|]. done. }
  apply Forall_and in Hstack as [[Hns Hnb]%Forall_and Hord].
  split; [by apply join_noBackslash|]. split.
  - destruct stack as [|x stack'] eqn:Hst; [by left|right].
    by rewrite split_join.
  - intros Hempty. rewrite resolveRelativePath_relative.
    + change (normalizeSeparators (".." +:+ "/" +:+ rel))
        with (String "." (String "." (String "/" (normalizeSeparators rel)))).
      rewrite !split_cons.
      change (isSlash ".") with false. change (isSlash "/") with true.
      cbn iota.
      pose proof (split_nonempty (normalizeSeparators rel)) as Hne.
      fold stack. unfold stack. rewrite Hempty. 
      destruct (split (normalizeSeparators rel)) as [|w ws]; [done|].
      done.
    + intros t. done.
Qed.

Lemma resolveRelativePath_normal_sample :
  noBackslash (resolveRelativePath "m.tmj" "..\..\tilesets/a.png")
  /\ resolveRelativePath "m.tmj" "..\..\tilesets/a.png" = "tilesets/a.png".
Proof.
  destruct (resolveRelativePath_normal "m.tmj" "..\..\tilesets/a.png")
    as (Hnb & _ & _).
  - constructor.
  - intros t. discriminate.
  - split; [exact Hnb|reflexivity].
Defined.

End PathUtilsSpec.

(** * The editor's state updates ([App.tsx]: [src/unnamed/part_000]) *)

Module App.

(** [fileName.toLowerCase()] is left to the caller of the model:
    [toLowerCase] is any function on strings. *)
Section Lookup.
Variable toLowerCase : string -> string.

(** The class [[/\\]] of the regular expression [findTmjTilesetForFile]
    splits with. *)
Definition isSeparator (c : Ascii.ascii) : bool :=
  bool_decide (c = "/"%char) || bool_decide (c = "\"%char).

(** [image.split(/[/\\]/).pop()?.toLowerCase()]; [split] never returns an
    empty array, so [pop] returns a string. *)
Definition tilesetBase (image : string) : option string :=
  toLowerCase <$> last (PathUtils.splitOn isSeparator image).

(** [for (const ts of chunk.tmj.tilesets)], left at the first match. *)
Fixpoint findInTilesets (base : string) (tilesets : list RawTilesetRef)
  : option RawTilesetRef :=
  match tilesets with
  | [] => None
  | ts :: rest =>
      match image ts with
      | None | Some EmptyString => findInTilesets base rest
      | Some img =>
          if bool_decide (tilesetBase img = Some base) then Some ts
          else findInTilesets base rest
      end
  end.

(** [for (const chunk of chunks)] *)
Fixpoint findInChunks (base : string) (chunks : list MapChunk)
  : option RawTilesetRef :=
  match chunks with
  | [] => None
  | chunk :: rest =>
      match findInTilesets base (tmj_tilesets (tmj chunk)) with
      | Some ts => Some ts
      | None => findInChunks base rest
      end
  end.

Definition findTmjTilesetForFile (fileName : string)
    (chunks : list MapChunk) : option RawTilesetRef :=
  let base := toLowerCase fileName in
  findInChunks base chunks.

End Lookup.

(** The update [handleChunkOffsetChange] hands to [setMapChunks]: from the
    previous chunks to the next. *)
Definition handleChunkOffsetChange (id : string) (offsetX offsetY : Z)
    (prev : list MapChunk) : list MapChunk :=
  (fun chunk =>
     if bool_decide (chunk_id chunk = id)
     then {| chunk_id := chunk_id chunk; tmj := tmj chunk;
             offsetX := offsetX; offsetY := offsetY |}
     else chunk) <$> prev.

End App.

Module AppSpec.
Import TmjMerge TmjMergeSpec PathUtils PathUtilsSpec App.

Lemma splitOn_separators s :
  splitOn isSeparator s = split (normalizeSeparators s).
Proof.
  induction s as [|c s IH]; [done|].
  cbn [normalizeSeparators splitOn]. rewrite split_cons, <- IH.
  unfold isSeparator, isSlash.
  destruct (decide (c = "\"%char)) as [->|Hb]; [done|].
  rewrite (bool_decide_false (c = "\"%char)) by done.
  by rewrite orb_false_r.
Qed.

(** A tileset [findTmjTilesetForFile] takes for the file: it has an image,
    and the base name of the image is the file name, up to case. *)
Definition namesFile (toLowerCase : string -> string) (fileName : string)
    (ts : RawTilesetRef) : Prop :=
  exists img, image ts = Some img /\ img <> ""
    /\ toLowerCase (basename img) = toLowerCase fileName.

Global Instance namesFile_dec lower fileName ts :
  Decision (namesFile lower fileName ts).
Proof.
  unfold namesFile. destruct (image ts) as [img|].
  - destruct (decide (img <> "" /\ lower (basename img) = lower fileName))
      as [H|H].
    + left. by exists img.
    + right. intros (img' & [= <-] & ? & ?). by apply H.
  - right. by intros (img' & ? & _).
Defined.

Lemma tilesetBase_basename lower img :
  tilesetBase lower img = Some (lower (basename img)).
Proof.
  unfold tilesetBase, basename. cbn zeta. rewrite splitOn_separators.
  by destruct (split_snoc (normalizeSeparators img)) as (? & b & _ & -> & _).
Qed.

Lemma findInTilesets_find lower fileName tilesets :
  findInTilesets lower (lower fileName) tilesets
  = snd <$> list_find (namesFile lower fileName) tilesets.
Proof.
  induction tilesets as [|ts tilesets IH]; [done|].
  cbn [findInTilesets list_find].
  destruct (decide (namesFile lower fileName ts))
    as [(img' & Hi & Hne & Heq)|Hno].
  - rewrite Hi. destruct img' as [|c img']; [done|].
    rewrite tilesetBase_basename, bool_decide_true; [done|].
    by rewrite Heq.
  - assert (Hrest : snd <$> (prod_map Datatypes.S Datatypes.id
                               <$> list_find (namesFile lower fileName)
                                     tilesets)
                    = findInTilesets lower (lower fileName) tilesets).
    { rewrite IH. by destruct (list_find _ tilesets) as [[]|]. }
    rewrite Hrest. destruct (image ts) as [[|c img]|] eqn:Himg; try done.
    rewrite tilesetBase_basename, bool_decide_false; [done|].
    intros [= Heq]. apply Hno. by exists (String c img).
Qed.

Lemma findInChunks_find lower fileName chunks :
  findInChunks lower (lower fileName) chunks
  = snd <$> list_find (namesFile lower fileName) (allTilesets chunks).
Proof.
  induction chunks as [|c chunks IH]; [done|].
  cbn [findInChunks]. unfold allTilesets. rewrite bind_cons.
  fold (allTilesets chunks). rewrite findInTilesets_find.
  destruct (list_find _ (tmj_tilesets (tmj c))) as [[i ts]|] eqn:Hfind.
  - by rewrite (list_find_app_l _ _ _ _ _ Hfind).
  - rewrite (list_find_app_r _ _ _ Hfind), IH. cbn.
    by destruct (list_find _ (allTilesets chunks)) as [[]|].
Qed.

Lemma foldl_ext_pointwise {S X} (f g : S -> X -> S) l s :
  (forall s x, f s x = g s x) -> foldl f s l = foldl g s l.
Proof.
  intros Hext. revert s. induction l as [|x l IH]; intros s; [done|].
  cbn. by rewrite Hext, IH.
Qed.

Section AppStatements.
Import Samples.

(** [findTmjTilesetForFile] returns the first tileset, in the order of the
    chunks and of their tilesets, whose image has the file's name up to
    case, whatever the directory and the separators of the image path; the
    base name its regular expression cuts off is that of [basename].  It
    returns nothing exactly when no tileset has such an image.  So it does
    whatever [toLowerCase] is. *)
Theorem findTmjTilesetForFile_spec (toLowerCase : string -> string)
    (fileName : string) (chunks : list MapChunk) :
  findTmjTilesetForFile toLowerCase fileName chunks
  = snd <$> list_find (namesFile toLowerCase fileName) (allTilesets chunks)
  /\ (findTmjTilesetForFile toLowerCase fileName chunks = None
      <-> forall ts, ts ∈ allTilesets chunks ->
            ~ namesFile toLowerCase fileName ts)
  /\ (forall img, tilesetBase toLowerCase img
                  = Some (toLowerCase (basename img))).
Proof.
  unfold findTmjTilesetForFile. cbn zeta. rewrite findInChunks_find.
  split; [done|]. split; [|apply tilesetBase_basename].
  rewrite fmap_None, list_find_None, Forall_forall. done.
Qed.

(** A lower-casing of the letters [A] to [Z], for the sample. *)
Definition lowerLetter (c : Ascii.ascii) : Ascii.ascii :=
  let n := Ascii.N_of_ascii c in
  if bool_decide (65 <= n <= 90)%N then Ascii.ascii_of_N (n + 32) else c.

Fixpoint lowerLetters (s : string) : string :=
  match s with
  | EmptyString => EmptyString
  | String c s' => String (lowerLetter c) (lowerLetters s')
  end.

Example findTmjTilesetForFile_sample :
  findTmjTilesetForFile lowerLetters "Props.PNG"
    [chunkA;
     {| chunk_id := "c";
        tmj := document []
                 [{| firstgid := 1; source := None; ts_name := Some "p";
                     tilewidth := None; tileheight := None;
                     tilecount := Some 2; columns := Some 2;
                     image := Some "..\tilesets/props.png" |}] 16 None;
        offsetX := 0; offsetY := 0 |};
     chunkB]
  = Some {| firstgid := 1; source := None; ts_name := Some "p";
            tilewidth := None; tileheight := None;
            tilecount := Some 2; columns := Some 2;
            image := Some "..\tilesets/props.png" |}.
Proof. reflexivity. Qed.

(** Moving a chunk sets the offsets of the chunks with that id and of no
    other; ids, documents and order stay.  The last move of an id decides,
    and moves of two ids can be made in either order.  The tilesets and the
    remaps of a merge do not depend on where the chunks are. *)
Theorem handleChunkOffsetChange_spec (id : string) (x y : Z)
    (chunks : list MapChunk) :
  let moved := handleChunkOffsetChange id x y chunks in
  chunk_id <$> moved = chunk_id <$> chunks
  /\ tmj <$> moved = tmj <$> chunks
  /\ (forall i c, chunks !! i = Some c ->
        exists c', moved !! i = Some c'
          /\ (chunk_id c = id -> offsetX c' = x /\ offsetY c' = y)
          /\ (chunk_id c <> id -> c' = c))
  /\ (forall x' y',
        handleChunkOffsetChange id x y
          (handleChunkOffsetChange id x' y' chunks) = moved)
  /\ (forall id' x' y', id' <> id ->
        handleChunkOffsetChange id' x' y' moved
        = handleChunkOffsetChange id x y
            (handleChunkOffsetChange id' x' y' chunks))
  /\ mergeTilesets moved = mergeTilesets chunks.
Proof.
  intros moved. subst moved. unfold handleChunkOffsetChange.
  split_and!.
  - rewrite <- list_fmap_compose. apply list_fmap_ext. intros i c _. cbn.
    by case_bool_decide.
  - rewrite <- list_fmap_compose. apply list_fmap_ext. intros i c _. cbn.
    by case_bool_decide.
  - intros i c Hc. rewrite list_lookup_fmap, Hc. cbn. eexists.
    split; [done|]. case_bool_decide; by split.
  - intros x' y'. rewrite <- list_fmap_compose. apply list_fmap_ext.
    intros i c _. cbn. repeat case_bool_decide; cbn in *; done.
  - intros id' x' y' Hne. rewrite <- !list_fmap_compose.
    apply list_fmap_ext. intros i c _. cbn.
    repeat case_bool_decide; cbn in *; congruence.
  - unfold mergeTilesets, mergeTilesetsLoop.
    rewrite indexed_fmap, <- list_fmap_compose, foldl_fmap.
    rewrite (foldl_ext_pointwise _ chunkStep); [done|].
    intros st [i c]. unfold chunkStep, prod_map. cbn [fst snd].
    by case_bool_decide.
Qed.

End AppStatements.

End AppSpec.
